(** * PSS: forwarding cache, key registry, dispatcher and forwarder

    A shallow embedding of the [pss] package (type [Pss] and its
    methods) together with the properties of the forwarding engine, of
    the key registry and of the dispatcher.

    Conventions of the embedding:
    - a Go [[]byte] is a [list byte]; the [nil] slice is the empty list
      ([bytes.Equal] does not tell them apart);
    - the fixed-width arrays [pot.Address], [pssDigest] and
      [whisper.TopicType] are byte lists, and [copy(dst[:], src)] into
      a zeroed array is [copy_into];
    - a Go map is a [gmap]; a lookup of a missing key yields the zero
      value of the value type, written out at each use;
    - [time.Time] is an integer count of ticks since the zero instant;
    - a Go [error] result is an [option Error] ([None] is [nil]);
    - a method is a function from the world to an outcome: it returns
      a value and the new world, or it panics;
    - the [log] calls are not part of the embedding, and every method
      is taken as one sequential step; what the methods do with the
      mutex is modelled apart, in [Locking]. *)

From Stdlib Require Import ZArith Lia.
From Stdlib Require Import Strings.Byte Strings.Ascii.
From stdpp Require Import base option list gmap strings fin_maps.

Open Scope Z_scope.

(** ** Bytes and fixed-width arrays *)

Abbreviation byte := Byte.byte.

#[global] Instance byte_eq_decision : EqDecision byte := Byte.byte_eq_dec.

#[global] Program Instance byte_countable : Countable byte :=
  inj_countable Byte.to_N Byte.of_N _.
Next Obligation. intros x. apply Byte.of_to_N. Qed.

(** [bytes.Equal(a, b)] *)
Definition bytes_Equal (a b : list byte) : bool := bool_decide (a = b).

(** [var dst [n]byte; copy(dst[:], src)]: the first [n] bytes of [src],
    padded with zero bytes when [src] is shorter. *)
Definition copy_into (n : nat) (src : list byte) : list byte :=
  take n (src ++ replicate n Byte.x00).

Definition digestLength : nat := 32.
Definition addressLength : nat := 32.

(** [pot.Address] *)
Definition to_potaddr (b : list byte) : list byte := copy_into addressLength b.
Definition zeroAddress : list byte := replicate addressLength Byte.x00.
(** [pssDigest{}] *)
Definition zeroDigest : list byte := replicate digestLength Byte.x00.

(** ** Time *)

Definition Time := Z.
Definition zeroTime : Time := 0.
Definition IsZero (t : Time) : bool := bool_decide (t = 0).
(** [t.After(u)] *)
Definition After (t u : Time) : bool := bool_decide (u < t).
(** [t.Before(u)] *)
Definition Before (t u : Time) : bool := bool_decide (t < u).
(** [time.Hour * 24 * 365] in nanoseconds *)
Definition symkeyValidity : Z := 3600 * 1000000000 * 24 * 365.

(** ** Errors *)

Inductive Error : Type :=
  | ErrExternal (what : string)          (* an error value made by a collaborator *)
  | ErrInvalidMessage                    (* "invalid message" *)
  | ErrInvalidSignature                  (* "invalid signature" *)
  | ErrInvalidHandshakeMsg               (* "invalid handshake msg" *)
  | ErrInvalidSymkey (from topic : list byte)
      (* "received invalid symkey in pss handshake for peer %x topic %x" *)
  | ErrGenerateSymkey (from topic : list byte) (cause : Error)
      (* "could not generate outgoing symkey for peer %x topic %x: %v" *)
  | ErrRetrieveSymkey (from topic : list byte) (cause : Error)
      (* "could not retreieve generated outgoing symkey for peer %x topic %x: %v" *)
  | ErrSetRecvkey (from topic : list byte)
      (* "could not set recvkey for peer %x topic %x" *)
  | ErrNoHandler (topic : list byte)     (* "No registered handler for topic '%x'" *)
  | ErrMissingHandshake                  (* "missing complete handshake" *)
  | ErrMissingSymkey (id : string) (cause : Error)
      (* "missing valid symkey %s: %v" *)
  | ErrWhisper (cause : Error)           (* "%v: %s", errorWhisper, err *)
  | ErrUnableToForward.                  (* "unable to forward to any peers" *)

(** A Go result pair [(value, err)]. *)
Inductive result (A : Type) : Type :=
  | Okay (a : A)
  | Fail (e : Error).
Arguments Okay {A} a.
Arguments Fail {A} e.

(** ** Wire and codec records *)

(** [pssKeyMsg] *)
Record pssKeyMsg : Type := mkKeyMsg {
  From_ : list byte;
  Key : list byte
}.

(** [interface{}]: the dynamic types that [Process] meets. *)
Inductive Interface : Type :=
  | I_bytes (b : list byte)              (* a [[]byte] *)
  | I_pssKeyMsg (keymsg : pssKeyMsg).    (* a pointer to [pssKeyMsg] *)

(** The type assertion of an [interface{}] to a pointer to [pssKeyMsg]. *)
Definition assert_pssKeyMsg (v : Interface) : option pssKeyMsg :=
  match v with
  | I_pssKeyMsg keymsg => Some keymsg
  | I_bytes _ => None
  end.

(** [whisper.MessageParams], with the fields the package fills in. *)
Record MessageParams (F : Type) : Type := mkParams {
  TTL : Z;
  Src : option (list byte);
  Dst : option (list byte);
  KeySym : list byte;
  Topic : list byte;
  WorkTime : Z;
  PoW : F;
  Payload : list byte
}.
Arguments mkParams {F}.
Arguments TTL {F}. Arguments Src {F}. Arguments Dst {F}.
Arguments KeySym {F}. Arguments Topic {F}. Arguments WorkTime {F}.
Arguments PoW {F}. Arguments Payload {F}.

(** ** The collaborators

    The envelope codec ([whisper]), the key types and the package
    constants that are declared outside this file are taken as an
    interface. *)
Class Codec : Type := {
  Whisper : Type;                 (* the state behind [*whisper.Whisper] *)
  Envelope : Type;                (* [*whisper.Envelope] *)
  ReceivedMessage : Type;         (* [*whisper.ReceivedMessage] *)
  SentMessage : Type;             (* the value of [whisper.NewSentMessage] *)
  Float64 : Type;
  ProtoPeer : Type;               (* [*protocols.Peer] *)
  Handler : Type;                 (* a [Handler] function value *)
  MsgReadWriter : Type;           (* a non-nil [p2p.MsgReadWriter] *)
  whisper_New : Whisper;
  AddSymKeyDirect : list byte → Whisper → result string * Whisper;
  GenerateSymKey : Whisper → result string * Whisper;
  GetSymKey : string → Whisper → result (list byte);
  env_Topic : Envelope → list byte;
  OpenSymmetric : Envelope → list byte → result ReceivedMessage;
  OpenAsymmetric : Envelope → list byte → result ReceivedMessage;
  Validate : ReceivedMessage → bool;
  recv_Payload : ReceivedMessage → list byte;
  NewSentMessage : MessageParams Float64 → result SentMessage;
  Wrap : SentMessage → MessageParams Float64 → result Envelope;
  DefaultTTL : Z;
  defaultWhisperWorkTime : Z;
  defaultWhisperPoW : Float64
}.

(** ** Data model *)

Section DataModel.
Context `{Codec}.

(** [pssPeer] *)
Record pssPeer : Type := mkPeer {
  rw : option MsgReadWriter;
  pubkey : list byte;
  recvsymkey : string;
  sendsymkey : string;
  symkeyexpires : Time
}.

(** [&pssPeer{}] *)
Definition emptyPeer : pssPeer := mkPeer None [] "" "" zeroTime.

(** [pssCacheEntry] *)
Record pssCacheEntry : Type := mkEntry {
  expiresAt : Time;
  receivedFrom : list byte
}.

(** [pssCacheEntry{}] *)
Definition emptyEntry : pssCacheEntry := mkEntry zeroTime [].

(** [PssMsg] *)
Record PssMsg : Type := mkMsg {
  To : list byte;
  Payload_ : Envelope
}.

(** A [network.OverlayConn] as the forwarder sees it: its overlay
    address, and its node id when the dynamic type is a [senderPeer]. *)
Record OverlayConn : Type := mkConn {
  Address : list byte;
  ID : option (list byte)
}.

(** [network.Overlay]: the base address, and for [EachConn(base, o, f)]
    the connected peers in the order in which the iterator hands them
    to [f], each with its proximity order and its proximity-bin flag. *)
Record Overlay : Type := mkOverlay {
  ov_BaseAddr : list byte;
  ov_conns : list byte → Z → list (OverlayConn * Z * bool)
}.

(** [Pss].  [dpa] is [dpa.Store] applied to the serialized message: the
    storage key or an error. *)
Record Pss : Type := mkPss {
  overlay : Overlay;
  peerPool : gmap (list byte) (gmap (list byte) pssPeer);
  fwdPool : gmap (list byte) ProtoPeer;
  reverseKeyPool : gmap string (gmap (list byte) (list byte));
  handlers : gmap (list byte) (gmap positive Handler);
  fwdcache : gmap (list byte) pssCacheEntry;
  cachettl : Z;
  dpa : PssMsg → result (list byte);
  privatekey : list byte;
  recvsymkeys : list string;
  w : Whisper
}.

(** One attempt to hand a message to a directly connected peer. *)
Record SendEvent : Type := mkSend {
  ev_conn : OverlayConn;
  ev_msg : PssMsg;
  ev_ok : bool
}.

(** The node and what surrounds it: the wall clock read by
    [time.Now()], the log of the transport sends in the order they
    were attempted, and the next free handler pointer. *)
Record World : Type := mkWorld {
  pss : Pss;
  clock : Time;
  wire : list SendEvent;
  next_ptr : positive
}.

Definition set_peerPool (f : gmap (list byte) (gmap (list byte) pssPeer)) (p : Pss) : Pss :=
  mkPss (overlay p) f (fwdPool p) (reverseKeyPool p) (handlers p) (fwdcache p)
        (cachettl p) (dpa p) (privatekey p) (recvsymkeys p) (w p).
Definition set_fwdPool (f : gmap (list byte) ProtoPeer) (p : Pss) : Pss :=
  mkPss (overlay p) (peerPool p) f (reverseKeyPool p) (handlers p) (fwdcache p)
        (cachettl p) (dpa p) (privatekey p) (recvsymkeys p) (w p).
Definition set_reverseKeyPool (f : gmap string (gmap (list byte) (list byte))) (p : Pss) : Pss :=
  mkPss (overlay p) (peerPool p) (fwdPool p) f (handlers p) (fwdcache p)
        (cachettl p) (dpa p) (privatekey p) (recvsymkeys p) (w p).
Definition set_handlers (f : gmap (list byte) (gmap positive Handler)) (p : Pss) : Pss :=
  mkPss (overlay p) (peerPool p) (fwdPool p) (reverseKeyPool p) f (fwdcache p)
        (cachettl p) (dpa p) (privatekey p) (recvsymkeys p) (w p).
Definition set_fwdcache (f : gmap (list byte) pssCacheEntry) (p : Pss) : Pss :=
  mkPss (overlay p) (peerPool p) (fwdPool p) (reverseKeyPool p) (handlers p) f
        (cachettl p) (dpa p) (privatekey p) (recvsymkeys p) (w p).
Definition set_recvsymkeys (f : list string) (p : Pss) : Pss :=
  mkPss (overlay p) (peerPool p) (fwdPool p) (reverseKeyPool p) (handlers p) (fwdcache p)
        (cachettl p) (dpa p) (privatekey p) f (w p).
Definition set_w (f : Whisper) (p : Pss) : Pss :=
  mkPss (overlay p) (peerPool p) (fwdPool p) (reverseKeyPool p) (handlers p) (fwdcache p)
        (cachettl p) (dpa p) (privatekey p) (recvsymkeys p) f.

Definition with_pss (f : Pss → Pss) (σ : World) : World :=
  mkWorld (f (pss σ)) (clock σ) (wire σ) (next_ptr σ).
Definition log_send (e : SendEvent) (σ : World) : World :=
  mkWorld (pss σ) (clock σ) (wire σ ++ [e]) (next_ptr σ).
Definition bump_ptr (σ : World) : World :=
  mkWorld (pss σ) (clock σ) (wire σ) (Pos.succ (next_ptr σ)).
(** The environment lets [d] ticks pass between two calls. *)
Definition advance (d : Z) (σ : World) : World :=
  mkWorld (pss σ) (clock σ + d) (wire σ) (next_ptr σ).

(** *** Outcomes *)

Inductive outcome (A : Type) : Type :=
  | Done (a : A) (σ : World)     (* the call returns *)
  | Panic                        (* run-time panic (nil dereference) *)
  | Exhausted.                   (* the call nesting exceeds the fuel *)
#[global] Arguments Done {A} a σ.
#[global] Arguments Panic {A}.
#[global] Arguments Exhausted {A}.

Definition M (A : Type) : Type := World → outcome A.

Definition ret {A} (a : A) : M A := λ σ, Done a σ.
Definition bind {A B} (m : M A) (k : A → M B) : M B :=
  λ σ, match m σ with
       | Done a σ' => k a σ'
       | Panic => Panic
       | Exhausted => Exhausted
       end.
Definition panic {A} : M A := λ _, Panic.
Definition gets {A} (f : Pss → A) : M A := λ σ, Done (f (pss σ)) σ.
Definition modify (f : Pss → Pss) : M unit := λ σ, Done tt (with_pss f σ).
(** [time.Now()] *)
Definition time_Now : M Time := λ σ, Done (clock σ) σ.
(** Reading through a pointer: [nil] panics. *)
Definition deref {A} (p : option A) : M A :=
  match p with Some a => ret a | None => panic end.

(** The value a call returned, and the world it left (the world it
    started in when it did not return). *)
Definition returned {A} (o : outcome A) : option A :=
  match o with Done a _ => Some a | _ => None end.
Definition after {A} (m : M A) (σ : World) : World :=
  match m σ with Done _ σ' => σ' | _ => σ end.
End DataModel.

Notation "x <- m ;; k" := (bind m (λ x, k))
  (at level 100, m at next level, right associativity,
   format "x  <-  m  ;;  '/' k").
Notation "m ;;; k" := (bind m (λ _, k))
  (at level 100, right associativity, format "m  ;;;  '/' k").

(** The result of [pp.Send(msg)] on the transport. *)
Inductive SendOutcome : Type :=
  | SendOk
  | SendFailed (e : Error)
  | SendPanic.

(** The host of the node: the transport behind the forwarding pool, the
    registered handler functions (which may call back into the node) and
    the type test of [removePeerTopic]. *)
Class Host `{Codec} : Type := {
  (* [pp.Send(msg)] for [pp := self.fwdPool[id]]; [None] is a nil [pp] *)
  peer_Send : option ProtoPeer → PssMsg → SendOutcome;
  (* [( *f)(payload, p, from)], [p] being made from [from] alone *)
  call_Handler : Handler → list byte → list byte → M (option Error);
  (* [rw.( *PssReadWriter)]: the [To] field when the assertion holds *)
  as_PssReadWriter : MsgReadWriter → option (list byte)
}.

(** ** The methods of [Pss] *)

Section Methods.
Context `{Host}.

(** [self.peerPool[id][topic]]: a lookup in a nil inner map gives nil. *)
Definition peerAt (id topic : list byte) (p : Pss) : option pssPeer :=
  peerPool p !! id ≫= λ m, m !! topic.

(** Writing a field through the pointer [self.peerPool[id][topic]]. *)
Definition storePeer (id topic : list byte) (psp : pssPeer) (p : Pss) : Pss :=
  set_peerPool (<[id := <[topic := psp]> (default ∅ (peerPool p !! id))]> (peerPool p)) p.

Definition w_AddSymKeyDirect (key : list byte) : M (result string) :=
  λ σ, let '(r, w') := AddSymKeyDirect key (w (pss σ)) in
       Done r (with_pss (set_w w') σ).
Definition w_GenerateSymKey : M (result string) :=
  λ σ, let '(r, w') := GenerateSymKey (w (pss σ)) in
       Done r (with_pss (set_w w') σ).
Definition w_GetSymKey (id : string) : M (result (list byte)) :=
  gets (λ p, GetSymKey id (w p)).

(** [storeMsg]: the digest is the first [digestLength] bytes of the
    storage key; reslicing a shorter key panics. *)
Definition storeMsg (msg : PssMsg) : M (list byte * option Error) :=
  store <- gets dpa ;;
  match store msg with
  | Fail e => ret (zeroDigest, Some e)
  | Okay key =>
      if decide (digestLength ≤ length key)%nat
      then ret (copy_into digestLength (take digestLength key), None)
      else panic
  end.

(** [NewPss] *)
Definition NewPss (k : Overlay) (store : PssMsg → result (list byte))
    (Cachettl : Z) (priv : list byte) : Pss :=
  mkPss k ∅ ∅ ∅ ∅ ∅ Cachettl store priv [] whisper_New.

Definition BaseAddr : M (list byte) := gets (λ p, ov_BaseAddr (overlay p)).

(** [Run], up to the protocol loop: the peer joins the forwarding pool. *)
Definition Run (id : list byte) (pp : ProtoPeer) : M unit :=
  modify (λ p, set_fwdPool (<[id := pp]> (fwdPool p)) p).

(** [Register]: the result is the pointer that the returned
    deregister function holds. *)
Definition Register (topic : list byte) (handler : Handler) : M positive :=
  λ σ, let ptr := next_ptr σ in
       let hs := default ∅ (handlers (pss σ) !! topic) in
       Done ptr (bump_ptr (with_pss
         (λ p, set_handlers (<[topic := <[ptr := handler]> hs]> (handlers p)) p) σ)).

Definition preparePeerTopic (id topic : list byte) : M bool :=
  pool <- gets peerPool ;;
  let inner := default ∅ (pool !! id) in
  match inner !! topic with
  | Some _ => ret false
  | None =>
      modify (set_peerPool (<[id := <[topic := emptyPeer]> inner]> pool)) ;;; ret true
  end.

Definition AddPublicKey (addr topic pk : list byte) : M unit :=
  preparePeerTopic addr topic ;;;
  psp <- (o <- gets (peerAt addr topic) ;; deref o) ;;
  modify (storePeer addr topic
    (mkPeer (rw psp) pk (recvsymkey psp) (sendsymkey psp) (symkeyexpires psp))).

Definition SetIncomingSymmetricKey (addr topic key : list byte) : M (option Error) :=
  r <- w_AddSymKeyDirect key ;;
  match r with
  | Fail e => ret (Some e)
  | Okay keyid =>
      preparePeerTopic addr topic ;;;
      modify (λ p, set_recvsymkeys (recvsymkeys p ++ [keyid]) p) ;;;
      psp <- (o <- gets (peerAt addr topic) ;; deref o) ;;
      now <- time_Now ;;
      modify (storePeer addr topic
        (mkPeer (rw psp) (pubkey psp) keyid (sendsymkey psp) (now + symkeyValidity))) ;;;
      modify (λ p, set_reverseKeyPool
        (<[keyid := <[topic := addr]> (default ∅ (reverseKeyPool p !! keyid))]>
           (reverseKeyPool p)) p) ;;;
      ret None
  end.

Definition SetOutgoingSymmetricKey (addr topic key : list byte) : M (option Error) :=
  r <- w_AddSymKeyDirect key ;;
  match r with
  | Fail e => ret (Some e)
  | Okay keyid =>
      preparePeerTopic addr topic ;;;
      psp <- (o <- gets (peerAt addr topic) ;; deref o) ;;
      now <- time_Now ;;
      modify (storePeer addr topic
        (mkPeer (rw psp) (pubkey psp) (recvsymkey psp) keyid (now + symkeyValidity))) ;;;
      ret None
  end.

Definition deregister (topic : list byte) (h : positive) : M unit :=
  hmap <- gets handlers ;;
  match hmap !! topic with
  | None => ret tt
  | Some hs =>
      if decide (size hs = 1%nat)
      then modify (set_handlers (delete topic hmap))
      else modify (set_handlers (<[topic := delete h hs]> hmap))
  end.

Definition addFwdCacheSender (addr digest : list byte) : M (option Error) :=
  cache <- gets fwdcache ;;
  let entry := default emptyEntry (cache !! digest) in
  modify (set_fwdcache (<[digest := mkEntry (expiresAt entry) addr]> cache)) ;;;
  ret None.

Definition AddToCache (addr : list byte) (msg : PssMsg) : M (option Error) :=
  r <- storeMsg msg ;;
  match r.2 with
  | Some e => ret (Some e)
  | None => addFwdCacheSender addr r.1
  end.

Definition addFwdCacheExpire (digest : list byte) : M (option Error) :=
  cache <- gets fwdcache ;;
  let entry := default emptyEntry (cache !! digest) in
  now <- time_Now ;;
  ttl <- gets cachettl ;;
  modify (set_fwdcache (<[digest := mkEntry (now + ttl) (receivedFrom entry)]> cache)) ;;;
  ret None.

Definition checkFwdCache (addr digest : list byte) : M bool :=
  cache <- gets fwdcache ;;
  match cache !! digest with
  | Some entry =>
      now <- time_Now ;;
      if After (expiresAt entry) now then ret true
      else if IsZero (expiresAt entry) && bytes_Equal addr (receivedFrom entry)
      then ret true
      else ret false
  | None => ret false
  end.

Definition getHandlers (topic : list byte) : M (gmap positive Handler) :=
  gets (λ p, default ∅ (handlers p !! topic)).

Definition isSelfRecipient (msg : PssMsg) : M bool :=
  base <- BaseAddr ;; ret (bytes_Equal (To msg) base).

Definition isActive (id topic : list byte) : M bool :=
  pool <- gets peerPool ;;
  match pool !! id with
  | None => ret false
  | Some m => psp <- deref (m !! topic) ;; ret (bool_decide (rw psp ≠ None))
  end.

Definition isSecured (id topic : list byte) : M bool :=
  pool <- gets peerPool ;;
  match pool !! id with
  | None => ret false
  | Some m =>
      psp <- deref (m !! topic) ;;
      now <- time_Now ;;
      if Before (symkeyexpires psp) now then ret false
      else if bool_decide (recvsymkey psp = "") || bool_decide (sendsymkey psp = "")
      then ret false
      else ret true
  end.
End Methods.

(** ** Dispatcher and forwarder

    [Forward] calls [Process] for a message to the node itself, and
    [Process] answers a handshake through [SendSym], [send] and
    [Forward].  The methods below take the forwarder they call as the
    argument [fwd]; [Forward] closes the knot on a bound of the call
    nesting. *)

Section Dispatch.
Context `{Host}.

(** The loop of [Process] over [self.recvsymkeys]: the first key that
    opens the envelope gives the message and, from the reverse index,
    the sender (the zero address when the index has no entry). *)
Fixpoint trySymKeys (wsp : Whisper)
    (rev : gmap string (gmap (list byte) (list byte)))
    (env : Envelope) (ids : list string) : option (ReceivedMessage * list byte) :=
  match ids with
  | [] => None
  | symkeyid :: rest =>
      match GetSymKey symkeyid wsp with
      | Okay symkey =>
          match OpenSymmetric env symkey with
          | Okay recvmsg =>
              Some (recvmsg,
                    default zeroAddress (rev !! symkeyid ≫= λ m, m !! env_Topic env))
          | Fail _ => trySymKeys wsp rev env rest
          end
      | Fail _ => trySymKeys wsp rev env rest
      end
  end.

(** [for f := range handlers]: the handlers that the map holds when
    the loop starts, run in the order of the list, up to the first
    error.  [Process] takes the list from [map_to_list].  Go leaves the
    order of a range over a map open and hands out no entry that is
    deleted before it is reached, so the properties of this loop are
    stated for every list of handlers or for a topic with one handler
    that leaves the handlers alone. *)
Fixpoint runHandlers (hs : list (positive * Handler)) (payload from : list byte)
    : M (option Error) :=
  match hs with
  | [] => ret None
  | (_, f) :: rest =>
      err <- call_Handler f payload from ;;
      match err with
      | Some e => ret (Some e)
      | None => runHandlers rest payload from
      end
  end.

Section WithForwarder.
Variable fwd : PssMsg → M (option Error).

Definition send (to topic msg : list byte) (wparams : MessageParams Float64)
    : M (option Error) :=
  match NewSentMessage wparams with
  | Fail e => ret (Some (ErrWhisper e))
  | Okay woutmsg =>
      match Wrap woutmsg wparams with
      | Fail e => ret (Some (ErrWhisper e))
      | Okay env => fwd (mkMsg to env)
      end
  end.

Definition SendSym (to topic msg : list byte) : M (option Error) :=
  let potaddr := to_potaddr to in
  secured <- isSecured potaddr topic ;;
  if negb secured then ret (Some ErrMissingHandshake)
  else
    psp <- (o <- gets (peerAt potaddr topic) ;; deref o) ;;
    r <- w_GetSymKey (sendsymkey psp) ;;
    match r with
    | Fail e => ret (Some (ErrMissingSymkey (sendsymkey psp) e))
    | Okay symkey =>
        send to topic msg
          (mkParams DefaultTTL None None symkey topic
                    defaultWhisperWorkTime defaultWhisperPoW msg)
    end.

Definition SendAsym (to topic msg : list byte) : M (option Error) :=
  let potaddr := to_potaddr to in
  psp <- (o <- gets (peerAt potaddr topic) ;; deref o) ;;
  priv <- gets privatekey ;;
  send to topic msg
    (mkParams DefaultTTL (Some priv) (Some (pubkey psp)) [] topic
              defaultWhisperWorkTime defaultWhisperPoW msg).

(** The handshake part of [Process], from [copy(from[:], keymsg.From)] on. *)
Definition handshake (env : Envelope) (keymsg : pssKeyMsg) : M (option Error) :=
  let from := to_potaddr (From_ keymsg) in
  let topic := env_Topic env in
  err <- SetOutgoingSymmetricKey from topic (Key keymsg) ;;
  match err with
  | Some _ => ret (Some (ErrInvalidSymkey (From_ keymsg) topic))
  | None =>
      secured <- isSecured from topic ;;
      if secured then ret None
      else
        r <- w_GenerateSymKey ;;
        match r with
        | Fail e => ret (Some (ErrGenerateSymkey (From_ keymsg) topic e))
        | Okay recvkeyid =>
            r' <- w_GetSymKey recvkeyid ;;
            match r' with
            | Fail e => ret (Some (ErrRetrieveSymkey (From_ keymsg) topic e))
            | Okay recvkey =>
                err' <- SetIncomingSymmetricKey from topic recvkey ;;
                match err' with
                | Some _ => ret (Some (ErrSetRecvkey (From_ keymsg) topic))
                | None =>
                    SendSym (From_ keymsg) topic recvkey ;;;
                    ret None
                end
            end
        end
  end.

(** [keymsgraw = recvmsg.Payload] and then the type assertion of
    [keymsgraw] to a pointer to [pssKeyMsg]: the payload of a received
    message is a [[]byte] (the other branch of [Process] hands it to
    the handlers as such), and that is the dynamic type the assertion
    finds. *)
Definition as_pssKeyMsg (recvmsg : ReceivedMessage) : option pssKeyMsg :=
  assert_pssKeyMsg (I_bytes (recv_Payload recvmsg)).

(** The asymmetric branch of [Process]. *)
Definition processAsym (env : Envelope) : M (option Error) :=
  priv <- gets privatekey ;;
  match OpenAsymmetric env priv with
  | Fail _ => ret None
  | Okay recvmsg =>
      if negb (Validate recvmsg) then ret (Some ErrInvalidSignature)
      else
        match as_pssKeyMsg recvmsg with
        | None => ret (Some ErrInvalidHandshakeMsg)
        | Some keymsg => handshake env keymsg
        end
  end.

Definition Process (pssmsg : PssMsg) : M (option Error) :=
  let env := Payload_ pssmsg in
  p <- gets id ;;
  match trySymKeys (w p) (reverseKeyPool p) env (recvsymkeys p) with
  | None => processAsym env
  | Some (recvmsg, from) =>
      secured <- isSecured from (env_Topic env) ;;
      if negb secured then ret None
      else
        hs <- getHandlers (env_Topic env) ;;
        if decide (size hs = 0%nat) then ret (Some (ErrNoHandler (env_Topic env)))
        else runHandlers (map_to_list hs) (recv_Payload recvmsg) from
  end.
End WithForwarder.

(** The function handed to [EachConn] by [Forward], with the captured
    counter [sent] passed through. *)
Definition fwdVisit (msg : PssMsg) (digest : list byte)
    (op : OverlayConn) (po : Z) (isproxbin : bool) (sent : Z) : M (bool * Z) :=
  match ID op with
  | None => ret (false, sent)
  | Some nid =>
      pp <- gets (λ p, fwdPool p !! nid) ;;
      skip <- checkFwdCache (Address op) digest ;;
      if skip then ret (true, sent)
      else
        match peer_Send pp msg with
        | SendPanic => panic
        | SendFailed _ => (λ σ, Done (true, sent) (log_send (mkSend op msg false) σ))
        | SendOk =>
            (λ σ, Done tt (log_send (mkSend op msg true) σ)) ;;;
            if bytes_Equal (To msg) (Address op) || negb isproxbin
            then ret (false, sent + 1)
            else ret (true, sent + 1)
        end
  end.

(** [EachConn]: the function is called on the peers in order until it
    returns [false]. *)
Fixpoint EachConn (conns : list (OverlayConn * Z * bool))
    (f : OverlayConn → Z → bool → Z → M (bool * Z)) (sent : Z) : M Z :=
  match conns with
  | [] => ret sent
  | (op, po, isproxbin) :: rest =>
      r <- f op po isproxbin sent ;;
      if r.1 then EachConn rest f r.2 else ret r.2
  end.

(** [Forward] for a message to another node. *)
Definition forwardRelay (msg : PssMsg) : M (option Error) :=
  d <- storeMsg msg ;;
  let digest := d.1 in
  guard <- checkFwdCache [] digest ;;
  if guard then ret None
  else
    conns <- gets (λ p, ov_conns (overlay p) (To msg) 256) ;;
    sent <- EachConn conns (fwdVisit msg digest) 0 ;;
    if decide (sent = 0) then ret (Some ErrUnableToForward)
    else addFwdCacheExpire digest ;;; ret None.

Fixpoint Forward (fuel : nat) (msg : PssMsg) : M (option Error) :=
  match fuel with
  | O => λ _, Exhausted
  | S fuel' =>
      self <- isSelfRecipient msg ;;
      if self then Process (Forward fuel') msg
      else forwardRelay msg
  end.

(** [handlePssMsg]; the argument is [None] when the dynamic type of
    the message is not a pointer to [PssMsg]. *)
Definition handlePssMsg (fuel : nat) (msg : option PssMsg) : M (option Error) :=
  match msg with
  | Some pssmsg =>
      self <- isSelfRecipient pssmsg ;;
      if negb self then Forward fuel pssmsg
      else Process (Forward fuel) pssmsg
  | None => ret (Some ErrInvalidMessage)
  end.

(** [AddPeer] is not among the methods here: it takes the mutex and
    then calls [preparePeerTopic], which takes it again (see [Locking]). *)

Definition removePeerTopic (rw' : MsgReadWriter) (topic : list byte) : M unit :=
  match as_PssReadWriter rw' with
  | None => ret tt
  | Some to =>
      pool <- gets peerPool ;;
      match pool !! to with
      | None => ret tt
      | Some m =>
          let m' := delete topic m in
          if decide (size m' = 0%nat)
          then modify (set_peerPool (delete to pool))
          else modify (set_peerPool (<[to := m']> pool))
      end
  end.
End Dispatch.

(** ** The forward cache as the specification words it

    The specification keeps the last sender and the expiry of an entry
    as optional values and states [should_skip] on them. *)

Record SpecEntry : Type := mkSpecEntry {
  last_sender : option (list byte);
  expires_at : option Time
}.

(** Rule (a): the expiry is set and in the future.  Rule (b): the expiry
    is unset and the candidate is the last sender; it does not apply to
    a null candidate. *)
Definition should_skip (candidate : option (list byte)) (entry : option SpecEntry)
    (now : Time) : bool :=
  match entry with
  | None => false
  | Some e =>
      match expires_at e with
      | Some t => bool_decide (now < t)
      | None =>
          match candidate, last_sender e with
          | Some c, Some s => bool_decide (c = s)
          | _, _ => false
          end
      end
  end.

(** A Go slice read as an optional address: [nil] is null. *)
Definition opt_addr (b : list byte) : option (list byte) :=
  match b with [] => None | _ => Some b end.

Definition opt_time (t : Time) : option Time :=
  if IsZero t then None else Some t.

Section Properties.
Context `{Host}.

(** The cache entry of the code as an entry of the specification. *)
Definition spec_entry (e : pssCacheEntry) : SpecEntry :=
  mkSpecEntry (opt_addr (receivedFrom e)) (opt_time (expiresAt e)).

(** [checkFwdCache] answers as [should_skip] of the specification. *)
Definition skipAsSpecified (c d : list byte) (σ : World) : Prop :=
  checkFwdCache c d σ =
  Done (should_skip (opt_addr c) (spec_entry <$> fwdcache (pss σ) !! d) (clock σ)) σ.

(** *** The key registry *)

(** [self.reverseKeyPool[K][topic]] when the entry is there. *)
Definition reverseAt (K : string) (topic : list byte) (p : Pss) : option (list byte) :=
  reverseKeyPool p !! K ≫= λ m, m !! topic.

(** What [SetOutgoingSymmetricKey] does to the node once the codec has
    given the id [keyid]: the record of the pair, made if need be,
    gets the id as outbound key and a new expiry. *)
Definition installOutbound (addr topic : list byte) (keyid : string) (now : Time)
    (p : Pss) : Pss :=
  let psp := default emptyPeer (peerAt addr topic p) in
  storePeer addr topic
    (mkPeer (rw psp) (pubkey psp) (recvsymkey psp) keyid (now + symkeyValidity)) p.

(** The same for [SetIncomingSymmetricKey]: the id joins the
    inbound-try list, the record gets it as inbound key with a new
    expiry, and the reverse index gets the entry of the id and topic. *)
Definition installInbound (addr topic : list byte) (keyid : string) (now : Time)
    (p : Pss) : Pss :=
  let psp := default emptyPeer (peerAt addr topic p) in
  set_reverseKeyPool
    (<[keyid := <[topic := addr]> (default ∅ (reverseKeyPool p !! keyid))]>
       (reverseKeyPool p))
    (storePeer addr topic
       (mkPeer (rw psp) (pubkey psp) keyid (sendsymkey psp) (now + symkeyValidity))
       (set_recvsymkeys (recvsymkeys p ++ [keyid]) p)).


(** The codec knows the key id. *)
Definition known (K : string) (wsp : Whisper) : Prop :=
  ∃ key, GetSymKey K wsp = Okay key.

(** What the registry relies on from the codec: a registered key gets
    an id that was not in use and under which the key is found, and
    ids in use stay in use. *)
Record LawfulCodec : Prop := {
  add_fresh : ∀ key wsp K wsp',
    AddSymKeyDirect key wsp = (Okay K, wsp') → ¬ known K wsp ∧ GetSymKey K wsp' = Okay key;
  add_mono : ∀ key wsp r wsp' K k,
    AddSymKeyDirect key wsp = (r, wsp') → GetSymKey K wsp = Okay k → GetSymKey K wsp' = Okay k;
  gen_mono : ∀ wsp r wsp' K k,
    GenerateSymKey wsp = (r, wsp') → GetSymKey K wsp = Okay k → GetSymKey K wsp' = Okay k
}.

(** Every installed inbound symkey id has its reverse-index entry, and
    the entry names the address that holds the key. *)
Definition inboundIndexed (p : Pss) : Prop :=
  ∀ addr topic psp,
    peerAt addr topic p = Some psp → recvsymkey psp ≠ "" →
    reverseAt (recvsymkey psp) topic p = Some addr.

(** Every id of the inbound-try list has a reverse-index entry. *)
Definition tryListIndexed (p : Pss) : Prop :=
  ∀ K, K ∈ recvsymkeys p → ∃ topic addr, reverseAt K topic p = Some addr.

(** The ids of the reverse index are ids of the codec. *)
Definition indexKnown (p : Pss) : Prop :=
  ∀ K topic addr, reverseAt K topic p = Some addr → known K (w p).

Definition registryInv (p : Pss) : Prop :=
  inboundIndexed p ∧ tryListIndexed p ∧ indexKnown p.

(** Handlers reach the node through its methods only: they keep the
    invariant of the registry. *)
Definition handlersKeep (I : Pss → Prop) : Prop :=
  ∀ h payload from σ r σ',
    call_Handler h payload from σ = Done r σ' → I (pss σ) → I (pss σ').

(** A call of which every return relates the node before to the node
    after. *)
Definition preserves {A} (R : Pss → Pss → Prop) (m : M A) : Prop :=
  ∀ σ a σ', m σ = Done a σ' → R (pss σ) (pss σ').

(** The relations used with [preserves]: the call keeps the invariant
    of the registry; the call leaves the reverse index and the
    inbound-try list as they are. *)
Definition keepsInv : Pss → Pss → Prop := λ p p', registryInv p → registryInv p'.
Definition sameIndex : Pss → Pss → Prop :=
  λ p p', reverseKeyPool p' = reverseKeyPool p ∧ recvsymkeys p' = recvsymkeys p.

(** The inbound-try list is extended at its end and the entries of the
    reverse index stay (with the address they had or another one). *)
Definition indexGrows : Pss → Pss → Prop :=
  λ p p', recvsymkeys p `prefix_of` recvsymkeys p' ∧
          ∀ K topic, is_Some (reverseAt K topic p) → is_Some (reverseAt K topic p').

(** The key of the id [K] opens the envelope. *)
Definition opensWith (K : string) (env : Envelope) (wsp : Whisper)
    (recvmsg : ReceivedMessage) : Prop :=
  ∃ key, GetSymKey K wsp = Okay key ∧ OpenSymmetric env key = Okay recvmsg.

(** *** The operations of the node

    The methods that can change the node and return; [AddPeer], which
    blocks on the mutex, is not among them. *)

Inductive Call : Type :=
  | CRun (id : list byte) (pp : ProtoPeer)
  | CRegister (topic : list byte) (h : Handler)
  | CDeregister (topic : list byte) (ptr : positive)
  | CAddPublicKey (addr topic pk : list byte)
  | CSetIncomingSymmetricKey (addr topic key : list byte)
  | CSetOutgoingSymmetricKey (addr topic key : list byte)
  | CAddToCache (addr : list byte) (msg : PssMsg)
  | CAddFwdCacheSender (addr digest : list byte)
  | CAddFwdCacheExpire (digest : list byte)
  | CHandlePssMsg (msg : option PssMsg)
  | CProcess (msg : PssMsg)
  | CSendSym (to topic msg : list byte)
  | CSendAsym (to topic msg : list byte)
  | CForward (msg : PssMsg)
  | CRemovePeerTopic (rw' : MsgReadWriter) (topic : list byte).

Definition forget {A} (m : M A) : M unit := m ;;; ret tt.

Definition exec (fuel : nat) (c : Call) : M unit :=
  match c with
  | CRun id pp => Run id pp
  | CRegister topic h => forget (Register topic h)
  | CDeregister topic ptr => deregister topic ptr
  | CAddPublicKey addr topic pk => AddPublicKey addr topic pk
  | CSetIncomingSymmetricKey addr topic key => forget (SetIncomingSymmetricKey addr topic key)
  | CSetOutgoingSymmetricKey addr topic key => forget (SetOutgoingSymmetricKey addr topic key)
  | CAddToCache addr msg => forget (AddToCache addr msg)
  | CAddFwdCacheSender addr digest => forget (addFwdCacheSender addr digest)
  | CAddFwdCacheExpire digest => forget (addFwdCacheExpire digest)
  | CHandlePssMsg msg => forget (handlePssMsg fuel msg)
  | CProcess msg => forget (Process (Forward fuel) msg)
  | CSendSym to topic msg => forget (SendSym (Forward fuel) to topic msg)
  | CSendAsym to topic msg => forget (SendAsym (Forward fuel) to topic msg)
  | CForward msg => forget (Forward fuel msg)
  | CRemovePeerTopic rw' topic => removePeerTopic rw' topic
  end.


(** The answer of [checkFwdCache] on a node and a clock. *)
Definition cacheSkips (c d : list byte) (p : Pss) (now : Time) : bool :=
  match fwdcache p !! d with
  | Some e => After (expiresAt e) now
              || (IsZero (expiresAt e) && bytes_Equal c (receivedFrom e))
  | None => false
  end.

(** The sends that the peer accepted. *)
Definition okSends (evs : list SendEvent) : list SendEvent :=
  filter (λ ev, ev_ok ev = true) evs.

(** The sends of [σ'] that were not yet in [σ]. *)
Definition newSends (σ σ' : World) : list SendEvent :=
  drop (length (wire σ)) (wire σ').

(** The message of the symmetric reply of a handshake. *)
Definition replyParams (key topic payload : list byte) : MessageParams Float64 :=
  mkParams DefaultTTL None None key topic defaultWhisperWorkTime defaultWhisperPoW payload.
End Properties.

(** ** An in-memory codec and host

    A small instance of the collaborators, used to run the methods on
    concrete inputs: key ids count up in unary, an envelope shows what
    it was sealed with, a link of the transport is up or down. *)

Module Mem.
Inductive env : Type :=
  | SymEnv (topic key payload : list byte)
  | AsymEnv (topic dst : list byte) (signed : bool) (payload : list byte).

Record recv : Type := mkRecv {
  r_payload : list byte;
  r_valid : bool
}.

(** The id of the [n]-th key of the table. *)
Fixpoint keyid (n : nat) : string :=
  match n with
  | O => "k"
  | S n' => String "k"%char (keyid n')
  end.

Fixpoint keyindex (s : string) : option nat :=
  match s with
  | EmptyString => None
  | String c s' =>
      if decide (c = "k"%char)
      then match s' with
           | EmptyString => Some O
           | _ => S <$> keyindex s'
           end
      else None
  end.

Definition getSymKey (id : string) (tbl : list (list byte)) : result (list byte) :=
  match keyindex id ≫= λ i, tbl !! i with
  | Some key => Okay key
  | None => Fail (ErrExternal "unknown symkey id")
  end.

Definition addSymKeyDirect (key : list byte) (tbl : list (list byte))
    : result string * list (list byte) :=
  match key with
  | [] => (Fail (ErrExternal "wrong key size"), tbl)
  | _ => (Okay (keyid (length tbl)), tbl ++ [key])
  end.

(** The generated key shows the slot it was generated for. *)
Definition freshKey (n : nat) : list byte :=
  [Byte.x47; default Byte.xff (Byte.of_nat n)].

Definition generateSymKey (tbl : list (list byte)) : result string * list (list byte) :=
  (Okay (keyid (length tbl)), tbl ++ [freshKey (length tbl)]).

Definition openSymmetric (e : env) (key : list byte) : result recv :=
  match e with
  | SymEnv _ k payload =>
      if decide (k = key) then Okay (mkRecv payload true)
      else Fail (ErrExternal "symmetric open failed")
  | AsymEnv _ _ _ _ => Fail (ErrExternal "symmetric open failed")
  end.

(** The public key of a private key is the key itself. *)
Definition openAsymmetric (e : env) (priv : list byte) : result recv :=
  match e with
  | AsymEnv _ dst signed payload =>
      if decide (dst = priv) then Okay (mkRecv payload signed)
      else Fail (ErrExternal "asymmetric open failed")
  | SymEnv _ _ _ => Fail (ErrExternal "asymmetric open failed")
  end.

Definition topicOf (e : env) : list byte :=
  match e with SymEnv t _ _ => t | AsymEnv t _ _ _ => t end.

Definition wrap (sm wparams : MessageParams unit) : result env :=
  match Dst sm with
  | Some dst => Okay (AsymEnv (Topic sm) dst (bool_decide (Src sm ≠ None)) (Payload sm))
  | None =>
      match KeySym sm with
      | [] => Fail (ErrExternal "no key to seal with")
      | key => Okay (SymEnv (Topic sm) key (Payload sm))
      end
  end.

#[global] Instance codec : Codec := {|
  Whisper := list (list byte);
  Envelope := env;
  ReceivedMessage := recv;
  SentMessage := MessageParams unit;
  Float64 := unit;
  ProtoPeer := bool;
  Handler := option Error;
  MsgReadWriter := list byte;
  whisper_New := [];
  AddSymKeyDirect := addSymKeyDirect;
  GenerateSymKey := generateSymKey;
  GetSymKey := getSymKey;
  env_Topic := topicOf;
  OpenSymmetric := openSymmetric;
  OpenAsymmetric := openAsymmetric;
  Validate := r_valid;
  recv_Payload := r_payload;
  NewSentMessage := Okay;
  Wrap := wrap;
  DefaultTTL := 6000;
  defaultWhisperWorkTime := 2;
  defaultWhisperPoW := tt
|}.

(** A link that is up takes the message, a link that is down returns
    an error, and sending through a nil peer panics.  A handler
    returns the result it stands for and leaves the node alone. *)
#[global] Instance host : Host := {|
  peer_Send := λ pp _, match pp with
                       | Some true => SendOk
                       | Some false => SendFailed (ErrExternal "link down")
                       | None => SendPanic
                       end;
  call_Handler := λ h _ _, ret h;
  as_PssReadWriter := Some
|}.

(** *** Nodes and peers of the scenarios *)

Definition addr (b : byte) : list byte := replicate addressLength b.
Definition N0 : list byte := addr Byte.x01.   (* the node itself *)
Definition P1 : list byte := addr Byte.x11.
Definition P2 : list byte := addr Byte.x12.
Definition P3 : list byte := addr Byte.x13.
Definition R : list byte := addr Byte.x20.    (* a recipient that is not connected *)
Definition T : list byte := [Byte.x01; Byte.x02; Byte.x03; Byte.x04].
Definition T' : list byte := [Byte.x0a; Byte.x0b; Byte.x0c; Byte.x0d].
Definition Ka : list byte := [Byte.xaa; Byte.xab].

(** The node id of a peer is its address. *)
Definition conn (a : list byte) : OverlayConn := mkConn a (Some a).

(** The storage key of a message: its destination. *)
Definition store (m : PssMsg) : result (list byte) := Okay (To m).

(** The overlay hands out the given peers whatever the target. *)
Definition overlayOf (cs : list (OverlayConn * Z * bool)) : Overlay :=
  mkOverlay N0 (λ _ _, cs).

Definition node (cs : list (OverlayConn * Z * bool)) : Pss :=
  NewPss (overlayOf cs) store 10 N0.

Definition world (p : Pss) (now : Time) : World := mkWorld p now [] 1%positive.

(** A data message for [R]. *)
Definition msgD : PssMsg := mkMsg R (SymEnv T Ka [Byte.x68; Byte.x69]).
Definition digestD : list byte := R.

(** All links up. *)
Definition linksUp (cs : list (OverlayConn * Z * bool)) (p : Pss) : Pss :=
  set_fwdPool (list_to_map ((λ c, (Address c.1.1, true)) <$> cs)) p.
End Mem.

(** ** Scenarios *)

Module Scenario.
Import Mem.

(** A digest whose entry was made by [AddToCache] with a nil address. *)
Definition nilSender : World :=
  after (addFwdCacheSender [] digestD) (world (node []) 100).

(** [AddPublicKey] made a record for [P1] under the topic [T]; the
    topic [T'] has none. *)
Definition otherTopic : World :=
  after (AddPublicKey P1 T Ka) (world (node []) 100).

(** A forwarder that must not be reached. *)
Definition noForward : PssMsg → M (option Error) := λ _, panic.

(** The key message of [P1] with the key [Ka], as bytes. *)
Definition keyMsgBytes : list byte := P1 ++ Ka.

(** Three asymmetric envelopes for the node: one sealed for another
    key, one with a bad signature, one that carries no key message. *)
Definition envOther : env := AsymEnv T P1 true [Byte.x00].
Definition envUnsigned : env := AsymEnv T N0 false keyMsgBytes.
Definition envNoKeyMsg : env := AsymEnv T N0 true [Byte.x00].
Definition msgOther : PssMsg := mkMsg N0 envOther.
Definition msgUnsigned : PssMsg := mkMsg N0 envUnsigned.
Definition msgNoKeyMsg : PssMsg := mkMsg N0 envNoKeyMsg.

(** *** Forwarding *)

(** [P1] is the closest peer, [P2] the next; neither is in the
    proximity bin of the recipient. *)
Definition twoPeers : list (OverlayConn * Z * bool) :=
  [(conn P1, 5, false); (conn P2, 4, false)].

Definition start : World := world (linksUp twoPeers (node twoPeers)) 100.

(** The message arrives from [P1] and is forwarded. *)
Definition firstReceipt : World := after (AddToCache P1 msgD) start.
Definition firstForward : World := after (Forward 1 msgD) firstReceipt.

(** The cache TTL of the node is 10 ticks.  A second copy arrives
    from [P1] 5 ticks after the first forward, and another one 50
    ticks after it. *)
Definition soonAfter : World := after (AddToCache P1 msgD) (advance 5 firstForward).

(** A node without connected peers. *)
Definition alone : World := world (node []) 100.

(** Three peers in the proximity bin of the recipient. *)
Definition bin : list (OverlayConn * Z * bool) :=
  [(conn P1, 5, true); (conn P2, 4, true); (conn P3, 3, true)].
Definition inBin : World := world (linksUp bin (node bin)) 100.

(** The recipient itself is connected and comes first. *)
Definition direct : list (OverlayConn * Z * bool) :=
  [(conn R, 256, true); (conn P1, 5, true)].
Definition withRecipient : World := world (linksUp direct (node direct)) 100.

(** An iterator that hands out [P2] twice. *)
Definition twice : list (OverlayConn * Z * bool) :=
  [(conn P2, 4, true); (conn P2, 4, true)].
Definition repeated : World := world (linksUp twice (node twice)) 100.

(** *** Handshake *)

(** The node hears from [P1], which is connected, for the first
    time: a message sealed for the node and signed, whose payload is
    the key message of [P1] with the key [Ka]. *)
Definition onePeer : list (OverlayConn * Z * bool) := [(conn P1, 5, false)].
Definition listening : World := world (linksUp onePeer (node onePeer)) 100.
Definition msgHandshake : PssMsg := mkMsg N0 (AsymEnv T N0 true keyMsgBytes).

(** *** Registry *)

(** The node holds the inbound key [Ka] for [P1] on the topic [T]. *)
Definition hasInbound : World := after (SetIncomingSymmetricKey P1 T Ka) alone.
(** A message sealed with [Ka] on the topic [T]. *)
Definition envFromP1 : env := SymEnv T Ka [Byte.x68; Byte.x69].
(** A node whose store fails, with [P1] and [P2] connected. *)
Definition noStore : World :=
  world (linksUp twoPeers
           (NewPss (overlayOf twoPeers) (λ _, Fail (ErrExternal "store down")) 10 N0))
          100.
(** Another message, for [P3]. *)
Definition msgE : PssMsg := mkMsg P3 (SymEnv T' Ka [Byte.x62; Byte.x79; Byte.x65]).
(** The link to [P1] is down, the link to [P2] is up. *)
Definition oneDown : World :=
  world (set_fwdPool {[ P1 := false; P2 := true ]} (node twoPeers)) 100.
(** A handler that accepts every message. *)
Definition okHandler : Handler := None.
(** The read-writer of the virtual protocol with [P1]. *)
Definition rwP1 : MsgReadWriter := P1.
(** [P1] has records under the topics [T] and [T']. *)
Definition twoTopics : World := after (AddPublicKey P1 T' Ka) otherTopic.
(** [P1] is secured on the topic [T]: the inbound key has the id "k",
    the outbound key the id "kk"; a handler listens on [T]. *)
Definition secured : World := after (SetOutgoingSymmetricKey P1 T Ka) hasInbound.
Definition serving : World := after (Register T okHandler) secured.
Definition msgFromP1 : PssMsg := mkMsg N0 envFromP1.
(** A handler that refuses every message. *)
Definition failHandler : Handler := Some (ErrExternal "handler failed").
End Scenario.
(** ** The mutex

    [self.lock] is a [sync.Mutex]: [Lock] on a held mutex blocks the
    caller until the mutex is released, also when the caller itself
    holds it.  Here every method is reduced to what it does with the
    mutex and to its calls of methods of the node, in the order of the
    source; the conditions of its branches and loops are left open. *)

Module Locking.

Inductive Method : Type :=
  | storeMsg | Run | Register | AddPublicKey
  | SetIncomingSymmetricKey | SetOutgoingSymmetricKey | deregister
  | AddToCache | addFwdCacheSender | addFwdCacheExpire | checkFwdCache
  | getHandlers | handlePssMsg | Process | SendSym | SendAsym | send
  | Forward | AddPeer | preparePeerTopic | removePeerTopic
  | isSelfRecipient | isActive | isSecured
  | Handler.   (* a handler that was given to [Register] *)

Inductive Code : Type :=
  | Skip                      (* statements without the mutex and without such a call *)
  | Lock                      (* self.lock.Lock() *)
  | DeferUnlock               (* defer self.lock.Unlock() *)
  | Call (m : Method)
  | Return
  | Seq (c1 c2 : Code)
  | If (c1 c2 : Code)         (* a branch: either side *)
  | Loop (c : Code).          (* a loop: the body any number of times *)

Declare Scope lock_scope.
Delimit Scope lock_scope with lock.
Bind Scope lock_scope with Code.
Notation "c1 ▹ c2" := (Seq c1 c2) (at level 62, right associativity) : lock_scope.
Open Scope lock_scope.

(** The methods, with [handler] for the body of the registered
    handlers. *)
Definition body (handler : Code) (m : Method) : Code :=
  match m with
  | storeMsg => Skip ▹ If Return Skip ▹ Return
  | Run => Skip ▹ Loop (Call handlePssMsg) ▹ Return
  | Register => Lock ▹ DeferUnlock ▹ Skip ▹ Return
  | AddPublicKey => Call preparePeerTopic ▹ Lock ▹ DeferUnlock ▹ Skip
  | SetIncomingSymmetricKey =>
      Skip ▹ If Return Skip ▹ Call preparePeerTopic ▹ Lock ▹ DeferUnlock ▹ Skip ▹ Return
  | SetOutgoingSymmetricKey =>
      Skip ▹ If Return Skip ▹ Call preparePeerTopic ▹ Lock ▹ DeferUnlock ▹ Skip ▹ Return
  | deregister => Lock ▹ DeferUnlock ▹ Skip ▹ If Return Skip ▹ Skip
  | AddToCache => Call storeMsg ▹ If Return Skip ▹ Call addFwdCacheSender ▹ Return
  | addFwdCacheSender => Lock ▹ DeferUnlock ▹ Skip ▹ Return
  | addFwdCacheExpire => Lock ▹ DeferUnlock ▹ Skip ▹ Return
  | checkFwdCache => Lock ▹ DeferUnlock ▹ Skip ▹ If (If Return (If Return Skip)) Skip ▹ Return
  | getHandlers => Lock ▹ DeferUnlock ▹ Return
  | handlePssMsg =>
      If (Call isSelfRecipient ▹ If (Call Forward ▹ Return) Skip ▹ Call Process ▹ Return)
         Skip ▹
      Return
  | Process =>
      Loop Skip ▹
      If (* no symmetric key opened the envelope *)
         (Skip ▹ If Return Skip ▹ If Return Skip ▹ If Return Skip ▹
          Call SetOutgoingSymmetricKey ▹ If Return Skip ▹
          Call isSecured ▹
          If (Skip ▹ If Return Skip ▹ Skip ▹ If Return Skip ▹
              Call SetIncomingSymmetricKey ▹ If Return Skip ▹
              Call SendSym)
             Skip)
         (Call isSecured ▹
          If Skip
             (Call getHandlers ▹ If Return Skip ▹
              Loop (Call Handler ▹ If Return Skip))) ▹
      Return
  | SendSym =>
      Call isSecured ▹ If Return Skip ▹ Skip ▹ If Return Skip ▹ Call send ▹ Return
  | SendAsym => Skip ▹ Call send ▹ Return
  | send => Skip ▹ If Return Skip ▹ Skip ▹ If Return Skip ▹ Call Forward ▹ Return
  | Forward =>
      Call isSelfRecipient ▹ If (Call Process ▹ Return) Skip ▹
      Call storeMsg ▹ Call checkFwdCache ▹ If Return Skip ▹
      Loop (If Skip (Call checkFwdCache ▹ If Skip (Skip ▹ If Skip Skip))) ▹
      If Return Skip ▹ Call addFwdCacheExpire ▹ Return
  | AddPeer => Lock ▹ DeferUnlock ▹ Call preparePeerTopic ▹ Skip ▹ Return
  | preparePeerTopic => Lock ▹ DeferUnlock ▹ Skip ▹ If Return Skip ▹ Skip ▹ Return
  | removePeerTopic => If Return Skip ▹ Skip
  | isSelfRecipient => Return
  | isActive => If Return Skip ▹ Return
  | isSecured => If Return Skip ▹ If Return Skip ▹ If Return Skip ▹ Return
  | Handler => handler
  end.

(** Where a statement leaves the goroutine: the mutex held or free, and
    the number of [Unlock]s that the method has deferred. *)
Inductive Result : Type :=
  | Falls (held : bool) (defers : nat)     (* control goes on after the statement *)
  | Returns (held : bool) (defers : nat)   (* a [return] was reached *)
  | Blocked                                (* [Lock] on the held mutex *)
  | Fatal.                                 (* [Unlock] of a free mutex *)

(** How a call of a method ends. *)
Inductive Outcome : Type :=
  | Back (held : bool)
  | Stuck
  | Crash.

(** The deferred [Unlock]s run when the method returns. *)
Fixpoint unwind (defers : nat) (held : bool) : Outcome :=
  match defers with
  | O => Back held
  | S d => if held then unwind d false else Crash
  end.

Definition leave (r : Result) : Outcome :=
  match r with
  | Falls h d | Returns h d => unwind d h
  | Blocked => Stuck
  | Fatal => Crash
  end.

Definition resume (o : Outcome) (defers : nat) : Result :=
  match o with
  | Back h => Falls h defers
  | Stuck => Blocked
  | Crash => Fatal
  end.

Definition goes_on (r : Result) : bool :=
  match r with Falls _ _ => true | _ => false end.

(** [exec handler n c held defers r]: a run of [c] with calls nested at
    most [n] deep, started with the mutex [held] and [defers] deferred
    [Unlock]s, leaves the goroutine at [r]. *)
Inductive exec (handler : Code) : nat → Code → bool → nat → Result → Prop :=
  | exec_Skip n h d : exec handler n Skip h d (Falls h d)
  | exec_Lock_free n d : exec handler n Lock false d (Falls true d)
  | exec_Lock_held n d : exec handler n Lock true d Blocked
  | exec_DeferUnlock n h d : exec handler n DeferUnlock h d (Falls h (S d))
  | exec_Return n h d : exec handler n Return h d (Returns h d)
  | exec_Call n m h d r :
      exec handler n (body handler m) h 0 r →
      exec handler (S n) (Call m) h d (resume (leave r) d)
  | exec_Seq n c1 c2 h d h1 d1 r :
      exec handler n c1 h d (Falls h1 d1) → exec handler n c2 h1 d1 r →
      exec handler n (Seq c1 c2) h d r
  | exec_Seq_stop n c1 c2 h d r :
      exec handler n c1 h d r → goes_on r = false →
      exec handler n (Seq c1 c2) h d r
  | exec_If_left n c1 c2 h d r :
      exec handler n c1 h d r → exec handler n (If c1 c2) h d r
  | exec_If_right n c1 c2 h d r :
      exec handler n c2 h d r → exec handler n (If c1 c2) h d r
  | exec_Loop_exit n c h d : exec handler n (Loop c) h d (Falls h d)
  | exec_Loop_again n c h d h1 d1 r :
      exec handler n c h d (Falls h1 d1) → exec handler n (Loop c) h1 d1 r →
      exec handler n (Loop c) h d r
  | exec_Loop_stop n c h d r :
      exec handler n c h d r → goes_on r = false →
      exec handler n (Loop c) h d r.

(** A call of the method [m] by a goroutine that finds the mutex
    [held]. *)
Definition call (handler : Code) (n : nat) (m : Method) (held : bool) (o : Outcome) : Prop :=
  ∃ r, exec handler n (body handler m) held 0 r ∧ o = leave r.

Close Scope lock_scope.
End Locking.

(** * Properties *)

(** Unfolding the plumbing of the outcome monad. *)
Ltac monad_unfold :=
  unfold bind, ret, gets, modify, time_Now, deref, panic, forget in *.

Ltac monad_simpl := monad_unfold; simpl in *.

Section BasicFacts.
Context `{Host}.

Lemma with_pss_id (σ : World) : with_pss (λ p, p) σ = σ.
Proof. by destruct σ. Qed.

Lemma returned_after {A} (m : M A) (σ : World) (a : A) :
  returned (m σ) = Some a → m σ = Done a (after m σ).
Proof. unfold returned, after. destruct (m σ); naive_solver. Qed.

Lemma option_ne_None {A} (o : option A) :
  (if o is Some _ then true else false) = true → o ≠ None.
Proof. by destruct o. Qed.

Lemma After_true (t u : Time) : After t u = true ↔ u < t.
Proof. unfold After. apply bool_decide_eq_true. Qed.


Lemma IsZero_true (t : Time) : IsZero t = true ↔ t = zeroTime.
Proof. unfold IsZero, zeroTime. apply bool_decide_eq_true. Qed.

Lemma bytes_Equal_true (a b : list byte) : bytes_Equal a b = true ↔ a = b.
Proof. unfold bytes_Equal. apply bool_decide_eq_true. Qed.

(** [checkFwdCache] reads the cache and the clock and changes nothing. *)
Lemma checkFwdCache_eval (c d : list byte) (σ : World) :
  checkFwdCache c d σ = Done (cacheSkips c d (pss σ) (clock σ)) σ.
Proof.
  unfold checkFwdCache, cacheSkips. monad_simpl.
  destruct (fwdcache (pss σ) !! d) as [e|]; [|done].
  destruct (After (expiresAt e) (clock σ)); [done|].
  by destruct (IsZero (expiresAt e) && bytes_Equal c (receivedFrom e)).
Qed.

(** [isSecured] and [isActive] by cases on the pool. *)
Lemma isSecured_eval (id topic : list byte) (σ : World) :
  isSecured id topic σ =
  match peerPool (pss σ) !! id with
  | None => Done false σ
  | Some m =>
      match m !! topic with
      | None => Panic
      | Some psp =>
          Done (negb (Before (symkeyexpires psp) (clock σ))
                && negb (bool_decide (recvsymkey psp = "")
                         || bool_decide (sendsymkey psp = ""))) σ
      end
  end.
Proof.
  unfold isSecured. monad_simpl.
  destruct (peerPool (pss σ) !! id) as [m|]; [|done].
  destruct (m !! topic) as [psp|]; [|done]. simpl.
  destruct (Before (symkeyexpires psp) (clock σ)); [done|].
  by destruct (bool_decide (recvsymkey psp = "") || bool_decide (sendsymkey psp = "")).
Qed.

Lemma isActive_eval (id topic : list byte) (σ : World) :
  isActive id topic σ =
  match peerPool (pss σ) !! id with
  | None => Done false σ
  | Some m =>
      match m !! topic with
      | None => Panic
      | Some psp => Done (bool_decide (rw psp ≠ None)) σ
      end
  end.
Proof.
  unfold isActive. monad_simpl.
  destruct (peerPool (pss σ) !! id) as [m|]; [|done].
  by destruct (m !! topic) as [psp|].
Qed.

End BasicFacts.

(** ** The forward cache *)

Section ForwardCache.
Context `{Host}.

Lemma should_skip_code (c d : list byte) (σ : World) :
  0 ≤ clock σ →
  (skipAsSpecified c d σ ↔
   ¬ (c = [] ∧ ∃ e, fwdcache (pss σ) !! d = Some e ∧
                    expiresAt e = zeroTime ∧ receivedFrom e = [])).
Proof.
  intros Hnow. unfold skipAsSpecified. rewrite checkFwdCache_eval.
  unfold cacheSkips. destruct (fwdcache (pss σ) !! d) as [[t s]|] eqn:Hd; simpl.
  2: { split; [|done]. intros _ (_ & e & ? & _). done. }
  unfold opt_time, IsZero, After, zeroTime.
  destruct (decide (t = 0)) as [->|Ht].
  - rewrite (bool_decide_eq_false_2 (clock σ < 0)) by lia.
    rewrite bool_decide_eq_true_2 by done. simpl.
    destruct c as [|c0 c]; destruct s as [|s0 s]; simpl; unfold bytes_Equal.
    + rewrite bool_decide_eq_true_2 by done.
      split; [discriminate|]. intros Hn. exfalso. apply Hn. eauto.
    + rewrite bool_decide_eq_false_2 by done.
      split; [|done]. intros _ (_ & e & [= <-] & _ & ?). done.
    + rewrite bool_decide_eq_false_2 by done.
      split; [|done]. intros _ (? & _). done.
    + split; [|done]. intros _ (? & _). done.
  - rewrite (bool_decide_eq_false_2 (t = 0)) by done. simpl.
    rewrite orb_false_r. split; [|done].
    intros _ (_ & e & [= <-] & ? & _). done.
Qed.

(** C1 (as amended).  [checkFwdCache(c, d)] returns true exactly when
    the cache has an entry for [d] and either (a) its expiry is in the
    future, or (b) its expiry is unset and [c] equals the stored last
    sender as a byte string.  A null candidate is the empty byte
    string and equals an unset last sender: the answer departs from
    [should_skip] of the specification exactly on a null candidate
    with an entry whose expiry and last sender are both unset, where
    it is true. *)
Theorem checkFwdCache_rules (c d : list byte) (σ : World) :
  0 ≤ clock σ →
  (∃ b, checkFwdCache c d σ = Done b σ ∧
        (b = true ↔
         ∃ e, fwdcache (pss σ) !! d = Some e ∧
              (clock σ < expiresAt e ∨
               (expiresAt e = zeroTime ∧ c = receivedFrom e)))) ∧
  (skipAsSpecified c d σ ↔
   ¬ (c = [] ∧ ∃ e, fwdcache (pss σ) !! d = Some e ∧
                    expiresAt e = zeroTime ∧ receivedFrom e = [])) ∧
  (c = [] →
   (∃ e, fwdcache (pss σ) !! d = Some e ∧
         expiresAt e = zeroTime ∧ receivedFrom e = []) →
   checkFwdCache c d σ = Done true σ).
Proof.
  intros Hnow. split; [|split].
  - rewrite checkFwdCache_eval. eexists. split; [done|].
    unfold cacheSkips. destruct (fwdcache (pss σ) !! d) as [e|] eqn:Hd.
    + rewrite orb_true_iff, andb_true_iff, After_true, IsZero_true,
        bytes_Equal_true.
      split; [eauto|]. by intros (e' & [= <-] & ?).
    + split; [done|]. by intros (e' & ? & _).
  - by apply should_skip_code.
  - intros -> (e & Hd & Ht & Hs). rewrite checkFwdCache_eval.
    unfold cacheSkips. rewrite Hd, Ht, Hs.
    by rewrite orb_true_r.
Qed.
End ForwardCache.

Lemma checkFwdCache_rules_witness :
  0 ≤ clock Scenario.nilSender ∧
  checkFwdCache [] Mem.digestD Scenario.nilSender = Done true Scenario.nilSender.
Proof.
  assert (Hnow : 0 ≤ clock Scenario.nilSender) by (vm_compute; discriminate).
  split; [exact Hnow|].
  apply (checkFwdCache_rules [] Mem.digestD Scenario.nilSender Hnow); [done|].
  exists emptyEntry. split; [|split]; vm_compute; reflexivity.
Defined.

(** C1, counterexample.  After [addFwdCacheSender(nil, d)] on a new node
    the entry of [d] has neither expiry nor last sender;
    [checkFwdCache(nil, d)] answers true, where [should_skip] of the
    specification (null candidate, rule (a) alone) answers false. *)
Lemma checkFwdCache_null_candidate :
  fwdcache (pss Scenario.nilSender) !! Mem.digestD = Some (mkEntry zeroTime []) ∧
  checkFwdCache [] Mem.digestD Scenario.nilSender = Done true Scenario.nilSender ∧
  should_skip None (Some (mkSpecEntry None None)) (clock Scenario.nilSender) = false ∧
  ¬ skipAsSpecified [] Mem.digestD Scenario.nilSender.
Proof.
  split; [vm_compute; reflexivity|].
  split; [rewrite checkFwdCache_eval; f_equal; vm_compute; reflexivity|].
  split; [reflexivity|].
  unfold skipAsSpecified. rewrite checkFwdCache_eval. intros Heq.
  injection Heq as Heq. vm_compute in Heq. discriminate Heq.
Qed.

(** ** The secured and active checks *)

Section SecuredChecks.
Context `{Host}.

(** C10.  [isSecured] and [isActive] return false when the pool has no
    record for the address; when it has a record for the address but
    none under the topic, the lookup gives a nil peer state and both
    panic on the field access, and so does [SendSym]; they return
    exactly when the address is absent or has a state for the topic. *)
Theorem secured_active_totality (id topic : list byte) (σ : World) :
  (peerPool (pss σ) !! id = None →
   isSecured id topic σ = Done false σ ∧ isActive id topic σ = Done false σ) ∧
  (peerPool (pss σ) !! id ≠ None → peerAt id topic (pss σ) = None →
   isSecured id topic σ = Panic ∧ isActive id topic σ = Panic ∧
   ∀ fwd to payload, to_potaddr to = id →
                     SendSym fwd to topic payload σ = Panic) ∧
  ((∃ b, isSecured id topic σ = Done b σ) ↔
   peerPool (pss σ) !! id = None ∨ is_Some (peerAt id topic (pss σ))) ∧
  ((∃ b, isActive id topic σ = Done b σ) ↔
   peerPool (pss σ) !! id = None ∨ is_Some (peerAt id topic (pss σ))).
Proof.
  rewrite isSecured_eval, isActive_eval. unfold peerAt.
  destruct (peerPool (pss σ) !! id) as [m|] eqn:Hm; simpl.
  - split; [done|]. split.
    + intros _ Ht. rewrite Ht. do 2 (split; [done|]).
      intros fwd to payload Hto. unfold SendSym. rewrite Hto.
      unfold bind at 1. by rewrite isSecured_eval, Hm, Ht.
    + destruct (m !! topic) as [psp|]; simpl.
      * split; (split; [intros _; right; eauto | eauto]).
      * split; (split; [by intros [? ?] | intros [? | [? ?]]; done]).
  - split; [done|]. split; [done|]. split; (split; [by left | eauto]).
Qed.

End SecuredChecks.

Lemma secured_active_totality_witness :
  isSecured Mem.P1 Mem.T' (Mem.world (Mem.node []) 100)
    = Done false (Mem.world (Mem.node []) 100) ∧
  isSecured Mem.P1 Mem.T' Scenario.otherTopic = Panic ∧
  SendSym Scenario.noForward Mem.P1 Mem.T' [Byte.x68] Scenario.otherTopic = Panic.
Proof.
  split; [|split].
  - apply (secured_active_totality Mem.P1 Mem.T' (Mem.world (Mem.node []) 100)).
    vm_compute; reflexivity.
  - apply (secured_active_totality Mem.P1 Mem.T' Scenario.otherTopic).
    + apply option_ne_None. vm_compute; reflexivity.
    + vm_compute; reflexivity.
  - apply (secured_active_totality Mem.P1 Mem.T' Scenario.otherTopic).
    + apply option_ne_None. vm_compute; reflexivity.
    + vm_compute; reflexivity.
    + reflexivity.
Defined.



(** ** The asymmetric branch of the dispatcher *)

Section AsymmetricBranch.
Context `{Host}.

Lemma Process_no_symkey (fwd : PssMsg → M (option Error)) (pssmsg : PssMsg) (σ : World) :
  trySymKeys (w (pss σ)) (reverseKeyPool (pss σ)) (Payload_ pssmsg)
             (recvsymkeys (pss σ)) = None →
  Process fwd pssmsg σ = processAsym fwd (Payload_ pssmsg) σ.
Proof.
  intros Hsym. unfold Process. unfold bind at 1, gets at 1. simpl.
  by rewrite Hsym.
Qed.

Lemma processAsym_eval (fwd : PssMsg → M (option Error)) (env : Envelope) (σ : World) :
  processAsym fwd env σ =
  match OpenAsymmetric env (privatekey (pss σ)) with
  | Fail _ => Done None σ
  | Okay recvmsg =>
      if negb (Validate recvmsg) then Done (Some ErrInvalidSignature) σ
      else match as_pssKeyMsg recvmsg with
           | None => Done (Some ErrInvalidHandshakeMsg) σ
           | Some keymsg => handshake fwd env keymsg σ
           end
  end.
Proof.
  unfold processAsym, bind, gets, ret.
  destruct (OpenAsymmetric env (privatekey (pss σ))) as [recvmsg|]; [|done].
  destruct (Validate recvmsg); [|done]. simpl.
  by destruct (as_pssKeyMsg recvmsg).
Qed.

(** C7.  For a message that no symmetric key of the inbound-try list
    opens: when asymmetric decryption fails, [Process] drops the
    message and returns nil; when it succeeds and the signature does
    not validate, [Process] returns the error "invalid signature";
    when the signature validates and the payload is not a key message,
    [Process] returns the error "invalid handshake msg".  The world is
    the same in the three cases. *)
Theorem Process_asym_failures (fwd : PssMsg → M (option Error))
    (pssmsg : PssMsg) (σ : World) :
  trySymKeys (w (pss σ)) (reverseKeyPool (pss σ)) (Payload_ pssmsg)
             (recvsymkeys (pss σ)) = None →
  (∀ e, OpenAsymmetric (Payload_ pssmsg) (privatekey (pss σ)) = Fail e →
        Process fwd pssmsg σ = Done None σ) ∧
  (∀ recvmsg, OpenAsymmetric (Payload_ pssmsg) (privatekey (pss σ)) = Okay recvmsg →
              Validate recvmsg = false →
              Process fwd pssmsg σ = Done (Some ErrInvalidSignature) σ) ∧
  (∀ recvmsg, OpenAsymmetric (Payload_ pssmsg) (privatekey (pss σ)) = Okay recvmsg →
              Validate recvmsg = true → as_pssKeyMsg recvmsg = None →
              Process fwd pssmsg σ = Done (Some ErrInvalidHandshakeMsg) σ).
Proof.
  intros Hsym. rewrite (Process_no_symkey _ _ _ Hsym), processAsym_eval.
  split; [|split].
  - by intros e ->.
  - by intros recvmsg -> ->.
  - by intros recvmsg -> -> ->.
Qed.
End AsymmetricBranch.

Lemma Process_asym_failures_witness :
  let σ := Mem.world (Mem.node []) 100 in
  Process Scenario.noForward Scenario.msgOther σ = Done None σ ∧
  Process Scenario.noForward Scenario.msgUnsigned σ
    = Done (Some ErrInvalidSignature) σ ∧
  Process Scenario.noForward Scenario.msgNoKeyMsg σ
    = Done (Some ErrInvalidHandshakeMsg) σ.
Proof.
  intros σ. split; [|split].
  - eapply (Process_asym_failures Scenario.noForward Scenario.msgOther σ);
      vm_compute; reflexivity.
  - eapply (Process_asym_failures Scenario.noForward Scenario.msgUnsigned σ);
      vm_compute; reflexivity.
  - eapply (Process_asym_failures Scenario.noForward Scenario.msgNoKeyMsg σ);
      vm_compute; reflexivity.
Defined.

(** ** The fan-out of the forwarder *)

Section FanOut.
Context `{Host}.

Lemma storeMsg_world (msg : PssMsg) (σ : World) (r : list byte * option Error) (σ' : World) :
  storeMsg msg σ = Done r σ' → σ' = σ.
Proof.
  unfold storeMsg. monad_simpl. destruct (dpa (pss σ) msg) as [key|e].
  - case_decide; [|done]. by intros [= _ <-].
  - by intros [= _ <-].
Qed.

Lemma storeMsg_Okay (msg : PssMsg) (σ : World) (key : list byte) :
  dpa (pss σ) msg = Okay key → (digestLength ≤ length key)%nat →
  storeMsg msg σ = Done (copy_into digestLength (take digestLength key), None) σ.
Proof.
  intros Hkey Hlen. unfold storeMsg. monad_simpl. rewrite Hkey.
  by rewrite decide_True.
Qed.

(** One call of the function that [Forward] hands to [EachConn]. *)
Lemma fwdVisit_eval (msg : PssMsg) (digest : list byte) (op : OverlayConn)
    (po : Z) (isproxbin : bool) (sent : Z) (σ : World) :
  fwdVisit msg digest op po isproxbin sent σ =
  match ID op with
  | None => Done (false, sent) σ
  | Some nid =>
      if cacheSkips (Address op) digest (pss σ) (clock σ) then Done (true, sent) σ
      else match peer_Send (fwdPool (pss σ) !! nid) msg with
           | SendPanic => Panic
           | SendFailed _ => Done (true, sent) (log_send (mkSend op msg false) σ)
           | SendOk =>
               Done (negb (bytes_Equal (To msg) (Address op) || negb isproxbin), sent + 1)
                    (log_send (mkSend op msg true) σ)
           end
  end.
Proof.
  unfold fwdVisit. destruct (ID op) as [nid|]; [|done].
  unfold bind at 1, gets at 1. unfold bind at 1.
  rewrite checkFwdCache_eval.
  destruct (cacheSkips (Address op) digest (pss σ) (clock σ)); [done|].
  destruct (peer_Send (fwdPool (pss σ) !! nid) msg); [|done|done].
  unfold bind, ret.
  by destruct (bytes_Equal (To msg) (Address op) || negb isproxbin).
Qed.

(** What one call does to the world: the node, the clock and the
    pointer supply stay as they are; at most one send is logged, to
    the visited peer, which the cache did not ask to skip; the counter
    goes up by one exactly for an accepted send. *)
Lemma fwdVisit_effect (msg : PssMsg) (digest : list byte) (op : OverlayConn)
    (po : Z) (isproxbin : bool) (sent : Z) (σ : World) (r : bool * Z) (σ' : World) :
  fwdVisit msg digest op po isproxbin sent σ = Done r σ' →
  pss σ' = pss σ ∧ clock σ' = clock σ ∧ next_ptr σ' = next_ptr σ ∧
  ∃ evs, wire σ' = wire σ ++ evs ∧
         r.2 = sent + Z.of_nat (length (okSends evs)) ∧
         Forall (λ ev, ev_conn ev = op ∧ ev_msg ev = msg ∧
                       cacheSkips (Address op) digest (pss σ) (clock σ) = false) evs.
Proof.
  rewrite fwdVisit_eval. destruct (ID op) as [nid|].
  2: { intros [= <- <-]. repeat split; try done. exists [].
       rewrite app_nil_r. simpl. split; [done|]. split; [lia|constructor]. }
  destruct (cacheSkips (Address op) digest (pss σ) (clock σ)) eqn:Hskip.
  { intros [= <- <-]. repeat split; try done. exists [].
    rewrite app_nil_r. simpl. split; [done|]. split; [lia|constructor]. }
  destruct (peer_Send (fwdPool (pss σ) !! nid) msg); [| |done].
  - intros [= <- <-]. repeat split; try done.
    exists [mkSend op msg true]. simpl. split; [done|]. split; [lia|].
    by repeat constructor.
  - intros [= <- <-]. repeat split; try done.
    exists [mkSend op msg false]. simpl. split; [done|]. split; [lia|].
    by repeat constructor.
Qed.

Lemma EachConn_cons (f : OverlayConn → Z → bool → Z → M (bool * Z))
    (op : OverlayConn) (po : Z) (isproxbin : bool)
    (rest : list (OverlayConn * Z * bool)) (sent : Z) (σ : World) :
  EachConn ((op, po, isproxbin) :: rest) f sent σ =
  match f op po isproxbin sent σ with
  | Done r σ' => if r.1 then EachConn rest f r.2 σ' else Done r.2 σ'
  | Panic => Panic
  | Exhausted => Exhausted
  end.
Proof.
  simpl. unfold bind at 1. destruct (f op po isproxbin sent σ) as [r σ'| |]; try done.
  by destruct r.1.
Qed.

(** The whole iteration. *)
Lemma EachConn_effect (msg : PssMsg) (digest : list byte)
    (conns : list (OverlayConn * Z * bool)) :
  ∀ (sent : Z) (σ : World) (sent' : Z) (σ' : World),
    EachConn conns (fwdVisit msg digest) sent σ = Done sent' σ' →
    pss σ' = pss σ ∧ clock σ' = clock σ ∧ next_ptr σ' = next_ptr σ ∧
    ∃ evs, wire σ' = wire σ ++ evs ∧
           sent' = sent + Z.of_nat (length (okSends evs)) ∧
           Forall (λ ev, ev_msg ev = msg ∧
                         (∃ po pb, (ev_conn ev, po, pb) ∈ conns) ∧
                         cacheSkips (Address (ev_conn ev)) digest (pss σ) (clock σ) = false)
                  evs.
Proof.
  induction conns as [|[[op po] pb] rest IH]; intros sent σ sent' σ'.
  - simpl. intros [= <- <-]. repeat split; try done. exists [].
    rewrite app_nil_r. simpl. split; [done|]. split; [lia|constructor].
  - rewrite EachConn_cons.
    destruct (fwdVisit msg digest op po pb sent σ) as [r σ1| |] eqn:Hvisit; try done.
    apply fwdVisit_effect in Hvisit
      as (Hp1 & Hc1 & Hn1 & evs1 & Hw1 & Hs1 & Hall1).
    assert (Hhead : Forall (λ ev, ev_msg ev = msg ∧
              (∃ po0 pb0, (ev_conn ev, po0, pb0) ∈ (op, po, pb) :: rest) ∧
              cacheSkips (Address (ev_conn ev)) digest (pss σ) (clock σ) = false) evs1).
    { eapply Forall_impl; [exact Hall1|]. intros ev (-> & -> & Hsk).
      split; [done|]. split; [|done]. exists po, pb. left. }
    destruct r.1.
    + intros Hrest. apply IH in Hrest
        as (Hp2 & Hc2 & Hn2 & evs2 & Hw2 & Hs2 & Hall2).
      split; [congruence|]. split; [congruence|]. split; [congruence|].
      exists (evs1 ++ evs2). split; [by rewrite Hw2, Hw1, app_assoc|].
      split.
      { unfold okSends in *. rewrite filter_app, length_app. lia. }
      apply Forall_app. split; [done|].
      eapply Forall_impl; [exact Hall2|]. intros ev (Hm & (po0 & pb0 & Hin) & Hsk).
      split; [done|]. split.
      * exists po0, pb0. by right.
      * by rewrite <- Hp1, <- Hc1.
    + intros [= <- <-].
      split; [done|]. split; [done|]. split; [done|].
      exists evs1. done.
Qed.

Lemma newSends_app (σ σ' : World) (evs : list SendEvent) :
  wire σ' = wire σ ++ evs → newSends σ σ' = evs.
Proof. unfold newSends. intros ->. by rewrite drop_app_length. Qed.

(** [Forward] for a message to another node is [forwardRelay]. *)
Lemma Forward_other (fuel : nat) (msg : PssMsg) (σ : World) :
  To msg ≠ ov_BaseAddr (overlay (pss σ)) →
  Forward (S fuel) msg σ = forwardRelay msg σ.
Proof.
  intros Hto. simpl. unfold bind at 1. unfold isSelfRecipient, BaseAddr.
  monad_simpl. unfold bytes_Equal. by rewrite bool_decide_eq_false_2.
Qed.

(** [forwardRelay] once the digest is known. *)
Lemma forwardRelay_eval (msg : PssMsg) (σ : World) (digest : list byte)
    (err : option Error) :
  storeMsg msg σ = Done (digest, err) σ →
  forwardRelay msg σ =
  if cacheSkips [] digest (pss σ) (clock σ) then Done None σ
  else match EachConn (ov_conns (overlay (pss σ)) (To msg) 256)
                      (fwdVisit msg digest) 0 σ with
       | Done sent σ1 =>
           if decide (sent = 0) then Done (Some ErrUnableToForward) σ1
           else Done None (with_pss
                  (λ p, set_fwdcache
                     (<[digest := mkEntry (clock σ1 + cachettl p)
                          (receivedFrom (default emptyEntry (fwdcache p !! digest)))]>
                        (fwdcache p)) p) σ1)
       | Panic => Panic
       | Exhausted => Exhausted
       end.
Proof.
  intros Hstore. unfold forwardRelay. unfold bind at 1. rewrite Hstore. simpl.
  unfold bind at 1. rewrite checkFwdCache_eval.
  destruct (cacheSkips [] digest (pss σ) (clock σ)); [done|].
  unfold bind at 1, gets at 1. unfold bind at 1.
  destruct (EachConn _ _ 0 σ) as [sent σ1| |]; try done.
  case_decide; [done|].
  unfold addFwdCacheExpire. monad_simpl. done.
Qed.
End FanOut.

(** ** The forwarder *)

Section Forwarder.
Context `{Host}.

(** C4.  For a message to another node: when the flood guard fires
    (the cache check with the nil candidate answers true), [Forward]
    returns nil and the world, the log of sends included, is as
    before; otherwise, when the fan-out completes, its counter is the
    number of accepted sends; with no accepted send [Forward] returns
    the error "unable to forward to any peers", and with at least one
    it sets the expiry of the digest to the clock plus the cache TTL,
    adds no further send and returns nil. *)
Theorem Forward_relay_outcomes (fuel : nat) (msg : PssMsg) (σ : World)
    (digest : list byte) (err : option Error) :
  To msg ≠ ov_BaseAddr (overlay (pss σ)) →
  storeMsg msg σ = Done (digest, err) σ →
  (checkFwdCache [] digest σ = Done true σ →
   Forward (S fuel) msg σ = Done None σ) ∧
  (checkFwdCache [] digest σ = Done false σ →
   ∀ sent σ1,
     EachConn (ov_conns (overlay (pss σ)) (To msg) 256) (fwdVisit msg digest) 0 σ
       = Done sent σ1 →
     sent = Z.of_nat (length (okSends (newSends σ σ1))) ∧
     (okSends (newSends σ σ1) = [] →
      Forward (S fuel) msg σ = Done (Some ErrUnableToForward) σ1) ∧
     (okSends (newSends σ σ1) ≠ [] →
      ∃ σ2, Forward (S fuel) msg σ = Done None σ2 ∧
            wire σ2 = wire σ1 ∧
            expiresAt <$> fwdcache (pss σ2) !! digest
              = Some (clock σ + cachettl (pss σ)) ∧
            ∀ d, d ≠ digest → fwdcache (pss σ2) !! d = fwdcache (pss σ) !! d)).
Proof.
  intros Hto Hstore. rewrite (Forward_other _ _ _ Hto).
  rewrite (forwardRelay_eval _ _ _ _ Hstore), checkFwdCache_eval.
  split.
  - by intros [= ->].
  - intros [= ->] sent σ1 Hfan. rewrite Hfan.
    apply EachConn_effect in Hfan as (Hp & Hc & Hn & evs & Hw & Hs & _).
    rewrite (newSends_app _ _ _ Hw). split; [lia|]. split.
    + intros Hnil. rewrite Hnil in Hs. simpl in Hs.
      by rewrite decide_True by lia.
    + intros Hsome. rewrite decide_False.
      2: { destruct (okSends evs); [done|]. simpl in Hs. lia. }
      eexists. split; [done|]. simpl. rewrite Hp, Hc.
      split; [done|]. split.
      * by rewrite lookup_insert_eq.
      * intros d Hd. by rewrite lookup_insert_ne.
Qed.

(** C6.  When the send to a visited peer is accepted, the counter goes
    up by one and the iteration ends there exactly when the address of
    the peer is the destination of the message or the peer is outside
    the proximity bin: in that case the peers after it are not
    visited; a peer of the proximity bin other than the destination
    is followed by the visit of the next peer. *)
Theorem fanout_stop_condition (msg : PssMsg) (digest : list byte)
    (op : OverlayConn) (po : Z) (isproxbin : bool)
    (rest : list (OverlayConn * Z * bool)) (sent : Z) (σ : World) (nid : list byte) :
  ID op = Some nid →
  checkFwdCache (Address op) digest σ = Done false σ →
  peer_Send (fwdPool (pss σ) !! nid) msg = SendOk →
  let σ' := log_send (mkSend op msg true) σ in
  (To msg = Address op ∨ isproxbin = false →
   EachConn ((op, po, isproxbin) :: rest) (fwdVisit msg digest) sent σ
     = Done (sent + 1) σ') ∧
  (To msg ≠ Address op → isproxbin = true →
   EachConn ((op, po, isproxbin) :: rest) (fwdVisit msg digest) sent σ
     = EachConn rest (fwdVisit msg digest) (sent + 1) σ').
Proof.
  intros Hid Hskip Hsend σ'. rewrite checkFwdCache_eval in Hskip.
  injection Hskip as Hskip.
  rewrite EachConn_cons, fwdVisit_eval, Hid, Hskip, Hsend. simpl.
  unfold bytes_Equal. split.
  - intros [Hto | ->].
    + by rewrite bool_decide_eq_true_2.
    + by rewrite orb_true_r.
  - intros Hto ->. by rewrite bool_decide_eq_false_2.
Qed.


(** C5 (as amended).  In the fan-out an accepted send to a peer adds
    one to the counter and one entry to the log of sends, and changes
    nothing of the node: the forward cache, and with it the last
    sender of the digest, is after the fan-out what it was before, and
    the counter has gone up by the number of accepted sends.  The peer
    is not recorded: when the iterator hands out again, right after it,
    a peer of the proximity bin that is not the destination and that
    took the message, the peer is sent the message a second time. *)
Theorem fanout_counts_sends (msg : PssMsg) (digest : list byte) :
  (∀ op po isproxbin sent σ nid,
     ID op = Some nid →
     checkFwdCache (Address op) digest σ = Done false σ →
     peer_Send (fwdPool (pss σ) !! nid) msg = SendOk →
     ∃ cont σ', fwdVisit msg digest op po isproxbin sent σ = Done (cont, sent + 1) σ' ∧
                wire σ' = wire σ ++ [mkSend op msg true] ∧
                fwdcache (pss σ') = fwdcache (pss σ)) ∧
  (∀ conns sent σ sent' σ',
     EachConn conns (fwdVisit msg digest) sent σ = Done sent' σ' →
     fwdcache (pss σ') = fwdcache (pss σ) ∧
     sent' = sent + Z.of_nat (length (okSends (newSends σ σ')))) ∧
  (∀ op po po' rest sent σ nid,
     ID op = Some nid →
     checkFwdCache (Address op) digest σ = Done false σ →
     peer_Send (fwdPool (pss σ) !! nid) msg = SendOk →
     To msg ≠ Address op →
     EachConn ((op, po, true) :: (op, po', true) :: rest) (fwdVisit msg digest) sent σ
     = EachConn rest (fwdVisit msg digest) (sent + 1 + 1)
         (log_send (mkSend op msg true) (log_send (mkSend op msg true) σ))).
Proof.
  split; [|split].
  3:{ intros op po po' rest sent σ nid Hid Hskip Hsend Hto.
      rewrite checkFwdCache_eval in Hskip. injection Hskip as Hskip.
      assert (Hgo : negb (bytes_Equal (To msg) (Address op) || negb true) = true).
      { unfold bytes_Equal. by rewrite bool_decide_eq_false_2. }
      rewrite EachConn_cons, fwdVisit_eval, Hid, Hskip, Hsend, Hgo.
      cbn [fst snd].
      rewrite EachConn_cons, fwdVisit_eval, Hid.
      change (cacheSkips (Address op) digest (pss (log_send ?ev σ)) (clock (log_send ?ev σ)))
        with (cacheSkips (Address op) digest (pss σ) (clock σ)).
      change (fwdPool (pss (log_send ?ev σ))) with (fwdPool (pss σ)).
      by rewrite Hskip, Hsend, Hgo. }
  - intros op po pb sent σ nid Hid Hskip Hsend.
    rewrite checkFwdCache_eval in Hskip. injection Hskip as Hskip.
    rewrite fwdVisit_eval, Hid, Hskip, Hsend. by do 2 eexists.
  - intros conns sent σ sent' σ' Hfan.
    apply EachConn_effect in Hfan as (Hp & _ & _ & evs & Hw & Hs & _).
    rewrite (newSends_app _ _ _ Hw), Hp. done.
Qed.
End Forwarder.

(** Evaluating a closed term of a small type. *)
Ltac by_eval := vm_compute; reflexivity.

(** A call on a scenario returns the value [a]: by evaluation of what it
    returns. *)
Ltac ran :=
  match goal with
  | |- ?m ?σ = Done ?a _ => apply (returned_after m σ a); by_eval
  end.

(** The guard of a scenario: the message is for another node, its
    digest is [digestD]. *)
Ltac scenario_digest :=
  match goal with
  | |- To _ ≠ _ => vm_compute; discriminate
  | |- storeMsg Mem.msgD ?σ = _ =>
      apply (storeMsg_Okay Mem.msgD σ Mem.R); [by_eval | vm_compute; lia]
  | |- checkFwdCache _ _ _ = _ => rewrite checkFwdCache_eval; f_equal; by_eval
  end.

Lemma Forward_relay_outcomes_witness :
  returned (Forward 1 Mem.msgD Scenario.soonAfter) = Some None ∧
  newSends Scenario.soonAfter (after (Forward 1 Mem.msgD) Scenario.soonAfter) = [] ∧
  returned (Forward 1 Mem.msgD Scenario.alone) = Some (Some ErrUnableToForward) ∧
  ∃ σ2, Forward 1 Mem.msgD Scenario.firstReceipt = Done None σ2 ∧
        newSends Scenario.firstReceipt σ2 = [mkSend (Mem.conn Mem.P2) Mem.msgD true] ∧
        expiresAt <$> fwdcache (pss σ2) !! Mem.digestD = Some 110.
Proof.
  assert (Hflood : Forward 1 Mem.msgD Scenario.soonAfter = Done None Scenario.soonAfter).
  { apply (Forward_relay_outcomes 0 Mem.msgD Scenario.soonAfter Mem.digestD None);
      scenario_digest. }
  split; [by rewrite Hflood|].
  split; [unfold after; rewrite Hflood; unfold newSends; apply drop_all|].
  split.
  - assert (Hfan : EachConn (ov_conns (overlay (pss Scenario.alone)) (To Mem.msgD) 256)
                     (fwdVisit Mem.msgD Mem.digestD) 0 Scenario.alone
                   = Done 0 (after (EachConn (ov_conns (overlay (pss Scenario.alone))
                                        (To Mem.msgD) 256)
                                      (fwdVisit Mem.msgD Mem.digestD) 0) Scenario.alone))
      by (apply returned_after; by_eval).
    destruct (proj2 (Forward_relay_outcomes 0 Mem.msgD Scenario.alone Mem.digestD None
                       ltac:(scenario_digest) ltac:(scenario_digest))
                ltac:(scenario_digest) _ _ Hfan) as (_ & Hnone & _).
    rewrite Hnone; [reflexivity | by_eval].
  - assert (Hfan : EachConn (ov_conns (overlay (pss Scenario.firstReceipt)) (To Mem.msgD) 256)
                     (fwdVisit Mem.msgD Mem.digestD) 0 Scenario.firstReceipt
                   = Done 1 (after (EachConn (ov_conns (overlay (pss Scenario.firstReceipt))
                                        (To Mem.msgD) 256)
                                      (fwdVisit Mem.msgD Mem.digestD) 0) Scenario.firstReceipt))
      by (apply returned_after; by_eval).
    destruct (proj2 (Forward_relay_outcomes 0 Mem.msgD Scenario.firstReceipt Mem.digestD None
                       ltac:(scenario_digest) ltac:(scenario_digest))
                ltac:(scenario_digest) _ _ Hfan) as (_ & _ & Hsome).
    destruct Hsome as (σ2 & Hfwd & Hwire & Hexp & _).
    { intros Hnil. apply (f_equal length) in Hnil. vm_compute in Hnil. discriminate Hnil. }
    exists σ2. split; [exact Hfwd|]. split; [|exact Hexp].
    unfold newSends. rewrite Hwire. by_eval.
Defined.

Lemma fanout_stop_condition_witness :
  EachConn Scenario.bin (fwdVisit Mem.msgD Mem.digestD) 0 Scenario.inBin
    = EachConn (tail Scenario.bin) (fwdVisit Mem.msgD Mem.digestD) 1
        (log_send (mkSend (Mem.conn Mem.P1) Mem.msgD true) Scenario.inBin) ∧
  EachConn Scenario.twoPeers (fwdVisit Mem.msgD Mem.digestD) 0 Scenario.start
    = Done 1 (log_send (mkSend (Mem.conn Mem.P1) Mem.msgD true) Scenario.start) ∧
  EachConn Scenario.direct (fwdVisit Mem.msgD Mem.digestD) 0 Scenario.withRecipient
    = Done 1 (log_send (mkSend (Mem.conn Mem.R) Mem.msgD true) Scenario.withRecipient).
Proof.
  split; [|split].
  - apply (fanout_stop_condition Mem.msgD Mem.digestD (Mem.conn Mem.P1) 5 true
             (tail Scenario.bin) 0 Scenario.inBin Mem.P1);
      [reflexivity | scenario_digest | by_eval | vm_compute; discriminate | reflexivity].
  - apply (fanout_stop_condition Mem.msgD Mem.digestD (Mem.conn Mem.P1) 5 false
             (tail Scenario.twoPeers) 0 Scenario.start Mem.P1);
      [reflexivity | scenario_digest | by_eval | right; reflexivity].
  - apply (fanout_stop_condition Mem.msgD Mem.digestD (Mem.conn Mem.R) 256 true
             (tail Scenario.direct) 0 Scenario.withRecipient Mem.R);
      [reflexivity | scenario_digest | by_eval | left; reflexivity].
Defined.

(** The three peers of the proximity bin get the message, in order. *)
Example proxbin_multicast :
  Address <$> (ev_conn <$> wire (after (Forward 1 Mem.msgD) Scenario.inBin))
  = [Mem.P1; Mem.P2; Mem.P3].
Proof. by_eval. Qed.



Lemma fanout_counts_sends_witness :
  let σ' := after (EachConn Scenario.bin (fwdVisit Mem.msgD Mem.digestD) 0)
                  Scenario.inBin in
  fwdcache (pss σ') = fwdcache (pss Scenario.inBin) ∧
  3 = 0 + Z.of_nat (length (okSends (newSends Scenario.inBin σ'))).
Proof.
  intros σ'.
  apply (proj1 (proj2 (fanout_counts_sends Mem.msgD Mem.digestD))
           Scenario.bin 0 Scenario.inBin).
  apply returned_after. by_eval.
Defined.

(** C5, counterexample.  The iterator hands out [P2] twice.  The send
    to [P2] is accepted and counted, and the cache has no last sender
    for the digest afterwards; [P2] is sent to a second time; at the end
    of [Forward] the entry of the digest has an expiry and no last
    sender. *)
Lemma fanout_records_no_sender :
  let visit := fwdVisit Mem.msgD Mem.digestD (Mem.conn Mem.P2) 4 true 0 in
  let σ2 := after (Forward 1 Mem.msgD) Scenario.repeated in
  returned (visit Scenario.repeated) = Some (true, 1) ∧
  wire (after visit Scenario.repeated) = [mkSend (Mem.conn Mem.P2) Mem.msgD true] ∧
  receivedFrom <$> fwdcache (pss (after visit Scenario.repeated)) !! Mem.digestD
    ≠ Some Mem.P2 ∧
  returned (Forward 1 Mem.msgD Scenario.repeated) = Some None ∧
  wire σ2 = [mkSend (Mem.conn Mem.P2) Mem.msgD true;
             mkSend (Mem.conn Mem.P2) Mem.msgD true] ∧
  fwdcache (pss σ2) !! Mem.digestD = Some (mkEntry 110 []).
Proof.
  intros visit σ2.
  split; [by_eval|]. split; [by_eval|].
  split; [vm_compute; discriminate|].
  split; [by_eval|]. split; by_eval.
Qed.

(** ** The key registry *)

Section Registry.
Context `{Host}.

Lemma peerAt_storePeer (id topic : list byte) (psp : pssPeer) (p : Pss) :
  peerAt id topic (storePeer id topic psp p) = Some psp.
Proof.
  unfold peerAt, storePeer. simpl. rewrite lookup_insert_eq. simpl.
  by rewrite lookup_insert_eq.
Qed.

Lemma peerAt_storePeer_other (id topic id' topic' : list byte) (psp : pssPeer) (p : Pss) :
  (id', topic') ≠ (id, topic) →
  peerAt id' topic' (storePeer id topic psp p) = peerAt id' topic' p.
Proof.
  intros Hne. unfold peerAt, storePeer. simpl.
  destruct (decide (id' = id)) as [->|Hid].
  - rewrite lookup_insert_eq. simpl. rewrite lookup_insert_ne by congruence.
    by destruct (peerPool p !! id).
  - by rewrite lookup_insert_ne.
Qed.

Lemma storePeer_storePeer (id topic : list byte) (x y : pssPeer) (p : Pss) :
  storePeer id topic x (storePeer id topic y p) = storePeer id topic x p.
Proof.
  unfold storePeer. simpl. rewrite lookup_insert_eq. simpl.
  by rewrite !insert_insert_eq.
Qed.

Lemma preparePeerTopic_eval (id topic : list byte) (σ : World) :
  preparePeerTopic id topic σ =
  match peerAt id topic (pss σ) with
  | Some _ => Done false σ
  | None => Done true (with_pss (storePeer id topic emptyPeer) σ)
  end.
Proof.
  unfold preparePeerTopic, peerAt, storePeer, with_pss. monad_simpl.
  destruct (peerPool (pss σ) !! id) as [m|] eqn:Hm; simpl.
  - by destruct (m !! topic).
  - by rewrite lookup_empty.
Qed.

Lemma SetOutgoingSymmetricKey_eval (addr topic key : list byte) (σ : World) :
  SetOutgoingSymmetricKey addr topic key σ =
  match AddSymKeyDirect key (w (pss σ)) with
  | (Fail e, w') => Done (Some e) (with_pss (set_w w') σ)
  | (Okay keyid, w') =>
      Done None (with_pss (λ p, installOutbound addr topic keyid (clock σ) (set_w w' p)) σ)
  end.
Proof.
  unfold SetOutgoingSymmetricKey. unfold bind at 1. unfold w_AddSymKeyDirect.
  destruct (AddSymKeyDirect key (w (pss σ))) as [[keyid|e] w']; [|done].
  unfold bind at 1. rewrite preparePeerTopic_eval. unfold installOutbound.
  destruct σ as [p now sends ptr]. simpl.
  change (peerAt addr topic (set_w w' p)) with (peerAt addr topic p).
  destruct (peerAt addr topic p) as [psp|] eqn:Hat; monad_simpl.
  - change (peerAt addr topic (set_w w' p)) with (peerAt addr topic p).
    rewrite Hat. unfold ret, with_pss. simpl.
    change (peerAt addr topic (set_w w' p)) with (peerAt addr topic p).
    by rewrite Hat.
  - rewrite peerAt_storePeer. unfold ret, with_pss. simpl.
    change (peerAt addr topic (set_w w' p)) with (peerAt addr topic p).
    by rewrite Hat, storePeer_storePeer.
Qed.

Lemma SetIncomingSymmetricKey_eval (addr topic key : list byte) (σ : World) :
  SetIncomingSymmetricKey addr topic key σ =
  match AddSymKeyDirect key (w (pss σ)) with
  | (Fail e, w') => Done (Some e) (with_pss (set_w w') σ)
  | (Okay keyid, w') =>
      Done None (with_pss (λ p, installInbound addr topic keyid (clock σ) (set_w w' p)) σ)
  end.
Proof.
  unfold SetIncomingSymmetricKey. unfold bind at 1. unfold w_AddSymKeyDirect.
  destruct (AddSymKeyDirect key (w (pss σ))) as [[keyid|e] w']; [|done].
  unfold bind at 1. rewrite preparePeerTopic_eval. unfold installInbound.
  destruct σ as [p now sends ptr]. simpl.
  change (peerAt addr topic (set_w w' p)) with (peerAt addr topic p).
  destruct (peerAt addr topic p) as [psp|] eqn:Hat; monad_simpl.
  - change (peerAt addr topic (set_recvsymkeys ?l (set_w w' p)))
      with (peerAt addr topic p).
    rewrite Hat. unfold ret, with_pss. simpl.
    change (peerAt addr topic (set_w w' p)) with (peerAt addr topic p).
    by rewrite Hat.
  - change (peerAt addr topic (set_recvsymkeys ?l (storePeer ?a ?t ?x (set_w w' p))))
      with (peerAt addr topic (storePeer a t x p)).
    rewrite peerAt_storePeer. unfold ret, with_pss. simpl.
    change (peerAt addr topic (set_w w' p)) with (peerAt addr topic p).
    rewrite Hat. simpl. do 3 f_equal.
    set (x := mkPeer _ _ _ _ _).
    change (storePeer addr topic x (set_recvsymkeys ?l (storePeer ?a ?t ?y ?q)))
      with (set_recvsymkeys l (storePeer addr topic x (storePeer a t y q))).
    by rewrite storePeer_storePeer.
Qed.

Lemma AddPublicKey_eval (addr topic pk : list byte) (σ : World) :
  AddPublicKey addr topic pk σ =
  Done tt (with_pss (λ p, let psp := default emptyPeer (peerAt addr topic p) in
                          storePeer addr topic
                            (mkPeer (rw psp) pk (recvsymkey psp) (sendsymkey psp)
                                    (symkeyexpires psp)) p) σ).
Proof.
  unfold AddPublicKey. unfold bind at 1. rewrite preparePeerTopic_eval.
  destruct σ as [p now sends ptr]. simpl.
  destruct (peerAt addr topic p) as [psp|] eqn:Hat; monad_simpl.
  - rewrite Hat. unfold ret, with_pss. simpl. by rewrite Hat.
  - rewrite peerAt_storePeer. unfold ret, with_pss. simpl.
    by rewrite Hat, storePeer_storePeer.
Qed.

Lemma isSecured_peerAt (id topic : list byte) (σ : World) (psp : pssPeer) :
  peerAt id topic (pss σ) = Some psp →
  isSecured id topic σ =
  Done (negb (Before (symkeyexpires psp) (clock σ))
        && negb (bool_decide (recvsymkey psp = "") || bool_decide (sendsymkey psp = ""))) σ.
Proof.
  rewrite isSecured_eval. unfold peerAt.
  destruct (peerPool (pss σ) !! id) as [m|]; [|done]. simpl. by intros ->.
Qed.

Lemma peerAt_installOutbound (addr topic : list byte) (keyid : string) (now : Time)
    (p : Pss) :
  peerAt addr topic (installOutbound addr topic keyid now p) =
  Some (let psp := default emptyPeer (peerAt addr topic p) in
        mkPeer (rw psp) (pubkey psp) (recvsymkey psp) keyid (now + symkeyValidity)).
Proof. unfold installOutbound. apply peerAt_storePeer. Qed.

Lemma peerAt_installInbound (addr topic : list byte) (keyid : string) (now : Time)
    (p : Pss) :
  peerAt addr topic (installInbound addr topic keyid now p) =
  Some (let psp := default emptyPeer (peerAt addr topic p) in
        mkPeer (rw psp) (pubkey psp) keyid (sendsymkey psp) (now + symkeyValidity)).
Proof.
  unfold installInbound.
  change (peerAt addr topic (set_reverseKeyPool ?r ?q)) with (peerAt addr topic q).
  rewrite peerAt_storePeer. done.
Qed.

Lemma reverseAt_installInbound (addr topic : list byte) (keyid : string) (now : Time)
    (p : Pss) :
  reverseAt keyid topic (installInbound addr topic keyid now p) = Some addr.
Proof.
  unfold reverseAt, installInbound. simpl. rewrite lookup_insert_eq. simpl.
  by rewrite lookup_insert_eq.
Qed.

Lemma reverseAt_installInbound_other (addr topic : list byte) (keyid : string)
    (now : Time) (p : Pss) (K : string) (t : list byte) :
  (K, t) ≠ (keyid, topic) →
  reverseAt K t (installInbound addr topic keyid now p) = reverseAt K t p.
Proof.
  intros Hne. unfold reverseAt, installInbound. simpl.
  destruct (decide (K = keyid)) as [->|HK].
  - rewrite lookup_insert_eq. simpl. rewrite lookup_insert_ne by congruence.
    by destruct (reverseKeyPool p !! keyid).
  - by rewrite lookup_insert_ne.
Qed.

Lemma symkeyValidity_pos : 0 < symkeyValidity.
Proof. reflexivity. Qed.
End Registry.

(** ** The handshake

    The lemmas on [handshake] say what the lines after the type
    assertion of [Process] do when they run. *)

Section Handshake.
Context `{Host}.

Lemma handshake_secured (fwd : PssMsg → M (option Error)) (env : Envelope)
    (keymsg : pssKeyMsg) (σ σ1 : World) :
  SetOutgoingSymmetricKey (to_potaddr (From_ keymsg)) (env_Topic env) (Key keymsg) σ
    = Done None σ1 →
  isSecured (to_potaddr (From_ keymsg)) (env_Topic env) σ1 = Done true σ1 →
  handshake fwd env keymsg σ = Done None σ1.
Proof.
  intros Hout Hsec. unfold handshake. unfold bind at 1. rewrite Hout.
  unfold bind at 1. by rewrite Hsec.
Qed.

Lemma handshake_unsecured (fwd : PssMsg → M (option Error)) (env : Envelope)
    (keymsg : pssKeyMsg) (σ σ1 : World) (genid : string) (w2 : Whisper)
    (fresh : list byte) (σ2 : World) :
  SetOutgoingSymmetricKey (to_potaddr (From_ keymsg)) (env_Topic env) (Key keymsg) σ
    = Done None σ1 →
  isSecured (to_potaddr (From_ keymsg)) (env_Topic env) σ1 = Done false σ1 →
  GenerateSymKey (w (pss σ1)) = (Okay genid, w2) →
  GetSymKey genid w2 = Okay fresh →
  SetIncomingSymmetricKey (to_potaddr (From_ keymsg)) (env_Topic env) fresh
    (with_pss (set_w w2) σ1) = Done None σ2 →
  handshake fwd env keymsg σ
  = (SendSym fwd (From_ keymsg) (env_Topic env) fresh ;;; ret None) σ2.
Proof.
  intros Hout Hsec Hgen Hget Hin. unfold handshake. unfold bind at 1. rewrite Hout.
  unfold bind at 1. rewrite Hsec.
  unfold bind at 1, w_GenerateSymKey. rewrite Hgen.
  unfold bind at 1, w_GetSymKey, gets. simpl. rewrite Hget.
  unfold bind at 1. by rewrite Hin.
Qed.

(** [SendSym] on a secured pair whose outbound key the codec finds and
    seals with. *)
Lemma SendSym_secured (fwd : PssMsg → M (option Error)) (to topic msg : list byte)
    (σ : World) (psp : pssPeer) (symkey : list byte) (sm : SentMessage) (env : Envelope) :
  peerAt (to_potaddr to) topic (pss σ) = Some psp →
  isSecured (to_potaddr to) topic σ = Done true σ →
  GetSymKey (sendsymkey psp) (w (pss σ)) = Okay symkey →
  NewSentMessage (replyParams symkey topic msg) = Okay sm →
  Wrap sm (replyParams symkey topic msg) = Okay env →
  SendSym fwd to topic msg σ = fwd (mkMsg to env) σ.
Proof.
  intros Hat Hsec Hkey Hnew Hwrap. unfold SendSym. unfold bind at 1. rewrite Hsec.
  simpl. unfold bind at 1. unfold bind at 1, gets at 1. rewrite Hat. simpl.
  unfold bind at 1, w_GetSymKey, gets. rewrite Hkey.
  unfold send. fold (replyParams symkey topic msg). by rewrite Hnew, Hwrap.
Qed.

(** C2.  The handshake is not reached.  [Process] hands the payload
    of the opened message, which is a byte slice, to the type assertion
    to a pointer to [pssKeyMsg], and the assertion fails on it.  So for
    every message that no symmetric key opens and that the private key
    of the node opens with a valid signature, whatever its payload,
    [Process] returns the error "invalid handshake msg" and the world
    is as before: no outbound key is installed, no key is generated,
    no inbound key is installed and nothing is sent. *)
Theorem Process_rejects_handshake (fwd : PssMsg → M (option Error))
    (pssmsg : PssMsg) (σ : World) (recvmsg : ReceivedMessage) :
  trySymKeys (w (pss σ)) (reverseKeyPool (pss σ)) (Payload_ pssmsg)
             (recvsymkeys (pss σ)) = None →
  OpenAsymmetric (Payload_ pssmsg) (privatekey (pss σ)) = Okay recvmsg →
  Validate recvmsg = true →
  as_pssKeyMsg recvmsg = None ∧
  Process fwd pssmsg σ = Done (Some ErrInvalidHandshakeMsg) σ.
Proof.
  intros Hsym Hopen Hvalid. split; [done|].
  unfold Process. unfold bind at 1, gets at 1. simpl. rewrite Hsym.
  unfold processAsym, bind, gets. simpl. by rewrite Hopen, Hvalid.
Qed.
End Handshake.

(** The node [listening] gets the signed key message of [P1], which is
    connected: it answers with the error, installs no key for [P1] and
    sends nothing. *)
Lemma Process_rejects_handshake_witness :
  Process (Forward 1) Scenario.msgHandshake Scenario.listening
    = Done (Some ErrInvalidHandshakeMsg) Scenario.listening ∧
  peerAt Mem.P1 Mem.T (pss Scenario.listening) = None ∧
  recvsymkeys (pss Scenario.listening) = [] ∧
  wire Scenario.listening = [].
Proof.
  split; [|split; [by_eval | split; by_eval]].
  apply (Process_rejects_handshake (Forward 1) Scenario.msgHandshake Scenario.listening
           (Mem.mkRecv Scenario.keyMsgBytes true)); by_eval.
Defined.

(** ** What the operations keep of the registry *)

Section Invariant.
Context `{Host}.

(** *** Composing calls *)

Section Preorder.
Variable R : Pss → Pss → Prop.
Hypothesis R_refl : ∀ p, R p p.
Hypothesis R_trans : ∀ p q r, R p q → R q r → R p r.

Lemma preserves_ret {A} (a : A) : preserves R (ret a).
Proof. intros σ a' σ' [= _ <-]. apply R_refl. Qed.

Lemma preserves_panic {A} : preserves R (panic (A := A)).
Proof. by intros σ a σ'. Qed.

Lemma preserves_gets {A} (f : Pss → A) : preserves R (gets f).
Proof. intros σ a σ' [= _ <-]. apply R_refl. Qed.

Lemma preserves_time_Now : preserves R time_Now.
Proof. intros σ a σ' [= _ <-]. apply R_refl. Qed.

Lemma preserves_deref {A} (o : option A) : preserves R (deref o).
Proof. destruct o; [apply preserves_ret | apply preserves_panic]. Qed.

Lemma preserves_bind {A B} (m : M A) (k : A → M B) :
  preserves R m → (∀ a, preserves R (k a)) → preserves R (bind m k).
Proof.
  intros Hm Hk σ b σ'. unfold bind.
  destruct (m σ) as [a σ1| |] eqn:Hrun; try done.
  intros Hrun'. eapply R_trans; [by eapply Hm | by eapply Hk].
Qed.

Lemma preserves_modify (f : Pss → Pss) :
  (∀ p, R p (f p)) → preserves R (modify f).
Proof. intros Hf σ a σ' [= _ <-]. apply Hf. Qed.

(** A call that leaves the node alone. *)
Lemma preserves_readonly {A} (m : M A) :
  (∀ σ a σ', m σ = Done a σ' → pss σ' = pss σ) → preserves R m.
Proof. intros Hm σ a σ' Hrun. rewrite (Hm _ _ _ Hrun). apply R_refl. Qed.
End Preorder.

(** *** What keeps the invariant *)

(** The records with an inbound key are records that were there with
    that key, the index and the try list are the same, and the codec
    has forgotten no id. *)
Lemma registryInv_shrink (p p' : Pss) :
  (∀ a t psp', peerAt a t p' = Some psp' → recvsymkey psp' ≠ "" →
               ∃ psp, peerAt a t p = Some psp ∧ recvsymkey psp = recvsymkey psp') →
  reverseKeyPool p' = reverseKeyPool p →
  recvsymkeys p' = recvsymkeys p →
  (∀ K, known K (w p) → known K (w p')) →
  registryInv p → registryInv p'.
Proof.
  intros Hpeers Hrev Hkeys Hw (Hin & Htry & Hknown).
  unfold registryInv, inboundIndexed, tryListIndexed, indexKnown, reverseAt.
  rewrite Hrev, Hkeys. split; [|split].
  - intros a t psp' Hat Hne.
    destruct (Hpeers a t psp' Hat Hne) as (psp & Hat0 & Heq).
    rewrite <- Heq. apply Hin; [done|]. by rewrite Heq.
  - exact Htry.
  - intros K t a HK. apply Hw. by eapply Hknown.
Qed.

Lemma registryInv_same (p p' : Pss) :
  peerPool p' = peerPool p → reverseKeyPool p' = reverseKeyPool p →
  recvsymkeys p' = recvsymkeys p → w p' = w p →
  registryInv p → registryInv p'.
Proof.
  intros Hpool Hrev Hkeys Hw. apply registryInv_shrink; try done.
  - intros a t psp'. unfold peerAt. rewrite Hpool. eauto.
  - by rewrite Hw.
Qed.

(** Storing a record that keeps the inbound key of the pair. *)
Lemma registryInv_storePeer (id topic : list byte) (x : pssPeer) (p : Pss) :
  recvsymkey x = recvsymkey (default emptyPeer (peerAt id topic p)) →
  registryInv p → registryInv (storePeer id topic x p).
Proof.
  intros Hx. apply registryInv_shrink; try done.
  intros a t psp' Hat Hne.
  destruct (decide ((a, t) = (id, topic))) as [[= -> ->]|Hother].
  - rewrite peerAt_storePeer in Hat. injection Hat as <-.
    rewrite Hx in Hne |- *.
    destruct (peerAt id topic p) as [psp|]; [eauto|done].
  - rewrite peerAt_storePeer_other in Hat by done. eauto.
Qed.

Lemma registryInv_set_w (w' : Whisper) (p : Pss) :
  (∀ K, known K (w p) → known K w') →
  registryInv p → registryInv (set_w w' p).
Proof. intros Hw. by apply registryInv_shrink; [eauto|..]. Qed.

Lemma registryInv_installOutbound (addr topic : list byte) (keyid : string)
    (now : Time) (p : Pss) :
  registryInv p → registryInv (installOutbound addr topic keyid now p).
Proof. intros Hinv. unfold installOutbound. by apply registryInv_storePeer. Qed.

Lemma peerAt_installInbound_other (addr topic : list byte) (keyid : string)
    (now : Time) (p : Pss) (a t : list byte) :
  (a, t) ≠ (addr, topic) →
  peerAt a t (installInbound addr topic keyid now p) = peerAt a t p.
Proof.
  intros Hne. unfold installInbound.
  change (peerAt a t (set_reverseKeyPool ?r ?q)) with (peerAt a t q).
  by rewrite peerAt_storePeer_other.
Qed.

(** Installing an inbound key under an id that the codec did not know
    before. *)
Lemma registryInv_installInbound (addr topic : list byte) (keyid : string)
    (now : Time) (w' : Whisper) (p : Pss) :
  ¬ known keyid (w p) → known keyid w' →
  (∀ K, known K (w p) → known K w') →
  registryInv p → registryInv (installInbound addr topic keyid now (set_w w' p)).
Proof.
  intros Hfresh Hnew Hmono (Hin & Htry & Hknown).
  assert (Hold : ∀ K t a, reverseAt K t p = Some a →
            reverseAt K t (installInbound addr topic keyid now (set_w w' p)) = Some a).
  { intros K t a HK. rewrite reverseAt_installInbound_other; [done|].
    intros [= -> ->]. apply Hfresh. by eapply Hknown. }
  split; [|split].
  - intros a t psp' Hat Hne.
    destruct (decide ((a, t) = (addr, topic))) as [[= -> ->]|Hother].
    + rewrite peerAt_installInbound in Hat. injection Hat as <-.
      apply (reverseAt_installInbound addr topic keyid now (set_w w' p)).
    + rewrite peerAt_installInbound_other in Hat by done.
      apply Hold. by apply (Hin a t psp').
  - intros K HK.
    change (K ∈ recvsymkeys p ++ [keyid]) in HK.
    apply elem_of_app in HK as [HK | ->%list_elem_of_singleton].
    + destruct (Htry K HK) as (t & a & Hrev). exists t, a. by apply Hold.
    + exists topic, addr. apply reverseAt_installInbound.
  - intros K t a HK.
    change (w (installInbound addr topic keyid now (set_w w' p))) with w'.
    destruct (decide ((K, t) = (keyid, topic))) as [[= -> ->]|Hother]; [done|].
    rewrite reverseAt_installInbound_other in HK by done.
    apply Hmono. by eapply Hknown.
Qed.

(** *** The calls that touch neither the registry nor the codec *)

Section Frame.
Variable R : Pss → Pss → Prop.
Hypothesis R_refl : ∀ p, R p p.
Hypothesis R_trans : ∀ p q r, R p q → R q r → R p r.
Hypothesis R_frame : ∀ p p',
  peerPool p' = peerPool p → reverseKeyPool p' = reverseKeyPool p →
  recvsymkeys p' = recvsymkeys p → w p' = w p → R p p'.

Lemma preserves_Run (id : list byte) (pp : ProtoPeer) : preserves R (Run id pp).
Proof. apply preserves_modify. intros p. by apply R_frame. Qed.

Lemma preserves_Register (topic : list byte) (h : Handler) :
  preserves R (Register topic h).
Proof. intros σ a σ' [= _ <-]. by apply R_frame. Qed.

Lemma preserves_deregister (topic : list byte) (ptr : positive) :
  preserves R (deregister topic ptr).
Proof.
  apply preserves_bind; [done | by apply preserves_gets |]. intros hmap.
  destruct (hmap !! topic); [|by apply preserves_ret].
  case_decide; apply preserves_modify; intros p; by apply R_frame.
Qed.

Lemma preserves_storeMsg (msg : PssMsg) : preserves R (storeMsg msg).
Proof.
  apply preserves_readonly; [done|]. intros σ a σ' Hrun.
  by rewrite (storeMsg_world _ _ _ _ Hrun).
Qed.

Lemma preserves_checkFwdCache (c d : list byte) : preserves R (checkFwdCache c d).
Proof.
  apply preserves_readonly; [done|]. intros σ a σ'.
  rewrite checkFwdCache_eval. by intros [= _ <-].
Qed.

Lemma preserves_addFwdCacheSender (addr digest : list byte) :
  preserves R (addFwdCacheSender addr digest).
Proof.
  apply preserves_bind; [done | by apply preserves_gets |]. intros cache.
  apply preserves_bind; [done | | intros; by apply preserves_ret].
  apply preserves_modify. intros p. by apply R_frame.
Qed.

Lemma preserves_addFwdCacheExpire (digest : list byte) :
  preserves R (addFwdCacheExpire digest).
Proof.
  apply preserves_bind; [done | by apply preserves_gets |]. intros cache.
  apply preserves_bind; [done | by apply preserves_time_Now |]. intros now.
  apply preserves_bind; [done | by apply preserves_gets |]. intros ttl.
  apply preserves_bind; [done | | intros; by apply preserves_ret].
  apply preserves_modify. intros p. by apply R_frame.
Qed.

Lemma preserves_AddToCache (addr : list byte) (msg : PssMsg) :
  preserves R (AddToCache addr msg).
Proof.
  apply preserves_bind; [done | apply preserves_storeMsg |]. intros r.
  destruct r.2; [by apply preserves_ret | apply preserves_addFwdCacheSender].
Qed.

Lemma preserves_isSecured (id topic : list byte) : preserves R (isSecured id topic).
Proof.
  apply preserves_readonly; [done|]. intros σ a σ'. rewrite isSecured_eval.
  destruct (peerPool (pss σ) !! id) as [m|]; [|by intros [= _ <-]].
  destruct (m !! topic); [by intros [= _ <-]|done].
Qed.

Lemma preserves_EachConn (msg : PssMsg) (digest : list byte)
    (conns : list (OverlayConn * Z * bool)) (sent : Z) :
  preserves R (EachConn conns (fwdVisit msg digest) sent).
Proof.
  apply preserves_readonly; [done|]. intros σ a σ' Hrun.
  by apply EachConn_effect in Hrun as (-> & _).
Qed.

Lemma preserves_forwardRelay (msg : PssMsg) : preserves R (forwardRelay msg).
Proof.
  apply preserves_bind; [done | apply preserves_storeMsg |]. intros d.
  apply preserves_bind; [done | apply preserves_checkFwdCache |]. intros guard.
  destruct guard; [by apply preserves_ret|].
  apply preserves_bind; [done | by apply preserves_gets |]. intros conns.
  apply preserves_bind; [done | apply preserves_EachConn |]. intros sent.
  case_decide; [by apply preserves_ret|].
  apply preserves_bind; [done | apply preserves_addFwdCacheExpire |].
  intros; by apply preserves_ret.
Qed.
End Frame.

(** *** The dispatcher and the forwarder *)

Section Dispatching.
Variable R : Pss → Pss → Prop.
Hypothesis R_refl : ∀ p, R p p.
Hypothesis R_trans : ∀ p q r, R p q → R q r → R p r.
Hypothesis R_frame : ∀ p p',
  peerPool p' = peerPool p → reverseKeyPool p' = reverseKeyPool p →
  recvsymkeys p' = recvsymkeys p → w p' = w p → R p p'.
Hypothesis R_out : ∀ a t k, preserves R (SetOutgoingSymmetricKey a t k).
Hypothesis R_in : ∀ a t k, preserves R (SetIncomingSymmetricKey a t k).
Hypothesis R_gen : preserves R w_GenerateSymKey.
Hypothesis R_handler : ∀ h payload from, preserves R (call_Handler h payload from).

Lemma preserves_runHandlers (hs : list (positive * Handler)) (payload from : list byte) :
  preserves R (runHandlers hs payload from).
Proof.
  induction hs as [|[ptr f] rest IH]; simpl; [by apply preserves_ret|].
  apply preserves_bind; [done | apply R_handler |]. intros err.
  destruct err; [by apply preserves_ret | exact IH].
Qed.

Section Forwarder.
Variable fwd : PssMsg → M (option Error).
Hypothesis R_fwd : ∀ m, preserves R (fwd m).

Lemma preserves_send (to topic msg : list byte) (wparams : MessageParams Float64) :
  preserves R (send fwd to topic msg wparams).
Proof.
  unfold send. destruct (NewSentMessage wparams); [|by apply preserves_ret].
  destruct (Wrap _ _); [apply R_fwd | by apply preserves_ret].
Qed.

Lemma preserves_SendSym (to topic msg : list byte) :
  preserves R (SendSym fwd to topic msg).
Proof.
  apply preserves_bind; [done | by apply preserves_isSecured |]. intros secured.
  destruct secured; simpl; [|by apply preserves_ret].
  apply preserves_bind; [done | |]. 
  { apply preserves_bind; [done | by apply preserves_gets |]. intros o.
    by apply preserves_deref. }
  intros psp. apply preserves_bind; [done | by apply preserves_gets |]. intros r.
  destruct r; [apply preserves_send | by apply preserves_ret].
Qed.

Lemma preserves_SendAsym (to topic msg : list byte) :
  preserves R (SendAsym fwd to topic msg).
Proof.
  apply preserves_bind; [done | |].
  { apply preserves_bind; [done | by apply preserves_gets |]. intros o.
    by apply preserves_deref. }
  intros psp. apply preserves_bind; [done | by apply preserves_gets |]. intros priv.
  apply preserves_send.
Qed.

Lemma preserves_handshake (env : Envelope) (keymsg : pssKeyMsg) :
  preserves R (handshake fwd env keymsg).
Proof.
  apply preserves_bind; [done | apply R_out |]. intros err.
  destruct err; [by apply preserves_ret|].
  apply preserves_bind; [done | by apply preserves_isSecured |]. intros secured.
  destruct secured; [by apply preserves_ret|].
  apply preserves_bind; [done | apply R_gen |]. intros r.
  destruct r; [|by apply preserves_ret].
  apply preserves_bind; [done | by apply preserves_gets |]. intros r'.
  destruct r'; [|by apply preserves_ret].
  apply preserves_bind; [done | apply R_in |]. intros err'.
  destruct err'; [by apply preserves_ret|].
  apply preserves_bind; [done | apply preserves_SendSym |].
  intros; by apply preserves_ret.
Qed.

Lemma preserves_processAsym (env : Envelope) : preserves R (processAsym fwd env).
Proof.
  apply preserves_bind; [done | by apply preserves_gets |]. intros priv.
  destruct (OpenAsymmetric env priv); [|by apply preserves_ret].
  destruct (negb _); [by apply preserves_ret|].
  destruct (as_pssKeyMsg _); [apply preserves_handshake | by apply preserves_ret].
Qed.

Lemma preserves_Process (pssmsg : PssMsg) : preserves R (Process fwd pssmsg).
Proof.
  apply preserves_bind; [done | by apply preserves_gets |]. intros p.
  destruct (trySymKeys _ _ _ _) as [[recvmsg from]|]; [|apply preserves_processAsym].
  apply preserves_bind; [done | by apply preserves_isSecured |]. intros secured.
  destruct secured; simpl; [|by apply preserves_ret].
  apply preserves_bind; [done | by apply preserves_gets |]. intros hs.
  case_decide; [by apply preserves_ret | apply preserves_runHandlers].
Qed.
End Forwarder.

Lemma preserves_Forward (fuel : nat) : ∀ msg, preserves R (Forward fuel msg).
Proof.
  induction fuel as [|fuel IH]; intros msg; [by intros σ a σ'|]. simpl.
  apply preserves_bind; [done | |].
  { apply preserves_bind; [done | by apply preserves_gets |].
    intros; by apply preserves_ret. }
  intros self. destruct self; [by apply preserves_Process | by apply preserves_forwardRelay].
Qed.

Lemma preserves_handlePssMsg (fuel : nat) (msg : option PssMsg) :
  preserves R (handlePssMsg fuel msg).
Proof.
  destruct msg as [pssmsg|]; [|by apply preserves_ret]. simpl.
  apply preserves_bind; [done | |].
  { apply preserves_bind; [done | by apply preserves_gets |].
    intros; by apply preserves_ret. }
  intros self. destruct (negb self);
    [apply preserves_Forward | apply preserves_Process, preserves_Forward].
Qed.
End Dispatching.

(** *** The invariant of the registry *)

Lemma keepsInv_refl (p : Pss) : keepsInv p p.
Proof. by intros ?. Qed.

Lemma keepsInv_trans (p q r : Pss) : keepsInv p q → keepsInv q r → keepsInv p r.
Proof. unfold keepsInv. auto. Qed.

Lemma keepsInv_frame (p p' : Pss) :
  peerPool p' = peerPool p → reverseKeyPool p' = reverseKeyPool p →
  recvsymkeys p' = recvsymkeys p → w p' = w p → keepsInv p p'.
Proof. intros ? ? ? ? ?. by apply (registryInv_same p p'). Qed.

Lemma registryInv_NewPss (k : Overlay) (store : PssMsg → result (list byte))
    (ttl : Z) (priv : list byte) :
  registryInv (NewPss k store ttl priv).
Proof.
  split; [|split].
  - intros a t psp. unfold peerAt. simpl. by rewrite lookup_empty.
  - intros K. simpl. by intros ?%elem_of_nil.
  - intros K t a. unfold reverseAt. simpl. by rewrite lookup_empty.
Qed.

Lemma keepsInv_AddPublicKey (addr topic pk : list byte) :
  preserves keepsInv (AddPublicKey addr topic pk).
Proof.
  intros σ a σ'. rewrite AddPublicKey_eval. intros [= _ <-] Hinv. simpl.
  by apply registryInv_storePeer.
Qed.

Lemma keepsInv_removePeerTopic (rw' : MsgReadWriter) (topic : list byte) :
  preserves keepsInv (removePeerTopic rw' topic).
Proof.
  unfold removePeerTopic. destruct (as_PssReadWriter rw') as [to|];
    [|by apply preserves_ret, keepsInv_refl].
  intros σ a σ'. monad_simpl.
  destruct (peerPool (pss σ) !! to) as [m|] eqn:Hm.
  2: { intros [= _ <-]. apply keepsInv_refl. }
  assert (Hsub : ∀ p', (∀ a t psp, peerAt a t p' = Some psp → peerAt a t (pss σ) = Some psp) →
                       reverseKeyPool p' = reverseKeyPool (pss σ) →
                       recvsymkeys p' = recvsymkeys (pss σ) → w p' = w (pss σ) →
                       keepsInv (pss σ) p').
  { intros p' Hpeers Hrev Hkeys Hw Hinv. apply (registryInv_shrink (pss σ)); try done.
    - intros a0 t psp' Hat _. exists psp'. split; [by apply Hpeers|done].
    - by rewrite Hw. }
  case_decide; intros [= _ <-]; apply Hsub; try done.
  - intros a0 t psp. unfold peerAt. simpl.
    destruct (decide (a0 = to)) as [->|Hne].
    + by rewrite lookup_delete_eq.
    + by rewrite lookup_delete_ne.
  - intros a0 t psp. unfold peerAt. simpl.
    destruct (decide (a0 = to)) as [->|Hne].
    + rewrite lookup_insert_eq, Hm. simpl.
      destruct (decide (t = topic)) as [->|Hnt].
      * by rewrite lookup_delete_eq.
      * by rewrite lookup_delete_ne.
    + by rewrite lookup_insert_ne.
Qed.

Section Lawful.
Hypothesis lawful : LawfulCodec.

Lemma known_add (key : list byte) (wsp : Whisper) (r : result string) (wsp' : Whisper) :
  AddSymKeyDirect key wsp = (r, wsp') → ∀ K, known K wsp → known K wsp'.
Proof. intros Hadd K [k Hk]. exists k. by eapply (add_mono lawful). Qed.

Lemma known_gen (wsp : Whisper) (r : result string) (wsp' : Whisper) :
  GenerateSymKey wsp = (r, wsp') → ∀ K, known K wsp → known K wsp'.
Proof. intros Hgen K [k Hk]. exists k. by eapply (gen_mono lawful). Qed.

Lemma keepsInv_SetOutgoingSymmetricKey (addr topic key : list byte) :
  preserves keepsInv (SetOutgoingSymmetricKey addr topic key).
Proof.
  intros σ a σ'. rewrite SetOutgoingSymmetricKey_eval.
  destruct (AddSymKeyDirect key (w (pss σ))) as [[keyid|e] w'] eqn:Hadd;
    intros [= _ <-] Hinv; simpl.
  - apply registryInv_installOutbound, registryInv_set_w; [|done].
    by eapply known_add.
  - apply registryInv_set_w; [|done]. by eapply known_add.
Qed.

Lemma keepsInv_SetIncomingSymmetricKey (addr topic key : list byte) :
  preserves keepsInv (SetIncomingSymmetricKey addr topic key).
Proof.
  intros σ a σ'. rewrite SetIncomingSymmetricKey_eval.
  destruct (AddSymKeyDirect key (w (pss σ))) as [[keyid|e] w'] eqn:Hadd;
    intros [= _ <-] Hinv; simpl.
  - destruct (add_fresh lawful _ _ _ _ Hadd) as [Hfresh Hget].
    apply registryInv_installInbound; [done | by exists key | by eapply known_add | done].
  - apply registryInv_set_w; [|done]. by eapply known_add.
Qed.

Lemma keepsInv_GenerateSymKey : preserves keepsInv w_GenerateSymKey.
Proof.
  intros σ a σ'. unfold w_GenerateSymKey.
  destruct (GenerateSymKey (w (pss σ))) as [r w'] eqn:Hgen.
  intros [= _ <-] Hinv. simpl. apply registryInv_set_w; [|done]. by eapply known_gen.
Qed.

Lemma keepsInv_exec (fuel : nat) (c : Call) :
  handlersKeep registryInv → preserves keepsInv (exec fuel c).
Proof.
  intros Hhandlers.
  assert (Hh : ∀ h payload from, preserves keepsInv (call_Handler h payload from)).
  { intros h payload from σ a σ' Hrun Hinv. by eapply (Hhandlers h payload from σ a σ'). }
  pose proof keepsInv_refl as Hrefl. pose proof keepsInv_trans as Htrans.
  pose proof keepsInv_frame as Hframe.
  pose proof keepsInv_SetOutgoingSymmetricKey as Hout.
  pose proof keepsInv_SetIncomingSymmetricKey as Hin.
  pose proof keepsInv_GenerateSymKey as Hgen.
  assert (Hfwd : ∀ m, preserves keepsInv (Forward fuel m))
    by (by apply preserves_Forward).
  assert (Hforget : ∀ A (m : M A), preserves keepsInv m → preserves keepsInv (forget m)).
  { intros A m Hm. apply preserves_bind; [done | done |].
    intros; by apply preserves_ret. }
  destruct c; simpl; try apply Hforget.
  - by apply preserves_Run.
  - by apply preserves_Register.
  - by apply preserves_deregister.
  - apply keepsInv_AddPublicKey.
  - apply Hin.
  - apply Hout.
  - by apply preserves_AddToCache.
  - by apply preserves_addFwdCacheSender.
  - by apply preserves_addFwdCacheExpire.
  - by apply preserves_handlePssMsg.
  - by apply preserves_Process.
  - by apply preserves_SendSym.
  - by apply preserves_SendAsym.
  - apply Hfwd.
  - apply keepsInv_removePeerTopic.
Qed.
End Lawful.
End Invariant.

(** *** The in-memory codec is lawful *)

Lemma keyid_cons (n : nat) : ∃ s, Mem.keyid n = String "k" s.
Proof. destruct n; simpl; eauto. Qed.

Lemma keyindex_keyid (n : nat) : Mem.keyindex (Mem.keyid n) = Some n.
Proof.
  induction n as [|n IH]; [done|].
  change (Mem.keyid (S n)) with (String "k" (Mem.keyid n)).
  destruct (keyid_cons n) as [s Hs]. simpl. rewrite Hs, <- Hs, IH. done.
Qed.

Lemma Mem_getSymKey_app (K : string) (tbl more : list (list byte)) (k : list byte) :
  Mem.getSymKey K tbl = Okay k → Mem.getSymKey K (tbl ++ more) = Okay k.
Proof.
  unfold Mem.getSymKey. destruct (Mem.keyindex K) as [i|]; [|done]. simpl.
  destruct (tbl !! i) as [k'|] eqn:Hi; [|done].
  intros [= <-]. by rewrite (lookup_app_l_Some _ _ _ _ Hi).
Qed.

Lemma Mem_lawful : LawfulCodec.
Proof.
  split.
  - intros key tbl K tbl'. simpl. unfold Mem.addSymKeyDirect.
    destruct key as [|b key]; [done|]. intros [= <- <-]. split.
    + intros [k Hk]. simpl in Hk. unfold Mem.getSymKey in Hk.
      rewrite keyindex_keyid in Hk. simpl in Hk.
      by rewrite lookup_ge_None_2 in Hk.
    + unfold Mem.getSymKey. rewrite keyindex_keyid. simpl.
      by rewrite lookup_app_r, Nat.sub_diag.
  - intros key tbl r tbl' K k. simpl. unfold Mem.addSymKeyDirect.
    destruct key as [|b key]; intros [= <- <-]; [done|]. apply Mem_getSymKey_app.
  - intros tbl r tbl' K k. simpl. unfold Mem.generateSymKey.
    intros [= <- <-]. apply Mem_getSymKey_app.
Qed.

Lemma Mem_handlersKeep (I : Pss → Prop) : handlersKeep I.
Proof. by intros h payload from σ r σ' [= _ <-]. Qed.

(** ** The registry, operation by operation *)

Section RegistryOperations.
Context `{Host}.

Lemma trySymKeys_first (wsp : Whisper) (rev : gmap string (gmap (list byte) (list byte)))
    (env : Envelope) (ids : list string) (recvmsg : ReceivedMessage) (from : list byte) :
  trySymKeys wsp rev env ids = Some (recvmsg, from) →
  ∃ pre K post,
    ids = pre ++ K :: post ∧
    (∀ K' m, K' ∈ pre → ¬ opensWith K' env wsp m) ∧
    opensWith K env wsp recvmsg ∧
    from = default zeroAddress (rev !! K ≫= λ m, m !! env_Topic env).
Proof.
  induction ids as [|id rest IH]; [done|]. simpl.
  destruct (GetSymKey id wsp) as [key|e] eqn:Hkey.
  - destruct (OpenSymmetric env key) as [m|e] eqn:Hopen.
    + intros [= <- <-]. exists [], id, rest. split; [done|].
      split; [by intros K' m' ?%elem_of_nil|]. split; [by exists key|done].
    + intros (pre & K & post & -> & Hpre & HK & Hfrom)%IH.
      exists (id :: pre), K, post. split; [done|]. split; [|done].
      intros K' m' [->|Hin]%elem_of_cons; [|by apply Hpre].
      intros (key' & Hkey' & Hopen'). congruence.
  - intros (pre & K & post & -> & Hpre & HK & Hfrom)%IH.
    exists (id :: pre), K, post. split; [done|]. split; [|done].
    intros K' m' [->|Hin]%elem_of_cons; [|by apply Hpre].
    intros (key' & Hkey' & _). congruence.
Qed.

(** X2.  When the loop of [Process] over the inbound-try list opens the
    envelope, it does so with the first id of the list whose key opens
    it, and the sender it reports is the reverse-index entry under that
    id and the topic of the envelope, the zero address when there is
    none.  On a registry that satisfies its invariant, when that id is
    the inbound key of a pair with the topic of the envelope, the
    sender is the address of that pair. *)
Theorem dispatcher_identifies_sender (p : Pss) (env : Envelope)
    (recvmsg : ReceivedMessage) (from : list byte) :
  trySymKeys (w p) (reverseKeyPool p) env (recvsymkeys p) = Some (recvmsg, from) →
  ∃ pre K post,
    recvsymkeys p = pre ++ K :: post ∧
    (∀ K' m, K' ∈ pre → ¬ opensWith K' env (w p) m) ∧
    opensWith K env (w p) recvmsg ∧
    from = default zeroAddress (reverseAt K (env_Topic env) p) ∧
    (registryInv p →
     ∀ addr psp, peerAt addr (env_Topic env) p = Some psp →
                 recvsymkey psp = K → K ≠ "" → from = addr).
Proof.
  intros (pre & K & post & Hids & Hpre & HK & Hfrom)%trySymKeys_first.
  exists pre, K, post. do 4 (split; [done|]).
  intros (Hin & _) addr psp Hat HKeq Hne. subst K.
  rewrite Hfrom. fold (reverseAt (recvsymkey psp) (env_Topic env) p).
  by rewrite (Hin addr (env_Topic env) psp Hat Hne).
Qed.

(** X1.  With a lawful codec and handlers that keep it, the invariant
    of the registry (every inbound symkey id installed for a pair has
    the reverse-index entry under that id and topic, naming the address
    of the pair; every id of the inbound-try list has a reverse-index
    entry; the ids of the index are known to the codec) holds on a new
    node and is kept by every operation of the node that returns. *)
Theorem registry_invariant_kept :
  LawfulCodec → handlersKeep registryInv →
  (∀ k store ttl priv, registryInv (NewPss k store ttl priv)) ∧
  (∀ fuel c σ r σ',
     exec fuel c σ = Done r σ' → registryInv (pss σ) → registryInv (pss σ')).
Proof.
  intros Hlaw Hhandlers. split; [apply registryInv_NewPss|].
  intros fuel c σ r σ' Hrun Hinv.
  by apply (keepsInv_exec Hlaw fuel c Hhandlers σ r σ').
Qed.

(** *** Who writes the reverse index *)




Lemma sameIndex_AddPublicKey (addr topic pk : list byte) :
  preserves sameIndex (AddPublicKey addr topic pk).
Proof. intros σ a σ'. rewrite AddPublicKey_eval. by intros [= _ <-]. Qed.

Lemma sameIndex_SetOutgoingSymmetricKey (addr topic key : list byte) :
  preserves sameIndex (SetOutgoingSymmetricKey addr topic key).
Proof.
  intros σ a σ'. rewrite SetOutgoingSymmetricKey_eval.
  destruct (AddSymKeyDirect key (w (pss σ))) as [[keyid|e] w']; by intros [= _ <-].
Qed.

Lemma sameIndex_removePeerTopic (rw' : MsgReadWriter) (topic : list byte) :
  preserves sameIndex (removePeerTopic rw' topic).
Proof.
  intros σ a σ'. unfold removePeerTopic.
  destruct (as_PssReadWriter rw') as [to|]; [|by intros [= _ <-]].
  monad_simpl. destruct (peerPool (pss σ) !! to) as [m|]; [|by intros [= _ <-]].
  case_decide; by intros [= _ <-].
Qed.


(** *** Nothing is removed *)

Lemma indexGrows_refl (p : Pss) : indexGrows p p.
Proof. done. Qed.

Lemma indexGrows_trans (p q r : Pss) : indexGrows p q → indexGrows q r → indexGrows p r.
Proof.
  intros [Hl1 Hr1] [Hl2 Hr2]. split; [by etrans|]. intros K t HK. by apply Hr2, Hr1.
Qed.

Lemma sameIndex_grows (p p' : Pss) : sameIndex p p' → indexGrows p p'.
Proof.
  intros [Hrev Hkeys]. unfold indexGrows, reverseAt. by rewrite Hrev, Hkeys.
Qed.

Lemma indexGrows_frame (p p' : Pss) :
  peerPool p' = peerPool p → reverseKeyPool p' = reverseKeyPool p →
  recvsymkeys p' = recvsymkeys p → w p' = w p → indexGrows p p'.
Proof. intros. by apply sameIndex_grows. Qed.

Lemma preserves_weaken {A} (R R' : Pss → Pss → Prop) (m : M A) :
  (∀ p p', R p p' → R' p p') → preserves R m → preserves R' m.
Proof. intros HR Hm σ a σ' Hrun. by eapply HR, Hm. Qed.

Lemma indexGrows_SetIncomingSymmetricKey (addr topic key : list byte) :
  preserves indexGrows (SetIncomingSymmetricKey addr topic key).
Proof.
  intros σ a σ'. rewrite SetIncomingSymmetricKey_eval.
  destruct (AddSymKeyDirect key (w (pss σ))) as [[keyid|e] w'];
    intros [= _ <-]; [|done].
  split; [by apply prefix_app_r|].
  intros K t HK. simpl.
  destruct (decide ((K, t) = (keyid, topic))) as [[= -> ->]|Hother].
  - by rewrite reverseAt_installInbound.
  - by rewrite reverseAt_installInbound_other.
Qed.

Lemma indexGrows_GenerateSymKey : preserves indexGrows w_GenerateSymKey.
Proof.
  intros σ a σ'. unfold w_GenerateSymKey.
  destruct (GenerateSymKey (w (pss σ))) as [r w']. by intros [= _ <-].
Qed.

(** X4.  No operation takes an id off the inbound-try list or an entry
    off the reverse index, provided the handlers do not: after an
    operation that returns, the old try list is a prefix of the new one
    and every pair of id and topic that had an entry has one. *)
Theorem inbound_keys_never_removed (fuel : nat) (c : Call) (σ : World)
    (r : unit) (σ' : World) :
  (∀ h payload from, preserves indexGrows (call_Handler h payload from)) →
  exec fuel c σ = Done r σ' →
  recvsymkeys (pss σ) `prefix_of` recvsymkeys (pss σ') ∧
  ∀ K topic, is_Some (reverseAt K topic (pss σ)) → is_Some (reverseAt K topic (pss σ')).
Proof.
  intros Hh Hrun.
  enough (Hpres : preserves indexGrows (exec fuel c)) by exact (Hpres σ r σ' Hrun).
  pose proof indexGrows_refl as Hrefl. pose proof indexGrows_trans as Htrans.
  pose proof indexGrows_frame as Hframe.
  pose proof indexGrows_SetIncomingSymmetricKey as Hin.
  pose proof indexGrows_GenerateSymKey as Hgen.
  assert (Hout : ∀ a t k, preserves indexGrows (SetOutgoingSymmetricKey a t k)).
  { intros a t k. eapply preserves_weaken; [apply sameIndex_grows|].
    apply sameIndex_SetOutgoingSymmetricKey. }
  assert (Hfwd : ∀ m, preserves indexGrows (Forward fuel m))
    by (by apply preserves_Forward).
  assert (Hforget : ∀ A (m : M A), preserves indexGrows m → preserves indexGrows (forget m)).
  { intros A m Hm. apply preserves_bind; [done | done |].
    intros; by apply preserves_ret. }
  destruct c; simpl; try apply Hforget.
  - by apply preserves_Run.
  - by apply preserves_Register.
  - by apply preserves_deregister.
  - eapply preserves_weaken; [apply sameIndex_grows | apply sameIndex_AddPublicKey].
  - apply Hin.
  - apply Hout.
  - by apply preserves_AddToCache.
  - by apply preserves_addFwdCacheSender.
  - by apply preserves_addFwdCacheExpire.
  - by apply preserves_handlePssMsg.
  - by apply preserves_Process.
  - by apply preserves_SendSym.
  - by apply preserves_SendAsym.
  - apply Hfwd.
  - eapply preserves_weaken; [apply sameIndex_grows | apply sameIndex_removePeerTopic].
Qed.
End RegistryOperations.

Lemma registry_invariant_kept_witness :
  registryInv (pss (after (exec 0 (CSetIncomingSymmetricKey Mem.P2 Mem.T' Mem.Ka)) Scenario.alone)).
Proof.
  destruct (registry_invariant_kept Mem_lawful (Mem_handlersKeep _)) as [Hnew Hstep].
  apply (Hstep 0%nat (CSetIncomingSymmetricKey Mem.P2 Mem.T' Mem.Ka) Scenario.alone tt).
  - ran.
  - apply Hnew.
Defined.

Lemma dispatcher_identifies_sender_witness :
  ∃ pre K post,
    recvsymkeys (pss Scenario.hasInbound) = pre ++ K :: post ∧
    Mem.P1 = default zeroAddress (reverseAt K Mem.T (pss Scenario.hasInbound)).
Proof.
  destruct (dispatcher_identifies_sender (pss Scenario.hasInbound) Scenario.envFromP1
              (Mem.mkRecv [Byte.x68; Byte.x69] true) Mem.P1 ltac:(by_eval))
    as (pre & K & post & Hids & _ & _ & Hfrom & _).
  exists pre, K, post. split; [exact Hids | exact Hfrom].
Defined.


Lemma inbound_keys_never_removed_witness :
  let σ' := after (exec 0 (CSetIncomingSymmetricKey Mem.P2 Mem.T' Mem.Ka)) Scenario.hasInbound in
  recvsymkeys (pss Scenario.hasInbound) `prefix_of` recvsymkeys (pss σ') ∧
  ∀ K topic, is_Some (reverseAt K topic (pss Scenario.hasInbound)) →
             is_Some (reverseAt K topic (pss σ')).
Proof.
  intros σ'. subst σ'.
  apply (inbound_keys_never_removed 0 (CSetIncomingSymmetricKey Mem.P2 Mem.T' Mem.Ka)
           Scenario.hasInbound tt).
  - intros h payload from σ a σ0 [= _ <-]. apply indexGrows_refl.
  - ran.
Defined.

(** ** Key installation and peer records *)

Section PeerRecords.
Context `{Host}.

Lemma peerAt_installOutbound_other (addr topic : list byte) (keyid : string)
    (now : Time) (p : Pss) (a t : list byte) :
  (a, t) ≠ (addr, topic) →
  peerAt a t (installOutbound addr topic keyid now p) = peerAt a t p.
Proof. intros Hne. unfold installOutbound. by rewrite peerAt_storePeer_other. Qed.

(** X5.  [SetIncomingSymmetricKey]: when the codec refuses the key, its
    error is returned and the pool, the inbound-try list and the
    reverse index are as before (no record is made for the pair).  When
    the codec gives the id [keyid], the call returns nil; the record of
    the pair (an empty one if there was none) has [keyid] as inbound
    key and the clock plus one year as expiry, and keeps its channel,
    public key and outbound key; the other pairs are as before; [keyid]
    is the new last id of the inbound-try list; the reverse index maps
    [keyid] and the topic to the address and is otherwise as before. *)
Theorem SetIncomingSymmetricKey_effect (addr topic key : list byte) (σ : World) :
  (∀ e w', AddSymKeyDirect key (w (pss σ)) = (Fail e, w') →
     ∃ σ', SetIncomingSymmetricKey addr topic key σ = Done (Some e) σ' ∧
           peerPool (pss σ') = peerPool (pss σ) ∧
           recvsymkeys (pss σ') = recvsymkeys (pss σ) ∧
           reverseKeyPool (pss σ') = reverseKeyPool (pss σ)) ∧
  (∀ keyid w', AddSymKeyDirect key (w (pss σ)) = (Okay keyid, w') →
     ∃ σ', SetIncomingSymmetricKey addr topic key σ = Done None σ' ∧
           peerAt addr topic (pss σ') =
             Some (let old := default emptyPeer (peerAt addr topic (pss σ)) in
                   mkPeer (rw old) (pubkey old) keyid (sendsymkey old)
                          (clock σ + symkeyValidity)) ∧
           (∀ a t, (a, t) ≠ (addr, topic) →
                   peerAt a t (pss σ') = peerAt a t (pss σ)) ∧
           recvsymkeys (pss σ') = recvsymkeys (pss σ) ++ [keyid] ∧
           reverseAt keyid topic (pss σ') = Some addr ∧
           (∀ K t, (K, t) ≠ (keyid, topic) →
                   reverseAt K t (pss σ') = reverseAt K t (pss σ)) ∧
           w (pss σ') = w' ∧ clock σ' = clock σ ∧ wire σ' = wire σ).
Proof.
  rewrite SetIncomingSymmetricKey_eval. split.
  - intros e w' ->. by eexists.
  - intros keyid w' ->. eexists. split; [done|]. simpl.
    split; [by rewrite peerAt_installInbound|].
    split; [intros a t Hne; by rewrite peerAt_installInbound_other|].
    split; [done|]. split; [apply reverseAt_installInbound|].
    split; [|done]. intros K t Hne. by rewrite reverseAt_installInbound_other.
Qed.

(** X6.  [SetOutgoingSymmetricKey]: when the codec refuses the key, its
    error is returned and the pool is as before.  When the codec gives
    the id [keyid], the call returns nil; the record of the pair (an
    empty one if there was none) has [keyid] as outbound key and the
    clock plus one year as expiry, and keeps its channel, public key
    and inbound key; the other pairs, the inbound-try list and the
    reverse index are as before. *)
Theorem SetOutgoingSymmetricKey_effect (addr topic key : list byte) (σ : World) :
  (∀ e w', AddSymKeyDirect key (w (pss σ)) = (Fail e, w') →
     ∃ σ', SetOutgoingSymmetricKey addr topic key σ = Done (Some e) σ' ∧
           peerPool (pss σ') = peerPool (pss σ)) ∧
  (∀ keyid w', AddSymKeyDirect key (w (pss σ)) = (Okay keyid, w') →
     ∃ σ', SetOutgoingSymmetricKey addr topic key σ = Done None σ' ∧
           peerAt addr topic (pss σ') =
             Some (let old := default emptyPeer (peerAt addr topic (pss σ)) in
                   mkPeer (rw old) (pubkey old) (recvsymkey old) keyid
                          (clock σ + symkeyValidity)) ∧
           (∀ a t, (a, t) ≠ (addr, topic) →
                   peerAt a t (pss σ') = peerAt a t (pss σ)) ∧
           recvsymkeys (pss σ') = recvsymkeys (pss σ) ∧
           reverseKeyPool (pss σ') = reverseKeyPool (pss σ) ∧
           w (pss σ') = w' ∧ clock σ' = clock σ ∧ wire σ' = wire σ).
Proof.
  rewrite SetOutgoingSymmetricKey_eval. split.
  - intros e w' ->. by eexists.
  - intros keyid w' ->. eexists. split; [done|]. simpl.
    split; [by rewrite peerAt_installOutbound|].
    split; [|done]. intros a t Hne. by rewrite peerAt_installOutbound_other.
Qed.

(** [isSecured] some ticks after it was asked about a record. *)
Lemma isSecured_later (id topic : list byte) (σ : World) (psp : pssPeer) (d : Z) :
  peerAt id topic (pss σ) = Some psp →
  recvsymkey psp ≠ "" → sendsymkey psp ≠ "" →
  isSecured id topic (advance d σ)
  = Done (bool_decide (clock σ + d ≤ symkeyexpires psp)) (advance d σ).
Proof.
  intros Hat Hr Hs. rewrite (isSecured_peerAt id topic (advance d σ) psp Hat).
  f_equal. simpl. unfold Before.
  rewrite (bool_decide_eq_false_2 (recvsymkey psp = "")) by done.
  rewrite (bool_decide_eq_false_2 (sendsymkey psp = "")) by done.
  simpl. rewrite andb_true_r.
  destruct (decide (symkeyexpires psp < clock σ + d)).
  - rewrite bool_decide_eq_true_2 by done. by rewrite bool_decide_eq_false_2 by lia.
  - rewrite bool_decide_eq_false_2 by done. by rewrite bool_decide_eq_true_2 by lia.
Qed.

(** X7.  When the inbound and then the outbound key of a pair are
    installed one after the other and the codec gives non-empty ids,
    both calls return nil and the pair is secured from then on for one
    year of the clock: [d] ticks later [isSecured] answers true exactly
    when [d] is at most one year.  The same holds when the outbound key
    is installed first. *)
Theorem secured_after_both_keys (addr topic kin kout : list byte) (σ : World)
    (idin idout : string) (w1 w2 : Whisper) :
  idin ≠ "" → idout ≠ "" →
  (AddSymKeyDirect kin (w (pss σ)) = (Okay idin, w1) →
   AddSymKeyDirect kout w1 = (Okay idout, w2) →
   ∃ σ1 σ2,
     SetIncomingSymmetricKey addr topic kin σ = Done None σ1 ∧
     SetOutgoingSymmetricKey addr topic kout σ1 = Done None σ2 ∧
     ∀ d, 0 ≤ d →
          isSecured addr topic (advance d σ2)
          = Done (bool_decide (d ≤ symkeyValidity)) (advance d σ2)) ∧
  (AddSymKeyDirect kout (w (pss σ)) = (Okay idout, w1) →
   AddSymKeyDirect kin w1 = (Okay idin, w2) →
   ∃ σ1 σ2,
     SetOutgoingSymmetricKey addr topic kout σ = Done None σ1 ∧
     SetIncomingSymmetricKey addr topic kin σ1 = Done None σ2 ∧
     ∀ d, 0 ≤ d →
          isSecured addr topic (advance d σ2)
          = Done (bool_decide (d ≤ symkeyValidity)) (advance d σ2)).
Proof.
  intros Hin Hout. split.
  - intros Hadd1 Hadd2. eexists _, _.
    rewrite SetIncomingSymmetricKey_eval, Hadd1. split; [reflexivity|].
    rewrite SetOutgoingSymmetricKey_eval. simpl. rewrite Hadd2.
    split; [reflexivity|]. intros d Hd.
    erewrite isSecured_later;
      [| simpl; rewrite peerAt_installOutbound;
         change (peerAt addr topic (set_w ?x ?q)) with (peerAt addr topic q);
         rewrite peerAt_installInbound; reflexivity | done | done].
    simpl. f_equal. apply bool_decide_ext. lia.
  - intros Hadd1 Hadd2. eexists _, _.
    rewrite SetOutgoingSymmetricKey_eval, Hadd1. split; [reflexivity|].
    rewrite SetIncomingSymmetricKey_eval. simpl. rewrite Hadd2.
    split; [reflexivity|]. intros d Hd.
    erewrite isSecured_later;
      [| simpl; rewrite peerAt_installInbound;
         change (peerAt addr topic (set_w ?x ?q)) with (peerAt addr topic q);
         rewrite peerAt_installOutbound; reflexivity | done | done].
    simpl. f_equal. apply bool_decide_ext. lia.
Qed.

Lemma isActive_peerAt (id topic : list byte) (σ : World) (psp : pssPeer) :
  peerAt id topic (pss σ) = Some psp →
  isActive id topic σ = Done (bool_decide (rw psp ≠ None)) σ.
Proof.
  rewrite isActive_eval. unfold peerAt.
  destruct (peerPool (pss σ) !! id) as [m|]; [|done]. simpl. by intros ->.
Qed.

(** X8.  [preparePeerTopic] returns true exactly when the pair had no
    record.  Afterwards the pair has a record: the one it had, or an
    empty one; the other pairs are as before; a second call returns
    false and changes nothing; [isSecured] and [isActive] on the pair
    return (false for a record just made). *)
Theorem preparePeerTopic_makes_record (id topic : list byte) (σ : World) :
  ∃ b σ',
    preparePeerTopic id topic σ = Done b σ' ∧
    (b = true ↔ peerAt id topic (pss σ) = None) ∧
    peerAt id topic (pss σ') = Some (default emptyPeer (peerAt id topic (pss σ))) ∧
    (∀ a t, (a, t) ≠ (id, topic) → peerAt a t (pss σ') = peerAt a t (pss σ)) ∧
    preparePeerTopic id topic σ' = Done false σ' ∧
    (∃ s, isSecured id topic σ' = Done s σ' ∧ (b = true → s = false)) ∧
    (∃ s, isActive id topic σ' = Done s σ' ∧ (b = true → s = false)).
Proof.
  rewrite preparePeerTopic_eval.
  destruct (peerAt id topic (pss σ)) as [psp|] eqn:Hat.
  - exists false, σ. split; [done|]. split; [done|]. split; [done|].
    split; [done|]. split; [by rewrite preparePeerTopic_eval, Hat|].
    split.
    + rewrite (isSecured_peerAt _ _ _ _ Hat). by eexists.
    + rewrite isActive_eval. unfold peerAt in Hat.
      destruct (peerPool (pss σ) !! id) as [m|]; [|done]. simpl in Hat.
      rewrite Hat. by eexists.
  - exists true, (with_pss (storePeer id topic emptyPeer) σ).
    assert (Hnew : peerAt id topic (pss (with_pss (storePeer id topic emptyPeer) σ))
                   = Some emptyPeer) by apply peerAt_storePeer.
    split; [done|]. split; [done|]. split; [done|].
    split; [intros a t Hne; by apply peerAt_storePeer_other|].
    split; [by rewrite preparePeerTopic_eval, Hnew|].
    split.
    + rewrite (isSecured_peerAt _ _ _ _ Hnew). eexists. split; [done|].
      intros _. simpl. apply andb_false_r.
    + rewrite isActive_eval. unfold peerAt in Hnew.
      destruct (peerPool _ !! id) as [m|]; [|done]. simpl in Hnew.
      rewrite Hnew. by eexists.
Qed.

Lemma removePeerTopic_eval (rw' : MsgReadWriter) (topic : list byte) (σ : World) :
  removePeerTopic rw' topic σ =
  match as_PssReadWriter rw' with
  | None => Done tt σ
  | Some to =>
      match peerPool (pss σ) !! to with
      | None => Done tt σ
      | Some m =>
          if decide (size (delete topic m) = 0%nat)
          then Done tt (with_pss (set_peerPool (delete to (peerPool (pss σ)))) σ)
          else Done tt (with_pss (set_peerPool (<[to := delete topic m]> (peerPool (pss σ)))) σ)
      end
  end.
Proof.
  unfold removePeerTopic. destruct (as_PssReadWriter rw') as [to|]; [|done].
  monad_simpl. destruct (peerPool (pss σ) !! to) as [m|]; [|done].
  by case_decide.
Qed.

(** X9.  [removePeerTopic] with a read-writer that is not a
    [PssReadWriter] changes nothing.  Otherwise it returns and the pair
    (the [To] of the read-writer, the topic) has no record any more,
    its symkey ids included; the other pairs, the inbound-try list, the
    reverse index and the codec are as before.  The address leaves the
    pool exactly when it has no record under another topic; when it
    has one, [isSecured] and [isActive] on the removed pair panic. *)
Theorem removePeerTopic_effect (rw' : MsgReadWriter) (topic : list byte) (σ : World) :
  (as_PssReadWriter rw' = None → removePeerTopic rw' topic σ = Done tt σ) ∧
  (∀ to, as_PssReadWriter rw' = Some to →
     ∃ σ', removePeerTopic rw' topic σ = Done tt σ' ∧
           peerAt to topic (pss σ') = None ∧
           (∀ a t, (a, t) ≠ (to, topic) → peerAt a t (pss σ') = peerAt a t (pss σ)) ∧
           recvsymkeys (pss σ') = recvsymkeys (pss σ) ∧
           reverseKeyPool (pss σ') = reverseKeyPool (pss σ) ∧
           w (pss σ') = w (pss σ) ∧
           (peerPool (pss σ') !! to = None ↔
            ∀ t, t ≠ topic → peerAt to t (pss σ) = None) ∧
           ((∃ t, t ≠ topic ∧ is_Some (peerAt to t (pss σ))) →
            isSecured to topic σ' = Panic ∧ isActive to topic σ' = Panic)).
Proof.
  rewrite removePeerTopic_eval. split; [by intros ->|].
  intros to ->. unfold peerAt.
  destruct (peerPool (pss σ) !! to) as [m|] eqn:Hm.
  2: { exists σ. rewrite Hm. simpl. split; [done|]. split; [done|].
       split; [done|]. do 3 (split; [done|]). split; [done|].
       by intros (t & _ & [? ?]). }
  assert (Hempty : size (delete topic m) = 0%nat ↔ ∀ t, t ≠ topic → m !! t = None).
  { rewrite map_size_empty_iff, map_empty. split.
    - intros Hall t Hne. by rewrite <- (Hall t), lookup_delete_ne.
    - intros Hall t. destruct (decide (t = topic)) as [->|Hne].
      + apply lookup_delete_eq.
      + rewrite lookup_delete_ne by done. by apply Hall. }
  case_decide as Hsize.
  - eexists. split; [done|]. simpl. rewrite lookup_delete_eq. simpl.
    split; [done|]. split.
    { intros a t Hne. destruct (decide (a = to)) as [->|Ha].
      - rewrite lookup_delete_eq, Hm. simpl. symmetry.
        apply Hempty; [done|]. congruence.
      - by rewrite lookup_delete_ne. }
    do 3 (split; [done|]). split; [by rewrite <- Hempty|].
    intros (t & Hne & [psp Hpsp]). simpl in Hpsp.
    rewrite (proj1 Hempty Hsize t Hne) in Hpsp. done.
  - eexists. split; [done|]. simpl. rewrite lookup_insert_eq. simpl.
    split; [apply lookup_delete_eq|]. split.
    { intros a t Hne. destruct (decide (a = to)) as [->|Ha].
      - rewrite lookup_insert_eq, Hm. simpl. apply lookup_delete_ne. congruence.
      - by rewrite lookup_insert_ne. }
    do 3 (split; [done|]). split; [by rewrite <- Hempty|].
    intros _. rewrite isSecured_eval, isActive_eval. simpl.
    by rewrite lookup_insert_eq, lookup_delete_eq.
Qed.

End PeerRecords.

Lemma SetIncomingSymmetricKey_effect_witness :
  (∃ σ', SetIncomingSymmetricKey Mem.P1 Mem.T [] Scenario.alone
           = Done (Some (ErrExternal "wrong key size")) σ' ∧
         peerPool (pss σ') = peerPool (pss Scenario.alone)) ∧
  (∃ σ', SetIncomingSymmetricKey Mem.P1 Mem.T Mem.Ka Scenario.alone = Done None σ' ∧
         recvsymkeys (pss σ') = recvsymkeys (pss Scenario.alone) ++ ["k"] ∧
         reverseAt "k" Mem.T (pss σ') = Some Mem.P1).
Proof.
  split.
  - destruct (proj1 (SetIncomingSymmetricKey_effect Mem.P1 Mem.T [] Scenario.alone)
                (ErrExternal "wrong key size") [] ltac:(by_eval))
      as (σ' & Hrun & Hpool & _).
    by exists σ'.
  - destruct (proj2 (SetIncomingSymmetricKey_effect Mem.P1 Mem.T Mem.Ka Scenario.alone)
                "k" [Mem.Ka] ltac:(by_eval))
      as (σ' & Hrun & _ & _ & Hkeys & Hrev & _).
    by exists σ'.
Defined.

Lemma SetOutgoingSymmetricKey_effect_witness :
  (∃ σ', SetOutgoingSymmetricKey Mem.P1 Mem.T [] Scenario.alone
           = Done (Some (ErrExternal "wrong key size")) σ' ∧
         peerPool (pss σ') = peerPool (pss Scenario.alone)) ∧
  (∃ σ', SetOutgoingSymmetricKey Mem.P1 Mem.T Mem.Ka Scenario.hasInbound = Done None σ' ∧
         recvsymkey <$> peerAt Mem.P1 Mem.T (pss σ') = Some "k" ∧
         sendsymkey <$> peerAt Mem.P1 Mem.T (pss σ') = Some "kk").
Proof.
  split.
  - destruct (proj1 (SetOutgoingSymmetricKey_effect Mem.P1 Mem.T [] Scenario.alone)
                (ErrExternal "wrong key size") [] ltac:(by_eval))
      as (σ' & Hrun & Hpool).
    by exists σ'.
  - destruct (proj2 (SetOutgoingSymmetricKey_effect Mem.P1 Mem.T Mem.Ka Scenario.hasInbound)
                "kk" [Mem.Ka; Mem.Ka] ltac:(by_eval))
      as (σ' & Hrun & Hat & _).
    exists σ'. split; [exact Hrun|]. rewrite Hat.
    assert (Hold : peerAt Mem.P1 Mem.T (pss Scenario.hasInbound)
                   = Some (mkPeer None [] "k" "" (100 + symkeyValidity))) by by_eval.
    rewrite Hold. split; reflexivity.
Defined.

Lemma secured_after_both_keys_witness :
  ∃ σ1 σ2,
    SetIncomingSymmetricKey Mem.P1 Mem.T Mem.Ka Scenario.alone = Done None σ1 ∧
    SetOutgoingSymmetricKey Mem.P1 Mem.T Mem.Ka σ1 = Done None σ2 ∧
    isSecured Mem.P1 Mem.T (advance 5 σ2) = Done true (advance 5 σ2) ∧
    isSecured Mem.P1 Mem.T (advance (symkeyValidity + 1) σ2)
      = Done false (advance (symkeyValidity + 1) σ2).
Proof.
  destruct (proj1 (secured_after_both_keys Mem.P1 Mem.T Mem.Ka Mem.Ka Scenario.alone
                     "k" "kk" [Mem.Ka] [Mem.Ka; Mem.Ka]
                     ltac:(discriminate) ltac:(discriminate))
              ltac:(by_eval) ltac:(by_eval))
    as (σ1 & σ2 & Hin & Hout & Hsec).
  exists σ1, σ2. split; [exact Hin|]. split; [exact Hout|]. split.
  - rewrite (Hsec 5) by lia. reflexivity.
  - rewrite (Hsec (symkeyValidity + 1)) by (vm_compute; discriminate). reflexivity.
Defined.

Lemma removePeerTopic_effect_witness :
  ∃ σ', removePeerTopic Scenario.rwP1 Mem.T Scenario.twoTopics = Done tt σ' ∧
        peerAt Mem.P1 Mem.T (pss σ') = None ∧
        isSecured Mem.P1 Mem.T σ' = Panic ∧ isActive Mem.P1 Mem.T σ' = Panic.
Proof.
  destruct (proj2 (removePeerTopic_effect (H0 := Mem.host)
                     Scenario.rwP1 Mem.T Scenario.twoTopics)
              Mem.P1 ltac:(reflexivity))
    as (σ' & Hrun & Hgone & _ & _ & _ & _ & _ & Hpanic).
  exists σ'. split; [exact Hrun|]. split; [exact Hgone|].
  apply Hpanic. exists Mem.T'. split; [discriminate|].
  exists (mkPeer None Mem.Ka "" "" zeroTime). by_eval.
Defined.


(** ** Handlers *)

Section Handlers.
Context `{Host}.

Lemma set_handlers_same (p : Pss) : set_handlers (handlers p) p = p.
Proof. by destruct p. Qed.

(** X10.  [Register] stores the handler under a new pointer, which
    [getHandlers] then finds.  When the pointer is not yet in use under
    the topic and the topic has no empty handler set stored, calling the
    returned deregister function right away gives back the node as it
    was. *)
Theorem Register_then_deregister (topic : list byte) (h : Handler) (σ : World) :
  next_ptr σ ∉ dom (default ∅ (handlers (pss σ) !! topic)) →
  handlers (pss σ) !! topic ≠ Some ∅ →
  ∃ σ1 σ2,
    Register topic h σ = Done (next_ptr σ) σ1 ∧
    getHandlers topic σ1
      = Done (<[next_ptr σ := h]> (default ∅ (handlers (pss σ) !! topic))) σ1 ∧
    deregister topic (next_ptr σ) σ1 = Done tt σ2 ∧
    pss σ2 = pss σ.
Proof.
  intros Hfresh Hne. set (hs := default ∅ (handlers (pss σ) !! topic)) in *.
  apply not_elem_of_dom in Hfresh.
  pose (σ1 := bump_ptr (with_pss
          (λ p, set_handlers (<[topic := <[next_ptr σ := h]> hs]> (handlers p)) p) σ)).
  assert (Hback : ∃ σ2, deregister topic (next_ptr σ) σ1 = Done tt σ2 ∧ pss σ2 = pss σ).
  { unfold deregister. monad_simpl. rewrite lookup_insert_eq.
    case_decide as Hsize.
    - rewrite map_size_insert_None in Hsize by done.
      assert (Hhs : hs = ∅) by (apply map_size_empty_iff; lia).
      eexists. split; [done|]. simpl.
      change (set_handlers ?f (set_handlers ?g ?p)) with (set_handlers f p).
      rewrite delete_insert_eq.
      assert (Hnone : handlers (pss σ) !! topic = None).
      { subst hs. destruct (handlers (pss σ) !! topic) as [m|]; [|done].
        simpl in Hhs. by subst m. }
      rewrite delete_id by done. apply set_handlers_same.
    - eexists. split; [done|]. simpl.
      change (set_handlers ?f (set_handlers ?g ?p)) with (set_handlers f p).
      rewrite delete_insert_eq, delete_id by done.
      rewrite insert_insert_eq.
      assert (Hsome : handlers (pss σ) !! topic = Some hs).
      { subst hs. destruct (handlers (pss σ) !! topic) as [m|]; [done|].
        simpl in Hsize. rewrite insert_empty, map_size_singleton in Hsize. done. }
      rewrite insert_id by done. apply set_handlers_same. }
  destruct Hback as (σ2 & Hrun & Hpss).
  exists σ1, σ2. split; [reflexivity|]. split; [|done].
  unfold getHandlers, gets. simpl. by rewrite lookup_insert_eq.
Qed.

(** X11.  [deregister] on a topic with exactly one handler removes the
    topic whatever pointer it is given, the pointer of another handler
    or of none included.  On a topic with another number of handlers it
    removes the handler of the pointer and no other; with a pointer that
    is not registered there it then changes nothing.  On a topic without
    handlers it changes nothing. *)
Theorem deregister_effect (topic : list byte) (ptr : positive) (σ : World) :
  ∃ σ', deregister topic ptr σ = Done tt σ' ∧
        (∀ t, t ≠ topic → handlers (pss σ') !! t = handlers (pss σ) !! t) ∧
        (handlers (pss σ) !! topic = None → σ' = σ) ∧
        (∀ hs, handlers (pss σ) !! topic = Some hs → size hs = 1%nat →
               handlers (pss σ') !! topic = None) ∧
        (∀ hs, handlers (pss σ) !! topic = Some hs → size hs ≠ 1%nat →
               handlers (pss σ') !! topic = Some (delete ptr hs) ∧
               (hs !! ptr = None → pss σ' = pss σ)).
Proof.
  unfold deregister. monad_simpl.
  destruct (handlers (pss σ) !! topic) as [hs|] eqn:Hhs.
  2: { exists σ. split; [done|]. by rewrite Hhs. }
  case_decide as Hsize.
  - eexists. split; [done|]. simpl.
    split; [intros t Hne; by rewrite lookup_delete_ne|].
    split; [done|]. split; [intros _ _ _; apply lookup_delete_eq|].
    by intros hs' [= <-] ?.
  - eexists. split; [done|]. simpl.
    split; [intros t Hne; by rewrite lookup_insert_ne|].
    split; [done|]. split; [by intros hs' [= <-] ?|].
    intros hs' [= <-] _. split; [apply lookup_insert_eq|].
    intros Hptr. rewrite delete_id by done. rewrite insert_id by done.
    apply set_handlers_same.
Qed.
End Handlers.

(** ** The forward cache, mark by mark *)

Section CacheMarks.
Context `{Host}.

(** X12.  [addFwdCacheSender] sets the last sender of the digest and
    keeps its expiry; [addFwdCacheExpire] sets the expiry to the clock
    plus the TTL and keeps the last sender; both make the entry when
    there is none and touch no other digest.  In either order the two
    leave the same node. *)
Theorem cache_marks_independent (addr digest : list byte) (σ : World) :
  let old := default emptyEntry (fwdcache (pss σ) !! digest) in
  (∃ σ', addFwdCacheSender addr digest σ = Done None σ' ∧
         fwdcache (pss σ') !! digest = Some (mkEntry (expiresAt old) addr) ∧
         ∀ d, d ≠ digest → fwdcache (pss σ') !! d = fwdcache (pss σ) !! d) ∧
  (∃ σ', addFwdCacheExpire digest σ = Done None σ' ∧
         fwdcache (pss σ') !! digest
           = Some (mkEntry (clock σ + cachettl (pss σ)) (receivedFrom old)) ∧
         ∀ d, d ≠ digest → fwdcache (pss σ') !! d = fwdcache (pss σ) !! d) ∧
  (addFwdCacheSender addr digest ;;; addFwdCacheExpire digest) σ
  = (addFwdCacheExpire digest ;;; addFwdCacheSender addr digest) σ.
Proof.
  intros old. split; [|split].
  - unfold addFwdCacheSender. monad_simpl. eexists. split; [reflexivity|]. simpl.
    split; [apply lookup_insert_eq|]. intros d Hne. by rewrite lookup_insert_ne.
  - unfold addFwdCacheExpire. monad_simpl. eexists. split; [reflexivity|]. simpl.
    split; [apply lookup_insert_eq|]. intros d Hne. by rewrite lookup_insert_ne.
  - unfold addFwdCacheSender, addFwdCacheExpire. monad_simpl.
    rewrite !lookup_insert_eq. simpl. by rewrite !insert_insert_eq.
Qed.

(** X13.  With a positive TTL and a clock that is not before the zero
    instant: once [addFwdCacheExpire] has marked a digest,
    [checkFwdCache] answers true for that digest and every candidate
    while less than the TTL has passed, and false for every candidate,
    the last sender included, from then on. *)
Theorem flood_window (digest : list byte) (σ : World) :
  0 ≤ clock σ → 0 < cachettl (pss σ) →
  ∃ σ', addFwdCacheExpire digest σ = Done None σ' ∧
        ∀ c e, 0 ≤ e →
          checkFwdCache c digest (advance e σ')
          = Done (bool_decide (e < cachettl (pss σ))) (advance e σ').
Proof.
  intros Hnow Httl. unfold addFwdCacheExpire. monad_simpl.
  eexists. split; [reflexivity|].
  intros c e He. rewrite checkFwdCache_eval. f_equal.
  unfold cacheSkips. simpl. rewrite lookup_insert_eq. simpl.
  unfold After, IsZero.
  rewrite (bool_decide_eq_false_2 (clock σ + cachettl (pss σ) = 0)) by lia.
  simpl. rewrite orb_false_r. apply bool_decide_ext. lia.
Qed.

(** X14.  [AddToCache]: when the store fails, its error is returned and
    nothing changes; when the store gives a key of at least 32 bytes,
    the call returns nil and the entry of the digest (the first 32 bytes
    of the key) has the address as last sender and the expiry it had;
    no other digest is touched. *)
Theorem AddToCache_effect (addr : list byte) (msg : PssMsg) (σ : World) :
  (∀ e, dpa (pss σ) msg = Fail e → AddToCache addr msg σ = Done (Some e) σ) ∧
  (∀ key, dpa (pss σ) msg = Okay key → (digestLength ≤ length key)%nat →
     let digest := take digestLength key in
     ∃ σ', AddToCache addr msg σ = Done None σ' ∧
           fwdcache (pss σ') !! digest
             = Some (mkEntry (expiresAt (default emptyEntry (fwdcache (pss σ) !! digest)))
                             addr) ∧
           (∀ d, d ≠ digest → fwdcache (pss σ') !! d = fwdcache (pss σ) !! d) ∧
           clock σ' = clock σ ∧ wire σ' = wire σ).
Proof.
  split.
  - intros e He. unfold AddToCache, storeMsg. monad_simpl. by rewrite He.
  - intros key Hkey Hlen digest. unfold AddToCache. unfold bind at 1.
    rewrite (storeMsg_Okay _ _ _ Hkey Hlen). simpl.
    assert (Hd : copy_into digestLength (take digestLength key) = digest).
    { unfold copy_into, digest. rewrite take_app_le by (rewrite length_take; lia).
      apply take_ge. rewrite length_take. lia. }
    rewrite Hd. unfold addFwdCacheSender. monad_simpl.
    eexists. split; [reflexivity|]. simpl.
    split; [apply lookup_insert_eq|]. split; [|done].
    intros d Hne. by rewrite lookup_insert_ne.
Qed.
End CacheMarks.

Lemma Register_then_deregister_witness :
  ∃ σ1 σ2,
    Register Mem.T Scenario.okHandler Scenario.alone = Done (next_ptr Scenario.alone) σ1 ∧
    deregister Mem.T (next_ptr Scenario.alone) σ1 = Done tt σ2 ∧
    pss σ2 = pss Scenario.alone.
Proof.
  assert (Hnone : handlers (pss Scenario.alone) !! Mem.T = None) by by_eval.
  destruct (Register_then_deregister Mem.T Scenario.okHandler Scenario.alone)
    as (σ1 & σ2 & Hreg & _ & Hder & Hpss).
  - rewrite Hnone. simpl. apply not_elem_of_dom, lookup_empty.
  - by rewrite Hnone.
  - by exists σ1, σ2.
Defined.

Lemma flood_window_witness :
  ∃ σ', addFwdCacheExpire Mem.digestD Scenario.start = Done None σ' ∧
        checkFwdCache Mem.P1 Mem.digestD (advance 9 σ') = Done true (advance 9 σ') ∧
        checkFwdCache Mem.P1 Mem.digestD (advance 10 σ') = Done false (advance 10 σ').
Proof.
  assert (Httl : cachettl (pss Scenario.start) = 10) by by_eval.
  destruct (flood_window Mem.digestD Scenario.start) as (σ' & Hrun & Hwin).
  - vm_compute. discriminate.
  - rewrite Httl. reflexivity.
  - exists σ'. split; [exact Hrun|]. rewrite !Hwin, Httl by lia. split; reflexivity.
Defined.

Lemma AddToCache_effect_witness :
  ∃ σ', AddToCache Mem.P1 Mem.msgD Scenario.alone = Done None σ' ∧
        receivedFrom <$> fwdcache (pss σ') !! Mem.digestD = Some Mem.P1.
Proof.
  destruct (proj2 (AddToCache_effect Mem.P1 Mem.msgD Scenario.alone) Mem.R
              ltac:(by_eval) ltac:(vm_compute; lia))
    as (σ' & Hrun & Hent & _).
  exists σ'. split; [exact Hrun|].
  change (take digestLength Mem.R) with Mem.digestD in Hent. by rewrite Hent.
Defined.

(** ** The forwarder, call after call *)

Section ForwardRuns.
Context `{Host}.

Lemma storeMsg_eval (msg : PssMsg) (σ : World) :
  storeMsg msg σ =
  match dpa (pss σ) msg with
  | Fail e => Done (zeroDigest, Some e) σ
  | Okay key =>
      if decide (digestLength ≤ length key)%nat
      then Done (copy_into digestLength (take digestLength key), None) σ
      else Panic
  end.
Proof.
  unfold storeMsg. monad_simpl. destruct (dpa (pss σ) msg); [|done].
  by case_decide.
Qed.

(** The digest of a message depends on the store alone. *)
Lemma storeMsg_same_store (msg : PssMsg) (σ σ' : World) (d : list byte * option Error) :
  dpa (pss σ') = dpa (pss σ) →
  storeMsg msg σ = Done d σ → storeMsg msg σ' = Done d σ'.
Proof.
  intros Hdpa. rewrite !storeMsg_eval, Hdpa.
  destruct (dpa (pss σ) msg); [|by intros [= <-]].
  case_decide; [|done]. by intros [= <-].
Qed.

(** A [Forward] to another node that returns has stored the message. *)
Lemma Forward_relay_stored (fuel : nat) (msg : PssMsg) (σ : World)
    (r : option Error) (σ' : World) :
  To msg ≠ ov_BaseAddr (overlay (pss σ)) →
  Forward (S fuel) msg σ = Done r σ' →
  ∃ digest err, storeMsg msg σ = Done (digest, err) σ.
Proof.
  intros Hto. rewrite (Forward_other _ _ _ Hto).
  destruct (storeMsg msg σ) as [[digest err] σ0| |] eqn:Hstore.
  2, 3: unfold forwardRelay, bind at 1; by rewrite Hstore.
  pose proof (storeMsg_world _ _ _ _ Hstore) as ->. intros _. by exists digest, err.
Qed.

(** X16.  A [Forward] of a message to another node that returns has
    returned nil or the error "unable to forward to any peers".  It has
    left the clock, the peer pool, the reverse index, the inbound-try
    list, the codec, the handlers and the forwarding pool as they were,
    and every cache entry but the one of the digest of the message;
    every send it made carries that message.  With the error, the whole
    node is as before and no send was accepted; with an accepted send,
    the result is nil and the digest expires one TTL after the clock. *)
Theorem Forward_relay_footprint (fuel : nat) (msg : PssMsg) (σ : World)
    (r : option Error) (σ' : World) :
  To msg ≠ ov_BaseAddr (overlay (pss σ)) →
  Forward (S fuel) msg σ = Done r σ' →
  ∃ digest err,
    storeMsg msg σ = Done (digest, err) σ ∧
    (r = None ∨ r = Some ErrUnableToForward) ∧
    clock σ' = clock σ ∧
    peerPool (pss σ') = peerPool (pss σ) ∧
    reverseKeyPool (pss σ') = reverseKeyPool (pss σ) ∧
    recvsymkeys (pss σ') = recvsymkeys (pss σ) ∧
    w (pss σ') = w (pss σ) ∧
    handlers (pss σ') = handlers (pss σ) ∧
    fwdPool (pss σ') = fwdPool (pss σ) ∧
    (∀ d, d ≠ digest → fwdcache (pss σ') !! d = fwdcache (pss σ) !! d) ∧
    Forall (λ ev, ev_msg ev = msg) (newSends σ σ') ∧
    (r = Some ErrUnableToForward → pss σ' = pss σ ∧ okSends (newSends σ σ') = []) ∧
    (okSends (newSends σ σ') ≠ [] →
     r = None ∧
     expiresAt <$> fwdcache (pss σ') !! digest = Some (clock σ + cachettl (pss σ))).
Proof.
  intros Hto. rewrite (Forward_other _ _ _ Hto).
  destruct (storeMsg msg σ) as [[digest err] σ0| |] eqn:Hstore.
  2, 3: unfold forwardRelay, bind at 1; by rewrite Hstore.
  pose proof (storeMsg_world _ _ _ _ Hstore) as ->.
  rewrite (forwardRelay_eval _ _ _ _ Hstore).
  destruct (cacheSkips [] digest (pss σ) (clock σ)).
  { intros [= <- <-]. exists digest, err. split; [done|].
    unfold newSends. rewrite drop_all.
    split; [by left|]. do 8 (split; [done|]). split; [constructor|].
    split; [done|]. by intros ?. }
  destruct (EachConn _ _ 0 σ) as [sent σ1| |] eqn:Hfan; try done.
  apply EachConn_effect in Hfan as (Hp & Hc & _ & evs & Hw & Hs & Hall).
  assert (Hmsgs : Forall (λ ev, ev_msg ev = msg) evs)
    by (eapply Forall_impl; [exact Hall|]; by intros ev (? & _)).
  case_decide as Hsent; intros [= <- <-]; exists digest, err; (split; [done|]).
  - rewrite (newSends_app _ _ _ Hw), Hp.
    assert (Hnil : okSends evs = [])
      by (destruct (okSends evs); [done|]; simpl in Hs; lia).
    split; [by right|]. do 8 (split; [done|]). split; [done|].
    split; [done|]. by rewrite Hnil.
  - assert (Hw' : wire (with_pss (λ p, set_fwdcache
                   (<[digest := mkEntry (clock σ1 + cachettl p)
                        (receivedFrom (default emptyEntry (fwdcache p !! digest)))]>
                      (fwdcache p)) p) σ1) = wire σ ++ evs) by done.
    rewrite (newSends_app _ _ _ Hw'). simpl. rewrite Hp, Hc.
    split; [by left|]. do 7 (split; [done|]).
    split; [intros d Hd; by rewrite lookup_insert_ne|].
    split; [done|]. split; [done|].
    intros _. split; [done|]. by rewrite lookup_insert_eq.
Qed.

(** After a [Forward] that got a send accepted, every message to another
    node with the same digest is dropped for one TTL. *)
Lemma Forward_suppresses_digest (fuel fuel2 : nat) (msg msg2 : PssMsg) (σ σ' : World)
    (digest : list byte) (err err2 : option Error) (e : Z) :
  To msg ≠ ov_BaseAddr (overlay (pss σ)) →
  To msg2 ≠ ov_BaseAddr (overlay (pss σ)) →
  0 ≤ clock σ → 0 < cachettl (pss σ) →
  storeMsg msg σ = Done (digest, err) σ →
  storeMsg msg2 σ = Done (digest, err2) σ →
  Forward (S fuel) msg σ = Done None σ' →
  okSends (newSends σ σ') ≠ [] →
  0 ≤ e < cachettl (pss σ) →
  Forward (S fuel2) msg2 (advance e σ') = Done None (advance e σ').
Proof.
  intros Hto Hto2 Hnow Httl Hstore Hstore2 Hrun Hsent He.
  assert (Hsame : overlay (pss σ') = overlay (pss σ) ∧ dpa (pss σ') = dpa (pss σ) ∧
                  clock σ' = clock σ ∧
                  expiresAt <$> fwdcache (pss σ') !! digest
                    = Some (clock σ + cachettl (pss σ))).
  { revert Hrun Hsent.
    rewrite (Forward_other _ _ _ Hto), (forwardRelay_eval _ _ _ _ Hstore).
    destruct (cacheSkips [] digest (pss σ) (clock σ)).
    { intros [= <-]. unfold newSends. by rewrite drop_all. }
    destruct (EachConn _ _ 0 σ) as [sent σ1| |] eqn:Hfan; try done.
    apply EachConn_effect in Hfan as (Hp & Hc & _).
    case_decide; intros [= <-] _. simpl.
    by rewrite Hp, Hc, lookup_insert_eq. }
  destruct Hsame as (Hov & Hdpa & Hclock & Hentry).
  rewrite Forward_other by (simpl; by rewrite Hov).
  rewrite (forwardRelay_eval msg2 (advance e σ') digest err2)
    by (apply (storeMsg_same_store msg2 σ); [done|done]).
  simpl. unfold cacheSkips.
  destruct (fwdcache (pss σ') !! digest) as [entry|]; [|done].
  injection Hentry as Hentry. rewrite Hentry, Hclock. unfold After.
  rewrite bool_decide_eq_true_2 by lia. done.
Qed.

(** X17.  With a positive TTL: after [Forward] has got a message to
    another node accepted by a peer, a [Forward] of the same message
    less than one TTL later returns nil and leaves the world, the log of
    sends included, as it is. *)
Theorem Forward_twice_suppressed (fuel fuel2 : nat) (msg : PssMsg) (σ σ' : World) (e : Z) :
  To msg ≠ ov_BaseAddr (overlay (pss σ)) →
  0 ≤ clock σ → 0 < cachettl (pss σ) →
  Forward (S fuel) msg σ = Done None σ' →
  okSends (newSends σ σ') ≠ [] →
  0 ≤ e < cachettl (pss σ) →
  Forward (S fuel2) msg (advance e σ') = Done None (advance e σ').
Proof.
  intros Hto Hnow Httl Hrun Hsent He.
  destruct (Forward_relay_stored _ _ _ _ _ Hto Hrun) as (digest & err & Hstore).
  by apply (Forward_suppresses_digest fuel fuel2 msg msg σ σ' digest err err e).
Qed.

(** X18.  When the store fails, [Forward] goes on under the all-zero
    digest.  So, with a positive TTL, once a message whose store failed
    has been accepted by a peer, any other message to another node
    whose store fails is dropped for one TTL: [Forward] returns nil for
    it without a send. *)
Theorem store_failure_shares_digest (fuel fuel2 : nat) (msg msg2 : PssMsg)
    (σ σ' : World) (e1 e2 : Error) (e : Z) :
  To msg ≠ ov_BaseAddr (overlay (pss σ)) →
  To msg2 ≠ ov_BaseAddr (overlay (pss σ)) →
  0 ≤ clock σ → 0 < cachettl (pss σ) →
  dpa (pss σ) msg = Fail e1 →
  dpa (pss σ) msg2 = Fail e2 →
  Forward (S fuel) msg σ = Done None σ' →
  okSends (newSends σ σ') ≠ [] →
  0 ≤ e < cachettl (pss σ) →
  storeMsg msg σ = Done (zeroDigest, Some e1) σ ∧
  Forward (S fuel2) msg2 (advance e σ') = Done None (advance e σ').
Proof.
  intros Hto Hto2 Hnow Httl Hf1 Hf2 Hrun Hsent He.
  assert (Hs1 : storeMsg msg σ = Done (zeroDigest, Some e1) σ)
    by (by rewrite storeMsg_eval, Hf1).
  assert (Hs2 : storeMsg msg2 σ = Done (zeroDigest, Some e2) σ)
    by (by rewrite storeMsg_eval, Hf2).
  split; [done|].
  by apply (Forward_suppresses_digest fuel fuel2 msg msg2 σ σ' zeroDigest
              (Some e1) (Some e2) e).
Qed.

(** X19.  In the fan-out, when the send to a sender peer that the cache
    does not ask to skip fails with an error, the attempt is logged as
    not accepted, the counter stays, and the iteration goes on with the
    peers after it. *)
Theorem fanout_skips_failed_peer (msg : PssMsg) (digest : list byte)
    (op : OverlayConn) (po : Z) (isproxbin : bool)
    (rest : list (OverlayConn * Z * bool)) (sent : Z) (σ : World)
    (nid : list byte) (e : Error) :
  ID op = Some nid →
  checkFwdCache (Address op) digest σ = Done false σ →
  peer_Send (fwdPool (pss σ) !! nid) msg = SendFailed e →
  EachConn ((op, po, isproxbin) :: rest) (fwdVisit msg digest) sent σ
  = EachConn rest (fwdVisit msg digest) sent (log_send (mkSend op msg false) σ).
Proof.
  intros Hid Hskip Hsend. rewrite checkFwdCache_eval in Hskip.
  injection Hskip as Hskip.
  by rewrite EachConn_cons, fwdVisit_eval, Hid, Hskip, Hsend.
Qed.
End ForwardRuns.

(** The side conditions of the scenarios. *)
Ltac scenario_side :=
  match goal with
  | |- To _ ≠ _ => vm_compute; discriminate
  | |- 0 ≤ clock _ => vm_compute; discriminate
  | |- 0 < cachettl _ => vm_compute; reflexivity
  | |- _ ≤ _ < cachettl _ => split; vm_compute; (reflexivity || discriminate)
  | |- okSends _ ≠ [] =>
      let Hn := fresh in
      intros Hn; apply (f_equal length) in Hn; vm_compute in Hn; discriminate Hn
  | |- _ = Done _ _ => ran
  end.

Lemma Forward_relay_footprint_witness :
  ∃ digest err,
    storeMsg Mem.msgD Scenario.firstReceipt = Done (digest, err) Scenario.firstReceipt ∧
    clock Scenario.firstForward = clock Scenario.firstReceipt ∧
    recvsymkeys (pss Scenario.firstForward) = recvsymkeys (pss Scenario.firstReceipt) ∧
    Forall (λ ev, ev_msg ev = Mem.msgD)
           (newSends Scenario.firstReceipt Scenario.firstForward).
Proof.
  destruct (Forward_relay_footprint 0 Mem.msgD Scenario.firstReceipt None
              Scenario.firstForward ltac:(scenario_side) ltac:(scenario_side))
    as (digest & err & Hstore & _ & Hclock & _ & _ & Hkeys & _ & _ & _ & _ & Hmsgs & _).
  by exists digest, err.
Defined.

Lemma Forward_twice_suppressed_witness :
  Forward 1 Mem.msgD (advance 5 Scenario.firstForward)
  = Done None (advance 5 Scenario.firstForward).
Proof.
  apply (Forward_twice_suppressed 0 0 Mem.msgD Scenario.firstReceipt
           Scenario.firstForward 5); scenario_side.
Defined.

Lemma store_failure_shares_digest_witness :
  let σ' := after (Forward 1 Mem.msgD) Scenario.noStore in
  storeMsg Mem.msgD Scenario.noStore
    = Done (zeroDigest, Some (ErrExternal "store down")) Scenario.noStore ∧
  Forward 1 Scenario.msgE (advance 5 σ') = Done None (advance 5 σ').
Proof.
  intros σ'. subst σ'.
  apply (store_failure_shares_digest 0 0 Mem.msgD Scenario.msgE Scenario.noStore
           (after (Forward 1 Mem.msgD) Scenario.noStore)
           (ErrExternal "store down") (ErrExternal "store down") 5);
    try scenario_side; by_eval.
Defined.

Lemma fanout_skips_failed_peer_witness :
  EachConn Scenario.twoPeers (fwdVisit Mem.msgD Mem.digestD) 0 Scenario.oneDown
  = EachConn (tail Scenario.twoPeers) (fwdVisit Mem.msgD Mem.digestD) 0
      (log_send (mkSend (Mem.conn Mem.P1) Mem.msgD false) Scenario.oneDown).
Proof.
  apply (fanout_skips_failed_peer Mem.msgD Mem.digestD (Mem.conn Mem.P1) 5 false
           (tail Scenario.twoPeers) 0 Scenario.oneDown Mem.P1
           (ErrExternal "link down"));
    [reflexivity | scenario_digest | by_eval].
Defined.

(** With the link to the closest peer down, the message goes to the
    next peer. *)
Example failed_link_next_peer :
  (λ ev, (Address (ev_conn ev), ev_ok ev))
    <$> wire (after (Forward 1 Mem.msgD) Scenario.oneDown)
  = [(Mem.P1, false); (Mem.P2, true)].
Proof. by_eval. Qed.
(** ** The dispatcher and the sends *)

Section DispatchRuns.
Context `{Host}.

(** X15.  A message that a key of the inbound-try list opens, on a
    registry that satisfies its invariant, when only the inbound key of
    the pair ([addr], topic of the envelope) opens it: the sender is
    [addr].  When the keys of the pair have expired or its outbound key
    is missing, [Process] returns nil and nothing happens, handlers or
    not.  Otherwise, without a handler for the topic it returns the
    error "No registered handler"; and with exactly one handler for the
    topic, that handler is called on the payload and [addr]: its error
    is the error of [Process], its panic is a panic of [Process], and
    when it returns nil and has left the handlers as they were,
    [Process] returns nil.  The forwarder is not used. *)
Theorem secured_message_delivered (fwd : PssMsg → M (option Error)) (pssmsg : PssMsg)
    (σ : World) (recvmsg : ReceivedMessage) (from addr : list byte) (psp : pssPeer) :
  let env := Payload_ pssmsg in
  let topic := env_Topic env in
  let hs := default ∅ (handlers (pss σ) !! topic) in
  registryInv (pss σ) →
  trySymKeys (w (pss σ)) (reverseKeyPool (pss σ)) env (recvsymkeys (pss σ))
    = Some (recvmsg, from) →
  peerAt addr topic (pss σ) = Some psp →
  recvsymkey psp ≠ "" →
  (∀ K m, K ∈ recvsymkeys (pss σ) → opensWith K env (w (pss σ)) m →
          K = recvsymkey psp) →
  from = addr ∧
  (symkeyexpires psp < clock σ ∨ sendsymkey psp = "" →
   Process fwd pssmsg σ = Done None σ) ∧
  (clock σ ≤ symkeyexpires psp → sendsymkey psp ≠ "" →
   (size hs = 0%nat → Process fwd pssmsg σ = Done (Some (ErrNoHandler topic)) σ) ∧
   (∀ ptr h, hs = {[ptr := h]} →
      (∀ e σ', call_Handler h (recv_Payload recvmsg) addr σ = Done (Some e) σ' →
               Process fwd pssmsg σ = Done (Some e) σ') ∧
      (call_Handler h (recv_Payload recvmsg) addr σ = Panic →
       Process fwd pssmsg σ = Panic) ∧
      (∀ σ', call_Handler h (recv_Payload recvmsg) addr σ = Done None σ' →
             handlers (pss σ') = handlers (pss σ) →
             Process fwd pssmsg σ = Done None σ'))).
Proof.
  intros env topic hs [Hin _] Htry Hat Hrecv Honly.
  assert (Hfrom : from = addr).
  { destruct (trySymKeys_first _ _ _ _ _ _ Htry) as (pre & K & post & Hids & _ & HK & ->).
    assert (HKin : K ∈ recvsymkeys (pss σ)) by (rewrite Hids; set_solver).
    rewrite (Honly K recvmsg HKin HK).
    change (default zeroAddress (reverseAt (recvsymkey psp) topic (pss σ)) = addr).
    by rewrite (Hin addr topic psp Hat Hrecv). }
  subst from. split; [done|].
  assert (Hproc : Process fwd pssmsg σ =
            (secured <- isSecured addr topic ;;
             if negb secured then ret None
             else
               hs' <- getHandlers topic ;;
               if decide (size hs' = 0%nat) then ret (Some (ErrNoHandler topic))
               else runHandlers (map_to_list hs') (recv_Payload recvmsg) addr) σ).
  { unfold Process. unfold bind at 1. unfold gets. simpl.
    fold env. by rewrite Htry. }
  rewrite Hproc. clear Hproc.
  pose proof (isSecured_peerAt addr topic σ psp Hat) as Hsec. unfold Before in Hsec.
  split.
  - intros Hbad.
    assert (Hs : isSecured addr topic σ = Done false σ).
    { rewrite Hsec. f_equal. destruct Hbad as [Hexp|Hsend].
      - by rewrite bool_decide_eq_true_2.
      - rewrite (bool_decide_eq_true_2 (sendsymkey psp = "")) by done.
        by rewrite orb_true_r, andb_false_r. }
    unfold bind. by rewrite Hs.
  - intros Hexp Hsend.
    assert (Hs : isSecured addr topic σ = Done true σ).
    { rewrite Hsec. f_equal.
      rewrite (bool_decide_eq_false_2 (symkeyexpires psp < clock σ)) by lia.
      rewrite (bool_decide_eq_false_2 (recvsymkey psp = "")) by done.
      by rewrite (bool_decide_eq_false_2 (sendsymkey psp = "")) by done. }
    clear Hsec.
    assert (Hrun : (secured <- isSecured addr topic ;;
                    if negb secured then ret None
                    else
                      hs' <- getHandlers topic ;;
                      if decide (size hs' = 0%nat) then ret (Some (ErrNoHandler topic))
                      else runHandlers (map_to_list hs') (recv_Payload recvmsg) addr) σ
                   = if decide (size hs = 0%nat) then Done (Some (ErrNoHandler topic)) σ
                     else runHandlers (map_to_list hs) (recv_Payload recvmsg) addr σ).
    { unfold bind at 1. rewrite Hs. simpl. unfold bind at 1, getHandlers, gets.
      fold hs. by destruct (decide (size hs = 0%nat)). }
    rewrite Hrun. clear Hrun.
    split.
    + intros Hsize. by destruct (decide (size hs = 0%nat)).
    + intros ptr h Hone. rewrite Hone.
      destruct (decide (size ({[ptr := h]} : gmap positive Handler) = 0%nat))
        as [Hzero|_]; [by rewrite map_size_singleton in Hzero|].
      rewrite map_to_list_singleton. simpl. unfold bind.
      split; [by intros e σ' ->|]. split; [by intros ->|]. by intros σ' -> _.
Qed.

(** The handlers before an error have run, the ones after it have not. *)
Lemma runHandlers_app (hs1 hs2 : list (positive * Handler)) (payload from : list byte)
    (σ : World) :
  runHandlers (hs1 ++ hs2) payload from σ =
  (r <- runHandlers hs1 payload from ;;
   match r with
   | Some e => ret (Some e)
   | None => runHandlers hs2 payload from
   end) σ.
Proof.
  revert σ. induction hs1 as [|[ptr f] rest IH]; intros σ; [done|].
  simpl. unfold bind.
  destruct (call_Handler f payload from σ) as [[e|] σ1| |];
    [done | apply IH | done | done].
Qed.

(** X20.  The loop over the handlers of a topic stops at the first
    handler that returns an error: that error is the result, the
    handlers before it have run, and the handlers after it are not
    called. *)
Theorem handlers_stop_at_first_error (hs1 hs2 : list (positive * Handler))
    (ptr : positive) (f : Handler) (payload from : list byte)
    (σ σ1 σ2 : World) (e : Error) :
  runHandlers hs1 payload from σ = Done None σ1 →
  call_Handler f payload from σ1 = Done (Some e) σ2 →
  runHandlers (hs1 ++ (ptr, f) :: hs2) payload from σ = Done (Some e) σ2.
Proof.
  intros Hbefore Hf. rewrite runHandlers_app. unfold bind at 1.
  rewrite Hbefore. simpl. unfold bind at 1. by rewrite Hf.
Qed.

(** X21.  [SendAsym] reads the public key through the record of the pair:
    for a pair without a record it panics.  Once [AddPublicKey] has
    stored a key for the pair, it seals with the private key of the node
    as source and that public key as destination; when the codec
    refuses, in [NewSentMessage] or in [Wrap], the error is returned as
    a whisper error and nothing is forwarded; otherwise the envelope is
    handed to [Forward] in a message to [to] as it was given. *)
Theorem SendAsym_after_AddPublicKey (fwd : PssMsg → M (option Error))
    (to topic pk msg : list byte) (σ : World) :
  (peerAt (to_potaddr to) topic (pss σ) = None →
   SendAsym fwd to topic msg σ = Panic) ∧
  ∃ σ1,
    AddPublicKey (to_potaddr to) topic pk σ = Done tt σ1 ∧
    let wparams := mkParams DefaultTTL (Some (privatekey (pss σ))) (Some pk) [] topic
                            defaultWhisperWorkTime defaultWhisperPoW msg in
    (∀ e, NewSentMessage wparams = Fail e →
          SendAsym fwd to topic msg σ1 = Done (Some (ErrWhisper e)) σ1) ∧
    (∀ sm e, NewSentMessage wparams = Okay sm → Wrap sm wparams = Fail e →
             SendAsym fwd to topic msg σ1 = Done (Some (ErrWhisper e)) σ1) ∧
    (∀ sm env, NewSentMessage wparams = Okay sm → Wrap sm wparams = Okay env →
               SendAsym fwd to topic msg σ1 = fwd (mkMsg to env) σ1).
Proof.
  split.
  - intros Hnone. unfold SendAsym. monad_simpl. by rewrite Hnone.
  - rewrite AddPublicKey_eval. eexists. split; [reflexivity|].
    intros wparams.
    assert (Hrun : SendAsym fwd to topic msg
              (with_pss (λ p, let psp := default emptyPeer (peerAt (to_potaddr to) topic p) in
                 storePeer (to_potaddr to) topic
                   (mkPeer (rw psp) pk (recvsymkey psp) (sendsymkey psp)
                           (symkeyexpires psp)) p) σ)
            = send fwd to topic msg wparams
                (with_pss (λ p, let psp := default emptyPeer (peerAt (to_potaddr to) topic p) in
                 storePeer (to_potaddr to) topic
                   (mkPeer (rw psp) pk (recvsymkey psp) (sendsymkey psp)
                           (symkeyexpires psp)) p) σ)).
    { unfold SendAsym. monad_simpl. by rewrite peerAt_storePeer. }
    rewrite Hrun. unfold send.
    split; [by intros e ->|].
    split; [by intros sm e -> ->|]. by intros sm env -> ->.
Qed.

(** X22.  [handlePssMsg] does with a [PssMsg] what [Forward] does with
    it: for a message to another node it calls [Forward], and for a
    message to the node it calls [Process], which is what [Forward]
    calls then.  Anything else than a [PssMsg] is refused with the
    error "invalid message" and changes nothing. *)
Theorem handlePssMsg_as_Forward (fuel : nat) (msg : PssMsg) (σ : World) :
  handlePssMsg (S fuel) (Some msg) σ = Forward (S (S fuel)) msg σ ∧
  handlePssMsg fuel None σ = Done (Some ErrInvalidMessage) σ.
Proof.
  split; [|done].
  destruct (decide (To msg = ov_BaseAddr (overlay (pss σ)))) as [Hself|Hother].
  - unfold handlePssMsg, Forward; fold Forward.
    unfold bind at 1 2. unfold isSelfRecipient, BaseAddr. monad_simpl.
    unfold bytes_Equal. by rewrite bool_decide_eq_true_2.
  - rewrite (Forward_other (S fuel) msg σ Hother).
    unfold handlePssMsg. unfold bind at 1. unfold isSelfRecipient, BaseAddr.
    monad_simpl. unfold bytes_Equal. rewrite bool_decide_eq_false_2 by done.
    simpl. apply (Forward_other fuel msg σ Hother).
Qed.

(** X23.  On a new node every pair is unknown: [isSecured] and
    [isActive] answer false, [checkFwdCache] answers false for every
    candidate and digest, no topic has a handler, [SendSym] returns the
    error "missing complete handshake" and [SendAsym] panics; a message
    to the node that is not a valid handshake is dropped by [Process]
    without a change. *)
Theorem new_node_is_blank (k : Overlay) (store : PssMsg → result (list byte))
    (ttl : Z) (priv : list byte) (now : Time) (sends : list SendEvent) (ptr : positive)
    (fwd : PssMsg → M (option Error)) (a t : list byte) :
  let σ := mkWorld (NewPss k store ttl priv) now sends ptr in
  isSecured a t σ = Done false σ ∧
  isActive a t σ = Done false σ ∧
  (∀ c d, checkFwdCache c d σ = Done false σ) ∧
  getHandlers t σ = Done ∅ σ ∧
  (∀ msg, SendSym fwd a t msg σ = Done (Some ErrMissingHandshake) σ) ∧
  (∀ msg, SendAsym fwd a t msg σ = Panic) ∧
  (∀ pssmsg e, OpenAsymmetric (Payload_ pssmsg) priv = Fail e →
               Process fwd pssmsg σ = Done None σ).
Proof.
  intros σ.
  assert (Hsec : ∀ a', isSecured a' t σ = Done false σ)
    by (intros a'; by rewrite isSecured_eval).
  split; [apply Hsec|].
  split; [by rewrite isActive_eval|].
  split; [intros c d; by rewrite checkFwdCache_eval|].
  split; [done|].
  split; [intros msg; unfold SendSym; unfold bind at 1; by rewrite Hsec|].
  split; [intros msg; unfold SendAsym; by monad_simpl|].
  intros pssmsg e Hopen. unfold Process, processAsym. monad_simpl.
  by rewrite Hopen.
Qed.
End DispatchRuns.

(** The registry of the scenario [serving] satisfies its invariant. *)
Lemma serving_registryInv : registryInv (pss Scenario.serving).
Proof.
  assert (H1 : registryInv (pss Scenario.hasInbound)).
  { apply (keepsInv_SetIncomingSymmetricKey Mem_lawful Mem.P1 Mem.T Mem.Ka
             Scenario.alone None Scenario.hasInbound); [ran|].
    apply registryInv_NewPss. }
  assert (H2 : registryInv (pss Scenario.secured)).
  { by apply (keepsInv_SetOutgoingSymmetricKey Mem_lawful Mem.P1 Mem.T Mem.Ka
                Scenario.hasInbound None Scenario.secured); [ran|]. }
  apply (preserves_Register keepsInv keepsInv_frame Mem.T Scenario.okHandler
           Scenario.secured 1%positive Scenario.serving); [ran | exact H2].
Qed.

Lemma secured_message_delivered_witness :
  Process Scenario.noForward Scenario.msgFromP1 Scenario.serving
  = Done None Scenario.serving.
Proof.
  assert (Hkeys : recvsymkeys (pss Scenario.serving) = ["k"]) by by_eval.
  destruct (secured_message_delivered Scenario.noForward Scenario.msgFromP1
              Scenario.serving (Mem.mkRecv [Byte.x68; Byte.x69] true) Mem.P1 Mem.P1
              (default emptyPeer (peerAt Mem.P1 Mem.T (pss Scenario.serving)))
              serving_registryInv ltac:(by_eval) ltac:(by_eval)
              ltac:(vm_compute; discriminate))
    as (_ & _ & Hrun).
  - intros K m HK _. rewrite Hkeys in HK.
    apply list_elem_of_singleton in HK as ->. by_eval.
  - destruct Hrun as [_ Hone].
    + vm_compute. discriminate.
    + vm_compute. discriminate.
    + destruct (Hone 1%positive Scenario.okHandler) as (_ & _ & Hnil); [by_eval|].
      by apply Hnil.
Defined.

Lemma handlers_stop_at_first_error_witness :
  runHandlers [(1%positive, Scenario.okHandler); (2%positive, Scenario.failHandler);
               (3%positive, Scenario.okHandler)] [] Mem.P1 Scenario.alone
  = Done (Some (ErrExternal "handler failed")) Scenario.alone.
Proof.
  apply (handlers_stop_at_first_error [(1%positive, Scenario.okHandler)]
           [(3%positive, Scenario.okHandler)] 2%positive Scenario.failHandler
           [] Mem.P1 Scenario.alone Scenario.alone Scenario.alone);
    reflexivity.
Defined.

(** On the scenario the handler accepts the message. *)
Example secured_message_handled :
  returned (Process Scenario.noForward Scenario.msgFromP1 Scenario.serving) = Some None.
Proof. by_eval. Qed.

(** [SendAsym] on a node without peers, before and after [AddPublicKey]:
    the sealed message finds no peer to go to. *)
Example SendAsym_needs_public_key :
  SendAsym (Forward 1) Mem.P1 Mem.T [Byte.x68] Scenario.alone = Panic ∧
  returned (SendAsym (Forward 1) Mem.P1 Mem.T [Byte.x68] Scenario.otherTopic)
  = Some (Some ErrUnableToForward).
Proof. split; by_eval. Qed.
(** ** The mutex: which calls return *)

Section LockingFacts.
Import Locking.
Open Scope lock_scope.
Variable handler : Code.

Ltac exec_inv H := inversion H; subst; clear H.

(** One step of the run of a method body that is written out; the
    statement at the front comes before the sequence after it. *)
Ltac exec_atom :=
  match goal with
  | H : goes_on _ = false |- _ => discriminate H
  | H : @eq Result _ _ |- _ => progress simplify_eq
  | H : _ ∨ _ |- _ => destruct H as [H|H]
  | H : exec _ _ Skip _ _ _ |- _ => exec_inv H
  | H : exec _ _ Lock _ _ _ |- _ => exec_inv H
  | H : exec _ _ DeferUnlock _ _ _ |- _ => exec_inv H
  | H : exec _ _ Return _ _ _ |- _ => exec_inv H
  | H : exec _ _ (If _ _) _ _ _ |- _ => exec_inv H
  end.

Ltac exec_seq :=
  match goal with
  | H : exec _ _ (Seq _ _) _ _ _ |- _ => exec_inv H
  end.

Ltac exec_step := first [ exec_atom | exec_seq ].

(** A loop whose body leaves the mutex and the deferred calls as they
    are, or returns with them as they are, does the same. *)
Lemma exec_Loop_keeps (n : nat) (c : Code) (h : bool) (d : nat) (r : Result) :
  (∀ r', exec handler n c h d r' → r' = Falls h d ∨ r' = Returns h d) →
  exec handler n (Loop c) h d r → r = Falls h d ∨ r = Returns h d.
Proof.
  intros Hbody Hrun. remember (Loop c) as l eqn:Hl.
  induction Hrun; try discriminate Hl; injection Hl as ->.
  - by left.
  - destruct (Hbody _ Hrun1) as [?|?]; simplify_eq. by apply IHHrun2.
  - by apply Hbody.
Qed.

(** X24.  [AddPeer] never returns: it takes the mutex and, holding it,
    calls [preparePeerTopic], whose [Lock] then blocks.  Every run of a
    call of [AddPeer] that finds the mutex free ends blocked, and there
    is such a run. *)
Theorem AddPeer_blocks :
  (∀ n o, call handler n AddPeer false o → o = Stuck) ∧
  call handler 1 AddPeer false Stuck.
Proof.
  split.
  - intros n o (r & Hrun & ->). unfold body in Hrun.
    repeat exec_step;
      match goal with H : exec _ _ (Call _) _ _ _ |- _ => exec_inv H end;
      match goal with H : exec _ _ (body _ preparePeerTopic) _ _ _ |- _ =>
        unfold body in H end;
      repeat exec_step; try done; simpl in *; by repeat exec_step.
  - exists Blocked. split; [|done]. unfold body.
    eapply exec_Seq; [apply exec_Lock_free|].
    eapply exec_Seq; [apply exec_DeferUnlock|].
    apply exec_Seq_stop; [|done].
    apply (exec_Call handler 0 preparePeerTopic true 1 Blocked).
    unfold body. by apply exec_Seq_stop; [apply exec_Lock_held|].
Qed.

(** A call of a method that returns with the mutex free. *)
Ltac call_step Hcallee :=
  match goal with
  | H : exec _ _ (Call _) false _ _ |- _ =>
      exec_inv H;
      match goal with
      | H' : exec _ _ (body _ _) false 0 _ |- _ =>
          apply Hcallee in H'; [| lia | discriminate];
          rewrite H' in *; clear H'; cbn [resume] in *
      end
  end.

Ltac run_step Hcallee := first [ exec_atom | call_step Hcallee ].

(** A loop whose body is written out. *)
Ltac loop_step Hcallee :=
  match goal with
  | H : exec _ _ (Loop _) _ _ _ |- _ =>
      apply exec_Loop_keeps in H;
      [| let r' := fresh "r'" in let Hr' := fresh "Hr'" in
         intros r' Hr';
         repeat (first [ run_step Hcallee | exec_seq ]); auto ]
  end.

(** X25.  No other method blocks on the mutex: when the handlers
    return with the mutex free, every run of a call of a method other
    than [AddPeer] that finds the mutex free returns with the mutex
    free. *)
Theorem other_methods_return :
  (∀ n o, call handler n Handler false o → o = Back false) →
  ∀ n m o, m ≠ AddPeer → call handler n m false o → o = Back false.
Proof.
  intros Hh n. induction n as [n IH] using lt_wf_ind.
  intros m o Hm Hcall.
  assert (Hcallee : ∀ k m' r', (k < n)%nat → m' ≠ AddPeer →
            exec handler k (body handler m') false 0 r' → leave r' = Back false).
  { intros k m' r' Hk Hm' Hrun'. apply (IH k Hk m'); [done|]. by exists r'. }
  clear IH.
  destruct m; try done; try (by apply (Hh n));
    destruct Hcall as (r & Hrun & ->); unfold body in Hrun.
  all: repeat (first [ run_step Hcallee | loop_step Hcallee | exec_seq ]).
  all: reflexivity.
Qed.
End LockingFacts.

(** A run of [SetIncomingSymmetricKey]: [preparePeerTopic] takes and
    releases the mutex before the method takes it. *)
Lemma other_methods_return_witness :
  ∃ r, Locking.exec Locking.Skip 1
         (Locking.body Locking.Skip Locking.SetIncomingSymmetricKey) false 0 r ∧
       Locking.leave r = Locking.Back false.
Proof.
  assert (Hprepare : Locking.exec Locking.Skip 0
            (Locking.body Locking.Skip Locking.preparePeerTopic) false 0
            (Locking.Returns true 1)).
  { unfold Locking.body.
    eapply Locking.exec_Seq; [apply Locking.exec_Lock_free|].
    eapply Locking.exec_Seq; [apply Locking.exec_DeferUnlock|].
    eapply Locking.exec_Seq; [apply Locking.exec_Skip|].
    apply Locking.exec_Seq_stop; [|reflexivity].
    apply Locking.exec_If_left, Locking.exec_Return. }
  assert (Hrun : Locking.exec Locking.Skip 1
            (Locking.body Locking.Skip Locking.SetIncomingSymmetricKey) false 0
            (Locking.Returns true 1)).
  { unfold Locking.body.
    eapply Locking.exec_Seq; [apply Locking.exec_Skip|].
    eapply Locking.exec_Seq; [apply Locking.exec_If_right, Locking.exec_Skip|].
    eapply Locking.exec_Seq;
      [exact (Locking.exec_Call Locking.Skip 0 Locking.preparePeerTopic false 0 _ Hprepare)|].
    eapply Locking.exec_Seq; [apply Locking.exec_Lock_free|].
    eapply Locking.exec_Seq; [apply Locking.exec_DeferUnlock|].
    eapply Locking.exec_Seq; [apply Locking.exec_Skip|].
    apply Locking.exec_Return. }
  exists (Locking.Returns true 1). split; [exact Hrun|].
  apply (other_methods_return Locking.Skip) with (n := 1%nat)
                                                 (m := Locking.SetIncomingSymmetricKey).
  - intros n o (r & Hr & ->). simpl in Hr. inversion Hr. reflexivity.
  - discriminate.
  - exists (Locking.Returns true 1). split; [exact Hrun | reflexivity].
Defined.
